(** * IQA: replay, return and loss core of the question-answering agent

    A shallow embedding of the reward, return and loss computations of
    [agent.py] and of the trajectory assembly of [train.py], followed by
    the command strings, the answer choice and the end-of-episode schedule
    of [agent.py], the finishing mask of [train.py], the log reader of
    [check_max.py] and the sentence padding of
    [decision_transformer/trainer_qait.py].

    Tensors and numpy arrays are lists (a matrix is a list of rows); their
    float entries are modelled by exact rationals [Q], compared with [==],
    except for the half-precision accumulator of the actor-critic loss,
    which is rounded as [torch.float16] rounds.
    An operation that raises in Python is [None] in the helpers below; the
    loss functions, which may also return Python's [None], have an
    [outcome].  The neural networks, the tokenizer and the game simulator
    are not part of the model: what they return is an input of the
    functions below. *)

From Stdlib Require Import QArith Qround Qabs Qminmax Lqa ZArith Lia.
From stdpp Require Import gmap strings list fin_maps.

Open Scope Q_scope.

(** ** Small list and tensor helpers *)

(** Sum of the entries of a tensor. *)
Fixpoint Qsum (l : list Q) : Q :=
  match l with
  | [] => 0
  | x :: l' => x + Qsum l'
  end.

(** [Tensor.mean()]: the sum of the entries divided by their number. *)
Definition Qmean (l : list Q) : Q := Qsum l / inject_Z (Z.of_nat (length l)).

(** Entrywise equality of two tensors. *)
Definition Qlist_eq (l1 l2 : list Q) : Prop := Forall2 Qeq l1 l2.

#[global] Instance Q_inhabited : Inhabited Q := populate 0.

(** An elementwise binary operation on two tensors of one shape.  The
    operands below always come from lists of one length; on other shapes
    torch raises (or broadcasts a size-1 operand), which is [None] here. *)
Definition tensor_op (f : Q -> Q -> Q) (a b : list Q) : option (list Q) :=
  if decide (length a = length b) then Some (zip_with f a b) else None.

(** The same on two matrices of one shape. *)
Definition matrix_op (f : Q -> Q -> Q) (a b : list (list Q))
  : option (list (list Q)) :=
  if decide (length a = length b)
  then mapM (fun '(x, y) => tensor_op f x y) (zip a b)
  else None.

(** [torch.stack] of a Python list of tensors: the list must not be empty
    and its tensors must have one size. *)
Definition stack {A : Type} (rows : list (list A)) : option (list (list A)) :=
  match rows with
  | [] => None
  | r :: _ =>
      if forallb (fun r' => Nat.eqb (length r') (length r)) rows
      then Some rows else None
  end.

(** [torch.stack] of a list of scalar tensors. *)
Definition stack_scalars {A : Type} (xs : list A) : option (list A) :=
  match xs with
  | [] => None
  | _ => Some xs
  end.

(** Column [i] of a matrix, [m[:, i]]; an index out of range raises. *)
Definition column {A : Type} (i : nat) (m : list (list A)) : option (list A) :=
  mapM (fun row => row !! i) m.

(** The transpose [m.T] of a matrix; [np.stack(rows, 1)] of a list of
    arrays of one size is the transpose of their [np.stack(rows, 0)]. *)
Definition transpose {A : Type} (m : list (list A)) : option (list (list A)) :=
  stacked ← stack m;
  row ← head stacked;
  mapM (fun b => column b stacked) (seq 0 (length row)).

(** A matrix of [rows] rows and [cols] columns. *)
Definition has_shape {A : Type} (rows cols : nat) (m : list (list A)) : Prop :=
  length m = rows /\ Forall (fun r => length r = cols) m.

(** The entry [m[i][j]] of a matrix. *)
Definition entry {A : Type} (m : list (list A)) (i j : nat) : option A :=
  row ← m !! i; row !! j.

(** A Python function either returns a value (possibly [None]) or raises. *)
Inductive outcome (A : Type) : Type :=
| Returned (a : A)
| Raised.
Arguments Returned {A} a.
Arguments Raised {A}.

(** [float(b)] of a Python boolean. *)
Definition float_of_bool (b : bool) : Q := if b then 1 else 0.

(** ** Scalars that can leave the finite range, and half precision *)

(** A floating-point scalar: a finite number, an infinity or not-a-number.
    The single-precision tensors of the code are modelled by exact
    rationals; the one half-precision tensor of the code, [policy_losses]
    of [get_actor_critic_loss], is rounded, and can overflow. *)
Inductive scalar : Type :=
| Finite (x : Q)
| Infinite (negative : bool)
| NaN.

(** Equality of scalars, up to the representation of the rationals. *)
Definition scalar_eq (a b : scalar) : Prop :=
  match a, b with
  | Finite x, Finite y => x == y
  | Infinite s, Infinite t => s = t
  | NaN, NaN => True
  | _, _ => False
  end.

(** [a + y], [a - y] and [c * a] for a scalar [a] and single-precision
    numbers [y] and [c]: an infinity absorbs a finite number, and zero times
    an infinity is not a number. *)
Definition scalar_add (a : scalar) (y : Q) : scalar :=
  match a with
  | Finite x => Finite (x + y)
  | _ => a
  end.

Definition scalar_sub (a : scalar) (y : Q) : scalar :=
  match a with
  | Finite x => Finite (x - y)
  | _ => a
  end.

Definition scalar_mul (c : Q) (a : scalar) : scalar :=
  match a with
  | Finite x => Finite (c * x)
  | Infinite negative =>
      if Qeq_bool c 0 then NaN
      else Infinite (xorb negative (negb (Qle_bool 0 c)))
  | NaN => NaN
  end.

(** [floor(log2(x))] of a positive number: the quotient of the bit lengths
    of numerator and denominator is off by at most one. *)
Definition floor_log2 (x : Q) : Z :=
  let e := (Z.log2 (Qnum x) - Z.log2 (Zpos (Qden x)))%Z in
  if Qle_bool (Qpower 2 e) x then e else (e - 1)%Z.

(** Rounding to the nearest integer, a tie to the even one. *)
Definition round_half_even (x : Q) : Z :=
  let f := Qfloor x in
  match Qcompare (x - inject_Z f) (1 # 2) with
  | Lt => f
  | Gt => (f + 1)%Z
  | Eq => if Z.even f then f else (f + 1)%Z
  end.

(** The conversion to [torch.float16] (IEEE binary16): 11 significant bits,
    exponents from -14 to 15 with gradual underflow below, rounding to the
    nearest number with ties to even, and an infinity from 65520 on (the
    largest half-precision number is 65504). *)
Definition to_half (x : Q) : scalar :=
  if Qeq_bool x 0 then Finite 0
  else if Qle_bool 65520 (Qabs x) then Infinite (negb (Qle_bool 0 x))
  else
    let e := Z.max (floor_log2 (Qabs x)) (-14) in
    let quantum := Qpower 2 (e - 10) in
    Finite (inject_Z (round_half_even (x / quantum)) * quantum).

(** [a += x] on a half-precision scalar [a] and a single-precision [x]:
    the sum is computed in single precision and stored in half
    precision. *)
Definition iadd_half (a : scalar) (x : Q) : scalar :=
  match a with
  | Finite y => to_half (y + x)
  | _ => a
  end.

(** ** State-visitation counter ([agent.py], [reset_binarized_counter] and
    [get_binarized_count]) *)

Module Counter.

(** [self.binarized_counter_dict]: one dictionary per game of the batch,
    from observation string to a float count.  The counts only take the
    values 0.0, 1.0, 2.0, ..., which floats represent exactly. *)
Abbreviation counter_dict := (list (gmap string Q)).

Definition reset_binarized_counter (batch_size : nat) : counter_dict :=
  replicate batch_size ∅.

(** The body of the loop of [get_binarized_count] for one game: the
    dictionary [d] of that game and its observation [key]. *)
Definition count_key (d : gmap string Q) (key : string) (update : bool)
  : gmap string Q * Q :=
  let d1 := match d !! key with
            | None => <[key := 0]> d
            | Some _ => d
            end in
  let d2 := if update then <[key := (d1 !!! key) + 1]> d1 else d1 in
  let r := d2 !!! key in
  (d2, float_of_bool (Qeq_bool r 1)).

(** The loop [for i in range(batch_size)], at index [i], over the
    observation strings that are left.  [self.binarized_counter_dict[i]]
    raises [IndexError] when the batch is larger than the counter. *)
Fixpoint count_loop (dict : counter_dict) (i : nat)
    (observation_strings : list string) (update : bool)
  : option (counter_dict * list Q) :=
  match observation_strings with
  | [] => Some (dict, [])
  | key :: rest =>
      match dict !! i with
      | None => None
      | Some d =>
          let '(d', r) := count_key d key update in
          match count_loop (<[i := d']> dict) (S i) rest update with
          | None => None
          | Some (dict', rs) => Some (dict', r :: rs)
          end
      end
  end.

Definition get_binarized_count (dict : counter_dict)
    (observation_strings : list string) (update : bool)
  : option (counter_dict * list Q) :=
  count_loop dict 0 observation_strings update.

(** A sequence of calls of [get_binarized_count] since the last reset,
    each with its observation strings and its [update] flag; the rewards
    of every call are collected. *)
Fixpoint run (dict : counter_dict) (calls : list (list string * bool))
  : option (counter_dict * list (list Q)) :=
  match calls with
  | [] => Some (dict, [])
  | (obs, update) :: calls' =>
      match get_binarized_count dict obs update with
      | None => None
      | Some (dict', rs) =>
          match run dict' calls' with
          | None => None
          | Some (dict'', out) => Some (dict'', rs :: out)
          end
      end
  end.

(** The number of earlier calls that counted a visit of [key] by game [i]:
    those with [update = True] whose observation of game [i] is [key]. *)
Fixpoint visits (i : nat) (key : string) (calls : list (list string * bool))
  : nat :=
  match calls with
  | [] => O
  | (obs, update) :: calls' =>
      ((if update then (if decide (obs !! i = Some key) then 1 else 0) else 0)
       + visits i key calls')%nat
  end.

(** The stored count of [key] for game [i]; an absent key counts 0. *)
Definition stored_count (dict : counter_dict) (i : nat) (key : string) : Q :=
  match dict !! i with
  | Some d => default 0 (d !! key)
  | None => 0
  end.

End Counter.

(** ** Curiosity loss mixing ([agent.py], the [if self.icm] blocks of both
    loss functions) *)

Module Curiosity.

(** The curiosity module's mixing coefficients. *)
Record CuriosityModule := {
  beta : Q;
  lambda_weight : Q;
  loss_weight : Q
}.

(** The curiosity loss from the means of the inverse and forward dynamics
    losses, which the curiosity networks compute. *)
Definition icm_loss (cm : CuriosityModule) (inverse_loss forward_loss : Q) : Q :=
  if Qeq_bool (beta cm) 0 then inverse_loss
  else if Qeq_bool (beta cm) 1 then forward_loss
  else (1 - beta cm) * inverse_loss + beta cm * forward_loss.

(** The returned loss: the reinforcement-learning loss alone, or mixed with
    the curiosity loss when [self.icm] is set.  [icm] holds the curiosity
    module and the two dynamics losses of the batch. *)
Definition with_curiosity (icm : option (CuriosityModule * Q * Q)) (rl_loss : Q) : Q :=
  match icm with
  | Some (cm, inverse_loss, forward_loss) =>
      lambda_weight cm * rl_loss
      + loss_weight cm * icm_loss cm inverse_loss forward_loss
  | None => rl_loss
  end.

(** The same for a loss that may have left the finite range. *)
Definition with_curiosity_scalar (icm : option (CuriosityModule * Q * Q))
    (rl_loss : scalar) : scalar :=
  match icm with
  | Some (cm, inverse_loss, forward_loss) =>
      scalar_add (scalar_mul (lambda_weight cm) rl_loss)
                 (loss_weight cm * icm_loss cm inverse_loss forward_loss)
  | None => rl_loss
  end.

End Curiosity.

(** ** Actor-critic return and loss ([agent.py], [get_actor_critic_loss]) *)

Module ActorCritic.
Import Curiosity.

(** One stored step of the running episodes, with the fields the loss
    reads: the word ids of the action ([None] is pushed when the curiosity
    module is off), the shaped reward, the critic's value estimate, the log
    probabilities and entropies of the three command slots, the
    termination flag.  The text fields only feed the networks. *)
Record Transition := {
  action : option (list nat);
  reward : Q;
  state_value : Q;
  action_log_probs : list Q;
  action_entropies : list Q;
  is_final : bool
}.

(** The columns that [get_batch] hands to the loss. *)
Record Batch := {
  action_list : list (option (list nat));
  rewards : list Q;
  state_values : list Q;
  action_log_probs_list : list (list Q);
  action_entropies_list : list (list Q);
  is_finals : list bool
}.

(** Modelled from the spec: [SingleEpisodeStorage] of
    [command_generation_memory], which is not among the sources.  The store
    is the ordered list of the pushed transitions; [push] appends,
    [get_batch] returns the whole sequence as it is, column by column, or
    [None] when the store is empty, and [clear] empties the store. *)
Definition SingleEpisodeStorage := list Transition.

Definition push (memory : SingleEpisodeStorage) (t : Transition)
  : SingleEpisodeStorage := memory ++ [t].

Definition get_batch (memory : SingleEpisodeStorage) : option Batch :=
  match memory with
  | [] => None
  | _ => Some {| action_list := map action memory;
                 rewards := map reward memory;
                 state_values := map state_value memory;
                 action_log_probs_list := map action_log_probs memory;
                 action_entropies_list := map action_entropies memory;
                 is_finals := map is_final memory |}
  end.

Definition clear (memory : SingleEpisodeStorage) : SingleEpisodeStorage := [].

(** The loop [for i, reward in enumerate(rewards[::-1])]: [rev_rewards] is
    what is left of the reversed rewards, [rev_finals] is [is_finals[::-1]]
    (indexed by [i], which raises out of range), [Gt] the running return and
    [returns] the list built by [returns.insert(0, Gt)]. *)
Fixpoint returns_loop (discount_gamma : Q) (rev_rewards : list Q)
    (rev_finals : list bool) (i : nat) (Gt : Q) (returns : list Q)
  : option (list Q) :=
  match rev_rewards with
  | [] => Some returns
  | reward :: rest =>
      match (rev_finals !! i : option bool) with
      | None => None
      | Some final =>
          let Gt := if final then 0 else Gt in
          let Gt := reward + discount_gamma * Gt in
          returns_loop discount_gamma rest rev_finals (S i) Gt (Gt :: returns)
      end
  end.

Definition compute_returns (discount_gamma : Q) (rewards : list Q)
    (is_finals : list bool) : option (list Q) :=
  returns_loop discount_gamma (rev rewards) (rev is_finals) 0 0 [].

(** [finals_mask = 1 - to_pt(np.array(is_finals, dtype=bool))]. *)
Definition finals_mask (is_finals : list bool) : list Q :=
  map (fun final => 1 - float_of_bool final) is_finals.

(** [advantage = returns - state_values * finals_mask]. *)
Definition advantage (returns state_values mask : list Q) : option (list Q) :=
  masked_values ← tensor_op Qmult state_values mask;
  tensor_op Qminus returns masked_values.

(** The agent's settings that the actor-critic loss reads; [icm] holds the
    curiosity module with the two dynamics losses of this batch when
    [self.icm] is set. *)
Record Config := {
  discount_gamma : Q;
  entropy_coeff : Q;
  icm : option (CuriosityModule * Q * Q)
}.

(** The loop [for i, logs in enumerate(action_log_probs)], which stacks the
    three log probabilities and the three entropies of every step. *)
Fixpoint concat_loop (action_log_probs action_entropies : list (list Q))
    (i : nat) : option (list (list Q) * list (list Q)) :=
  match action_log_probs with
  | [] => Some ([], [])
  | logs :: rest =>
      ents ← action_entropies !! i;
      ent_row ← stack_scalars ents;
      log_row ← stack_scalars logs;
      '(concat_probs, concat_entropies) ← concat_loop rest action_entropies (S i);
      Some (log_row :: concat_probs, ent_row :: concat_entropies)
  end.

(** The loop [for i in range(3)] that accumulates [policy_losses], a
    tensor of [dtype=torch.float16]. *)
Fixpoint policy_loop (concat_probs : list (list Q)) (adv : list Q)
    (slots : list nat) (policy_losses : scalar) : option scalar :=
  match slots with
  | [] => Some policy_losses
  | i :: rest =>
      probs ← stack concat_probs;
      col ← column i probs;
      prod ← tensor_op Qmult (map Qopp col) adv;
      policy_loop concat_probs adv rest (iadd_half policy_losses (Qmean prod))
  end.

(** What the [if self.icm] block needs of the stored actions:
    [torch.stack(action_list)] after [action_list = action_list[0:-1]]
    raises on an empty list (an episode of one stored step), on an action
    that is [None] and on actions of different sizes.  The encodings and
    the two dynamics losses come from the networks. *)
Definition action_inputs (action_list : list (option (list nat)))
  : option (list (list nat)) :=
  tensors ← mapM id (take (length action_list - 1) action_list);
  stack tensors.

(** The returns and the advantage of a batch. *)
Definition batch_advantage (cfg : Config) (data : Batch) : option (list Q) :=
  raw_returns ← compute_returns (discount_gamma cfg) (rewards data) (is_finals data);
  returns ← stack_scalars raw_returns;
  values ← stack_scalars (state_values data);
  advantage returns values (finals_mask (is_finals data)).

(** The loss of a batch; [None] when an operation raises. *)
Definition loss_of_batch (cfg : Config) (data : Batch) : option scalar :=
  _ ← match icm cfg with
      | Some _ => action_inputs (action_list data)
      | None => Some []
      end;
  adv ← batch_advantage cfg data;
  '(concat_probs, concat_entropies) ←
     concat_loop (action_log_probs_list data) (action_entropies_list data) 0;
  ents ← stack concat_entropies;
  let entropy_loss := Qmean (concat ents) in
  policy_losses ← policy_loop concat_probs adv (seq 0 3) (to_half 0);
  let value_losses := (1 # 2) * Qmean (map (fun a => a * a) adv) in
  let actor_critic_loss :=
    scalar_sub (scalar_add policy_losses value_losses)
               (entropy_coeff cfg * entropy_loss) in
  Some (with_curiosity_scalar (icm cfg) actor_critic_loss).

Definition get_actor_critic_loss (cfg : Config) (memory : SingleEpisodeStorage)
  : outcome (option scalar) :=
  match get_batch memory with
  | None => Returned None
  | Some data =>
      match loss_of_batch cfg data with
      | Some loss => Returned (Some loss)
      | None => Raised
      end
  end.

End ActorCritic.

(** ** Word masks and greedy command choice ([agent.py],
    [get_local_word_masks] and [choose_maxQ_command]) *)

Module Command.

(** [self.word2id], built in [load_config] by
    [for i, w in enumerate(self.word_vocab): self.word2id[w] = i]. *)
Fixpoint word2id_loop (i : nat) (words : list string) (word2id : gmap string nat)
  : gmap string nat :=
  match words with
  | [] => word2id
  | w :: rest => word2id_loop (S i) rest (<[w := i]> word2id)
  end.

Definition word2id (word_vocab : list string) : gmap string nat :=
  word2id_loop 0 word_vocab ∅.

(** One row of a mask: zeros of the size of the vocabulary, with a one at
    the id of every possible word that the vocabulary knows.  The ids of
    [word2id] are positions of [word_vocab], so the assignment is always
    in range. *)
Definition mask_row (word_vocab : list string) (possible : list string) : list Q :=
  fold_left
    (fun row w =>
       match word2id word_vocab !! w with
       | Some id => <[id := 1]> row
       | None => row
       end)
    possible (replicate (length word_vocab) 0).

(** The rows [0 .. batch_size - 1] of a mask; [possible[i]] raises when the
    list is shorter than the batch. *)
Definition mask_rows (word_vocab : list string) (batch_size : nat)
    (possible : list (list string)) : option (list (list Q)) :=
  if decide (batch_size <= length possible)%nat
  then Some (map (mask_row word_vocab) (take batch_size possible))
  else None.

(** [get_local_word_masks]: the verb, adjective and noun masks, in this
    order; the adjective mask also allows the end-of-sequence word, whose
    id [self.EOS_id] is [self.word2id["</s>"]] (an agent cannot be built
    from a vocabulary without it). *)
Definition get_local_word_masks (word_vocab : list string)
    (possible_words : list (list string) * list (list string) * list (list string))
  : option (list (list (list Q))) :=
  let '(possible_verbs, possible_adjs, possible_nouns) := possible_words in
  let batch_size := length possible_verbs in
  EOS_id ← word2id word_vocab !! "</s>"%string;
  verb_mask ← mask_rows word_vocab batch_size possible_verbs;
  adj_mask ← mask_rows word_vocab batch_size possible_adjs;
  noun_mask ← mask_rows word_vocab batch_size possible_nouns;
  let adj_mask := map (fun row => <[EOS_id := 1]> row) adj_mask in
  Some [verb_mask; adj_mask; noun_mask].

(** The output of the action scorer for the three command slots: a Q-value
    per batch row and word, or, in distributional mode, a distribution over
    the atoms per batch row and word. *)
Inductive ranks : Type :=
| Values (r : list (list (list Q)))
| Distributions (r : list (list (list (list Q)))).

(** [(item * self.support).sum(2)] for one word: the expectation of its
    distribution over the support. *)
Definition expected_value (support dist : list Q) : option Q :=
  prod ← tensor_op Qmult dist support;
  Some (Qsum prod).

(** The scores that the argmax runs on.  The networks are built from the
    same settings as the agent, so the shape of their output follows
    [use_distributional]; the other combinations are outside the agent's
    inputs and are [None] here. *)
Definition scalar_ranks (use_distributional : bool) (support : list Q)
    (action_ranks : ranks) : option (list (list (list Q))) :=
  match use_distributional, action_ranks with
  | true, Distributions r => mapM (mapM (mapM (expected_value support))) r
  | false, Values r => Some r
  | _, _ => None
  end.

(** [torch.min(ar, -1)] of one row; it raises on an empty row. *)
Fixpoint row_min (row : list Q) : option Q :=
  match row with
  | [] => None
  | x :: rest =>
      match row_min rest with
      | None => Some x
      | Some m => Some (Qmin x m)
      end
  end.

(** [torch.argmax(ar, -1)] of one row: the position of the first maximal
    entry; it raises on an empty row. *)
Fixpoint argmax_from (best_i : nat) (best : Q) (i : nat) (row : list Q) : nat :=
  match row with
  | [] => best_i
  | x :: rest =>
      if Qle_bool x best then argmax_from best_i best (S i) rest
      else argmax_from i x (S i) rest
  end.

Definition argmax (row : list Q) : option nat :=
  match row with
  | [] => None
  | x :: rest => Some (argmax_from 0 x 1 rest)
  end.

(** [ar - torch.min(ar, -1, keepdim=True)[0] + 1e-2] on one row, in exact
    arithmetic.  Single precision rounds the two operations: that keeps
    every shifted score positive and never reverses the order of two
    scores, but it can make two close scores equal. *)
Definition shift_row (row : list Q) : option (list Q) :=
  m ← row_min row;
  Some (map (fun x => x - m + (1 # 100)) row).

(** [ar * word_mask[i]] after the assertion that both have one size. *)
Definition apply_mask (ar mask : list (list Q)) : option (list (list Q)) :=
  matrix_op Qmult ar mask.

(** The body of the loop of [choose_maxQ_command] for one slot [i]. *)
Definition choose_slot (ar : list (list Q))
    (word_mask : option (list (list (list Q)))) (i : nat) : option (list nat) :=
  ar ← mapM shift_row ar;
  ar ← match word_mask with
       | None => Some ar
       | Some masks => mask ← masks !! i; apply_mask ar mask
       end;
  mapM argmax ar.

Fixpoint choose_loop (action_ranks : list (list (list Q)))
    (word_mask : option (list (list (list Q)))) (i : nat)
  : option (list (list nat)) :=
  match action_ranks with
  | [] => Some []
  | ar :: rest =>
      idx ← choose_slot ar word_mask i;
      action_indices ← choose_loop rest word_mask (S i);
      Some (idx :: action_indices)
  end.

Definition choose_maxQ_command (use_distributional : bool) (support : list Q)
    (action_ranks : ranks) (word_mask : option (list (list (list Q))))
  : option (list (list nat)) :=
  action_ranks ← scalar_ranks use_distributional support action_ranks;
  choose_loop action_ranks word_mask 0.

End Command.

(** ** Off-policy loss ([agent.py], [get_dqn_loss]) *)

Module DQN.
Import Curiosity Command.

(** The columns of a sampled batch that the loss reads; the state and
    action columns only feed the curiosity networks. *)
Record Batch := {
  obs_list : list string;
  quest_list : list string;
  possible_words_list : list (list (list string));
  chosen_indices : list (list nat);
  rewards : list Q;
  next_obs_list : list string;
  next_possible_words_list : list (list (list string));
  actual_n_list : list nat
}.

(** The agent's settings that the off-policy loss reads. *)
Record Config := {
  discount_gamma : Q;
  replay_batch_size : nat;
  multi_step : nat;
  use_distributional : bool;
  atoms : nat;
  v_min : Q;
  v_max : Q;
  double_dqn : bool;
  icm : option (CuriosityModule * Q * Q);
  word_vocab : list string
}.

(** [torch.linspace(start, end, steps)], in exact arithmetic. *)
Definition linspace (start stop : Q) (steps : nat) : list Q :=
  map (fun i => start + inject_Z (Z.of_nat i)
                        * ((stop - start) / (inject_Z (Z.of_nat steps) - 1)))
      (seq 0 steps).

(** [self.support] and [self.delta_z] of [load_config].  With a single atom
    the division raises when the agent is built; the results below are
    about agents with at least two atoms. *)
Definition support (cfg : Config) : list Q :=
  linspace (v_min cfg) (v_max cfg) (atoms cfg).

Definition delta_z (cfg : Config) : Q :=
  (v_max cfg - v_min cfg) / (inject_Z (Z.of_nat (atoms cfg)) - 1).

(** The two networks that [get_ranks] can score with. *)
Inductive model : Type := online | target.

(** Modelled from the spec: [ez_gather_dim_1] of [generic], which is not
    among the sources.  The loss scores the chosen indices (and, for the
    target, the selected actions) with it:
    [ez_gather_dim_1(w_rank, idx.unsqueeze(-1)).squeeze(1)] is, for every
    batch row, the entry of [w_rank] at the index chosen for that row. *)
Definition ez_gather_dim_1 {A : Type} (w_rank : list (list A)) (idx : list nat)
  : option (list A) :=
  if decide (length w_rank = length idx)
  then mapM (fun '(row, i) => row !! i) (zip w_rank idx)
  else None.

(** [[ez_gather_dim_1(...) for w_rank, idx in zip(action_ranks, indices)]]. *)
Definition gather_slots {A : Type} (action_ranks : list (list (list A)))
    (indices : list (list nat)) : option (list (list A)) :=
  mapM (fun '(w_rank, idx) => ez_gather_dim_1 w_rank idx) (zip action_ranks indices).

(** [torch.mean(torch.stack(word_qvalues, -1), -1)] on a list of tensors of
    size batch: for every batch row the mean over the slots. *)
Definition mean_over_slots (word_qvalues : list (list Q)) : option (list Q) :=
  stacked ← stack word_qvalues;
  row ← head stacked;
  mapM (fun b => col ← column b stacked; Some (Qmean col)) (seq 0 (length row)).

(** The same on a list of tensors of size batch x atoms. *)
Definition mean_over_slots_dist (word_qvalues : list (list (list Q)))
  : option (list (list Q)) :=
  stacked ← stack word_qvalues;
  rows ← head stacked;
  mapM (fun b => col ← column b stacked; mean_over_slots col) (seq 0 (length rows)).

(** A Q-value per batch row, or a distribution over the atoms per row. *)
Inductive qvalue : Type :=
| QScalar (q : list Q)
| QDist (p : list (list Q)).

(** The slot values at the given word indices, averaged over the slots. *)
Definition slot_qvalues (action_ranks : ranks) (indices : list (list nat))
  : option qvalue :=
  match action_ranks with
  | Values r =>
      word_qvalues ← gather_slots r indices;
      q ← mean_over_slots word_qvalues;
      Some (QScalar q)
  | Distributions r =>
      word_qvalues ← gather_slots r indices;
      p ← mean_over_slots_dist word_qvalues;
      Some (QDist p)
  end.

(** [[item[i] for item in possible_words_list]] for the three slots. *)
Definition slot_words (possible_words_list : list (list (list string)))
  : option (list (list string) * list (list string) * list (list string)) :=
  verbs ← column 0 possible_words_list;
  adjs ← column 1 possible_words_list;
  nouns ← column 2 possible_words_list;
  Some (verbs, adjs, nouns).

(** [(np.ones_like(actual_n_list) * self.discount_gamma) ** actual_n_list]. *)
Definition discount (cfg : Config) (actual_n_list : list nat) : list Q :=
  map (fun n => Qpower (1 * discount_gamma cfg) (Z.of_nat n)) actual_n_list.

(** [F.smooth_l1_loss] with its default settings: the mean of the Huber
    distances with threshold 1. *)
Definition smooth_l1 (x y : Q) : Q :=
  let d := Qabs (x - y) in
  if Qlt_le_dec d 1 then (1 # 2) * d * d else d - (1 # 2).

Definition smooth_l1_loss (input tgt : list Q) : option Q :=
  ds ← tensor_op smooth_l1 input tgt;
  Some (Qmean ds).

(** [rewards + next_q_value * discount], the target of the
    non-distributional loss. *)
Definition bootstrap_target (rewards next_q_value discount : list Q)
  : option (list Q) :=
  bootstrapped ← tensor_op Qmult next_q_value discount;
  tensor_op Qplus rewards bootstrapped.

(** [Tensor.clamp(min, max)] on one entry. *)
Definition clamp (lo hi x : Q) : Q := Qmin (Qmax x lo) hi.

(** Conversion of a float to [int64]: truncation towards zero. *)
Definition to_long (q : Q) : Z := if Qle_bool 0 q then Qfloor q else Qceiling q.

(** The lower and upper bin of one entry [b], after the two masked updates
    [l[(u > 0) * (l == u)] -= 1] and [u[(l < (atoms - 1)) * (l == u)] += 1]. *)
Definition bins (atoms : nat) (b : Q) : Z * Z :=
  let l := Qfloor b in
  let u := Qceiling b in
  let l := if ((0 <? u)%Z && (l =? u)%Z)%bool then (l - 1)%Z else l in
  let u := if ((l <? Z.of_nat atoms - 1)%Z && (l =? u)%Z)%bool then (u + 1)%Z else u in
  (l, u).

(** [Tensor.index_add_(0, index, source)] on a flat tensor: adds
    [source[k]] at position [index[k]], in order; an index outside the
    tensor or a size mismatch raises. *)
Fixpoint index_add (m : list Q) (index : list Z) (source : list Q)
  : option (list Q) :=
  match index, source with
  | [], [] => Some m
  | k :: index', v :: source' =>
      if ((0 <=? k)%Z && (k <? Z.of_nat (length m))%Z)%bool then
        x ← m !! Z.to_nat k;
        index_add (<[Z.to_nat k := x + v]> m) index' source'
      else None
  | _, _ => None
  end.

(** The rows [offset] adds to the bins: [linspace(0, (batch_size - 1) *
    atoms, batch_size)], expanded over the atoms and converted to [long]. *)
Definition offset (batch_size atoms : nat) : list Z :=
  map to_long
    (linspace 0 (inject_Z ((Z.of_nat batch_size - 1) * Z.of_nat atoms)) batch_size).

(** [(bin + offset).view(-1)]. *)
Definition flat_index (bin : list (list Z)) (offset : list Z) : option (list Z) :=
  if decide (length bin = length offset)
  then Some (concat (zip_with (fun row o => map (fun k => (k + o)%Z) row) bin offset))
  else None.

(** [m.view(batch_size, atoms)] read back from the flat tensor. *)
Definition rows_of (batch_size atoms : nat) (m : list Q) : list (list Q) :=
  map (fun i => take atoms (drop (i * atoms) m)) (seq 0 batch_size).

(** The projected target distribution [m] of the distributional loss. *)
Definition projected_distribution (cfg : Config) (batch_size : nat)
    (rewards discount : list Q) (next_q_value : list (list Q))
  : option (list (list Q)) :=
  Tz ← (if decide (length rewards = length discount)
        then Some (zip_with
                     (fun r d => map (fun z => clamp (v_min cfg) (v_max cfg) (r + d * z))
                                     (support cfg))
                     rewards discount)
        else None);
  let b := map (map (fun t => (t - v_min cfg) / delta_z cfg)) Tz in
  let l := map (map (fun x => fst (bins (atoms cfg) x))) b in
  let u := map (map (fun x => snd (bins (atoms cfg) x))) b in
  let m := replicate (batch_size * atoms cfg) 0 in
  let off := offset batch_size (atoms cfg) in
  u_b ← matrix_op Qminus (map (map inject_Z) u) b;
  b_l ← matrix_op Qminus b (map (map inject_Z) l);
  l_index ← flat_index l off;
  l_source ← matrix_op Qmult next_q_value u_b;
  m ← index_add m l_index (concat l_source);
  u_index ← flat_index u off;
  u_source ← matrix_op Qmult next_q_value b_l;
  m ← index_add m u_index (concat u_source);
  Some (rows_of batch_size (atoms cfg) m).

Section Networks.

(** The action scorer behind [get_ranks], for the online and the target
    network, on the observation and question strings and the word masks
    (the tokenizer and the noise of the networks are part of it). *)
Variable get_ranks :
  model -> list string -> list string -> list (list (list Q)) -> ranks.

(** [torch.log] on one entry. *)
Variable ln : Q -> Q.

(** [next_q_value]: the target network's values at the next actions, which
    the online network chooses under double DQN and the target network
    otherwise, averaged over the slots. *)
Definition next_q_value (cfg : Config) (data : Batch)
    (next_local_word_masks : list (list (list Q))) : option qvalue :=
  if double_dqn cfg then
    let next_action_ranks :=
      get_ranks online (next_obs_list data) (quest_list data) next_local_word_masks in
    next_word_indices ←
      choose_maxQ_command (use_distributional cfg) (support cfg)
        next_action_ranks (Some next_local_word_masks);
    let next_action_ranks :=
      get_ranks target (next_obs_list data) (quest_list data) next_local_word_masks in
    slot_qvalues next_action_ranks next_word_indices
  else
    let next_action_ranks :=
      get_ranks target (next_obs_list data) (quest_list data) next_local_word_masks in
    next_word_indices ←
      choose_maxQ_command (use_distributional cfg) (support cfg)
        next_action_ranks (Some next_local_word_masks);
    slot_qvalues next_action_ranks next_word_indices.

(** The current and the next Q-values of a batch, as [get_dqn_loss]
    computes them before it branches on [use_distributional]. *)
Definition q_values (cfg : Config) (data : Batch) : option (qvalue * qvalue) :=
  possible_words ← slot_words (possible_words_list data);
  next_possible_words ← slot_words (next_possible_words_list data);
  local_word_masks ← get_local_word_masks (word_vocab cfg) possible_words;
  next_local_word_masks ← get_local_word_masks (word_vocab cfg) next_possible_words;
  let action_ranks :=
    get_ranks online (obs_list data) (quest_list data) local_word_masks in
  q_value ← slot_qvalues action_ranks (chosen_indices data);
  next_q ← next_q_value cfg data next_local_word_masks;
  Some (q_value, next_q).

(** The loss of a sampled batch; [None] when an operation raises. *)
Definition loss_of_batch (cfg : Config) (data : Batch) : option Q :=
  let batch_size := length (actual_n_list data) in
  '(q_value, next_q) ← q_values cfg data;
  let discount := discount cfg (actual_n_list data) in
  if negb (use_distributional cfg) then
    match q_value, next_q with
    | QScalar q, QScalar nq =>
        tgt ← bootstrap_target (rewards data) nq discount;
        dqn_loss ← smooth_l1_loss q tgt;
        Some (with_curiosity (icm cfg) dqn_loss)
    | _, _ => None
    end
  else
    match q_value, next_q with
    | QDist q, QDist nq =>
        let log_q_value := map (map ln) q in
        m ← projected_distribution cfg batch_size (rewards data) discount nq;
        prod ← matrix_op Qmult m log_q_value;
        let dqn_loss := Qmean (map (fun row => - Qsum row) prod) in
        Some (with_curiosity (icm cfg) dqn_loss)
    | _, _ => None
    end.

(** [PrioritizedReplayMemory] of [command_generation_memory] is not among
    the sources: the memory, its length and the batch that its random
    sampling returns are parameters. *)
Variable Memory : Type.
Variable memory_len : Memory -> nat.
Variable get_batch : Memory -> nat -> nat -> option Batch.

(** [get_dqn_loss]: Python's [None] without enough data, otherwise the loss
    of the sampled batch, a single-precision tensor. *)
Definition get_dqn_loss (cfg : Config) (memory : Memory) : outcome (option scalar) :=
  if (memory_len memory <? replay_batch_size cfg)%nat then Returned None
  else
    match get_batch memory (replay_batch_size cfg) (multi_step cfg) with
    | None => Returned None
    | Some data =>
        match loss_of_batch cfg data with
        | Some loss => Returned (Some (Finite loss))
        | None => Raised
        end
    end.

End Networks.

End DQN.

(** ** Trajectory assembly ([train.py], the step loop and the pushes of
    [train], with the bookkeeping of [agent.py]'s [init] and [act]) *)

Module Train.

(** The fields of a pushed transition that the training loop computes; the
    observation, question, possible-word and index fields are copied from
    the step's replay information unchanged.  [is_prior] is only passed to
    the prioritized memory. *)
Record Transition := {
  is_prior : bool;
  reward : Q;
  is_final : bool
}.

(** The agent's bookkeeping between steps: the commands of the last step,
    [self.prev_actions[-1]], and [self.prev_step_is_still_interacting]. *)
Record AgentState := {
  prev_actions_last : list string;
  prev_step_is_still_interacting : list Q
}.

(** [Agent.init]. *)
Definition init (batch_size : nat) : AgentState :=
  {| prev_actions_last := replicate batch_size EmptyString;
     prev_step_is_still_interacting := replicate batch_size 1 |}.

(** The loop [for i in range(batch_size)] of [act] that clears the flag of
    the games whose previous command was "wait", from index [i] on. *)
Fixpoint wait_loop (prev_actions : list string) (interacting : list Q)
    (i remaining : nat) : option (list Q) :=
  match remaining with
  | O => Some interacting
  | S remaining' =>
      a ← prev_actions !! i;
      interacting ←
        (if String.eqb a "wait"
         then (if decide (i < length interacting)%nat
               then Some (<[i := 0]> interacting) else None)
         else Some interacting);
      wait_loop prev_actions interacting (S i) remaining'
  end.

(** What [act] leaves for the replay memory when the policy has chosen
    [chosen_strings]: the interaction mask of the step, and the new
    bookkeeping. *)
Definition act (batch_size : nat) (st : AgentState) (chosen_strings : list string)
  : option (list Q * AgentState) :=
  interacting ←
    wait_loop (prev_actions_last st) (prev_step_is_still_interacting st) 0 batch_size;
  Some (interacting,
        {| prev_actions_last := chosen_strings;
           prev_step_is_still_interacting := interacting |}).

(** The settings that the assembly reads. *)
Record Settings := {
  batch_size : nat;
  max_nb_steps_per_episode : nat;
  revisit_counting_lambda : Q;
  valid_command_bonus_lambda : Q;
  icm : bool;
  use_intrinsic_reward : bool
}.

(** What the step loop has collected when it ends: the interaction masks
    cached per step ([item[-1]] of [transition_cache]), as [to_np] reads
    them after the loop, and the counting and valid-command rewards per
    step. *)
Record Rollout := {
  masks : list (list Q);
  counting_rewards : list (list Q);
  valid_command_rewards : list (list Q)
}.

(** The caches while the loop runs.  A cached mask is the tensor that
    [to_pt] made from the agent's flag array: [Some] of its entries when
    the tensor has a memory of its own (also the tensor of [zeros_like]),
    [None] when it lives on the memory of the array and so reads, after the
    loop, what the array holds then. *)
Record StepCache := {
  cached : list (option (list Q));
  c_rewards : list (list Q);
  vc_rewards : list (list Q)
}.

Section Episode.

(** Whether the tensor that [to_pt] returns shares the memory of the numpy
    array it is given.  [to_pt] is imported from [generic]; both
    behaviours are covered. *)
Variable shares_memory : bool.

(** The commands the policy issues, and the counting and valid-command
    rewards that the counter and the simulator give, at every step. *)
Variable commands_at : nat -> list string.
Variable c_rewards_at : nat -> list Q.
Variable vc_rewards_at : nat -> list Q.

(** The loop [for step_no in range(max_nb_steps_per_episode)], from step
    [step_no] with [remaining] steps of the range left. *)
Fixpoint step_loop (cfg : Settings) (st : AgentState) (step_no remaining : nat)
    (acc : StepCache) : option (StepCache * AgentState) :=
  match remaining with
  | O => Some (acc, st)
  | S remaining' =>
      '(mask, st') ← act (batch_size cfg) st (commands_at step_no);
      let last := Nat.eqb step_no (max_nb_steps_per_episode cfg - 1) in
      let mask := if last then map (fun _ => 0) mask else mask in
      let tensor := if (last || negb shares_memory)%bool then Some mask else None in
      let acc :=
        {| cached := cached acc ++ [tensor];
           c_rewards := c_rewards acc ++ [c_rewards_at step_no];
           vc_rewards := vc_rewards acc ++ [vc_rewards_at step_no] |} in
      if (last || ((0 <? step_no)%nat && Qeq_bool (Qsum mask) 0))%bool
      then Some (acc, st')
      else step_loop cfg st' (S step_no) remaining' acc
  end.

(** [to_np] of a cached mask, after the loop. *)
Definition read_mask (st : AgentState) (tensor : option (list Q)) : list Q :=
  default (prev_step_is_still_interacting st) tensor.

Definition rollout (cfg : Settings) : option Rollout :=
  '(acc, st) ← step_loop cfg (init (batch_size cfg)) 0 (max_nb_steps_per_episode cfg)
                 {| cached := []; c_rewards := []; vc_rewards := [] |};
  Some {| masks := map (read_mask st) (cached acc);
          counting_rewards := c_rewards acc;
          valid_command_rewards := vc_rewards acc |}.

End Episode.

(** [command_rewards_np]: the sufficient-information reward plus the
    weighted counting and valid-command bonuses of the running games. *)
Definition command_rewards_np (cfg : Settings)
    (sufficient_info_reward_np : list (list Q)) (r : Rollout)
  : option (list (list Q)) :=
  game_running_mask ← stack (masks r);
  mask_T ← transpose game_running_mask;
  counting_rewards_np ← transpose (counting_rewards r);
  valid_command_rewards_np ← transpose (valid_command_rewards r);
  counting ← matrix_op Qmult counting_rewards_np mask_T;
  let counting := map (map (fun x => x * revisit_counting_lambda cfg)) counting in
  valid ← matrix_op Qmult valid_command_rewards_np mask_T;
  let valid := map (map (fun x => x * valid_command_bonus_lambda cfg)) valid in
  shaped ← matrix_op Qplus sufficient_info_reward_np counting;
  matrix_op Qplus shaped valid.

(** [command_rewards]: the same, plus the masked intrinsic rewards when the
    curiosity module and its intrinsic reward are both enabled. *)
Definition command_rewards (cfg : Settings)
    (sufficient_info_reward_np intrinsic_rewards : list (list Q)) (r : Rollout)
  : option (list (list Q)) :=
  rewards_np ← command_rewards_np cfg sufficient_info_reward_np r;
  if (icm cfg && use_intrinsic_reward cfg)%bool then
    game_running_mask ← stack (masks r);
    mask_T ← transpose game_running_mask;
    stacked ← stack intrinsic_rewards;
    intrinsic ← matrix_op Qmult stacked mask_T;
    matrix_op Qplus rewards_np intrinsic
  else Some rewards_np.

(** The loop [for i in range(command_rewards_np.shape[1])] that appends the
    rewards of step [i] to the cached step [i]: the result pairs the mask
    with the rewards of every cached step. *)
Definition attach_rewards (masks : list (list Q)) (rewards_np rewards : list (list Q))
  : option (list (list Q * list Q)) :=
  row ← head rewards_np;
  cached ← mapM (fun i => mask ← masks !! i;
                          batch_rewards ← column i rewards;
                          Some (mask, batch_rewards))
                (seq 0 (length row));
  if decide (length row = length masks) then Some cached else None.

(** The loop [for i in range(len(transition_cache))] for game [b]: the
    transitions pushed for this game, in order. *)
Fixpoint push_steps (is_prior : bool) (b : nat)
    (transition_cache : list (list Q * list Q)) : option (list Transition) :=
  match transition_cache with
  | [] => Some []
  | (mask, batch_rewards) :: rest =>
      m ← mask !! b;
      let is_final := Qeq_bool m 0 in
      r ← batch_rewards !! b;
      let t := {| is_prior := is_prior; reward := r; is_final := is_final |} in
      if Qeq_bool m 0 then Some [t]
      else pushed ← push_steps is_prior b rest; Some (t :: pushed)
  end.

(** The pushes of game [b]: [is_prior] tells whether the game earned any
    command reward. *)
Definition push_game (rewards_np : list (list Q))
    (transition_cache : list (list Q * list Q)) (b : nat)
  : option (list Transition) :=
  row ← rewards_np !! b;
  let is_prior := negb (Qle_bool (Qsum row) 0) in
  push_steps is_prior b transition_cache.

(** The transitions that an episode pushes, game after game. *)
Definition pushes (cfg : Settings)
    (sufficient_info_reward_np intrinsic_rewards : list (list Q)) (r : Rollout)
  : option (list (list Transition)) :=
  rewards_np ← command_rewards_np cfg sufficient_info_reward_np r;
  rewards ← command_rewards cfg sufficient_info_reward_np intrinsic_rewards r;
  transition_cache ← attach_rewards (masks r) rewards_np rewards;
  mapM (push_game rewards_np transition_cache) (seq 0 (batch_size cfg)).

End Train.

(** ** The update step ([agent.py], [update_interaction]) *)

Module Agent.

(** The work the optimizer has done so far. *)
Record Optimizer := {
  backward_passes : nat;
  optimizer_steps : nat
}.

Section Update.

Variable get_ranks :
  DQN.model -> list string -> list string -> list (list (list Q)) -> Command.ranks.
Variable ln : Q -> Q.
Variable Memory : Type.
Variable memory_len : Memory -> nat.
Variable get_batch : Memory -> nat -> nat -> option DQN.Batch.

(** The agent is built in one of two modes, each with its own memory. *)
Inductive agent : Type :=
| A2C (cfg : ActorCritic.Config) (memory : ActorCritic.SingleEpisodeStorage)
| Rainbow (cfg : DQN.Config) (memory : Memory).

(** [update_interaction]: what it returns, the agent and the optimizer
    after it.  A loss that raises leaves both as they were. *)
Definition update_interaction (ag : agent) (opt : Optimizer)
  : outcome (option scalar) * agent * Optimizer :=
  let '(interaction_loss, ag') :=
    match ag with
    | A2C cfg memory =>
        (ActorCritic.get_actor_critic_loss cfg memory,
         A2C cfg (ActorCritic.clear memory))
    | Rainbow cfg memory =>
        (DQN.get_dqn_loss get_ranks ln Memory memory_len get_batch cfg memory, ag)
    end in
  match interaction_loss with
  | Raised => (Raised, ag, opt)
  | Returned None => (Returned None, ag', opt)
  | Returned (Some loss) =>
      (Returned (Some loss), ag',
       {| backward_passes := S (backward_passes opt);
          optimizer_steps := S (optimizer_steps opt) |})
  end.

End Update.

End Agent.

(** ** Commands as strings ([agent.py], [pad_commands],
    [word_ids_to_commands] and [get_chosen_strings]) *)

Module Words.

(** The characters below code point 256 that [str.isspace] accepts: tab to
    carriage return, the four separators, the space, next-line and the
    no-break space.  A character of a string is read as a code point. *)
Definition whitespace : list Ascii.ascii :=
  map Ascii.ascii_of_nat [9; 10; 11; 12; 13; 28; 29; 30; 31; 32; 133; 160]%nat.

Definition isspace (c : Ascii.ascii) : bool := existsb (Ascii.eqb c) whitespace.

(** [s.split()]: the maximal runs of characters that are not whitespace, in
    order; [tok] is the run read so far. *)
Fixpoint split_from (tok s : string) : list string :=
  match s with
  | EmptyString =>
      match tok with
      | EmptyString => []
      | _ => [tok]
      end
  | String c s' =>
      if isspace c then
        match tok with
        | EmptyString => split_from EmptyString s'
        | _ => tok :: split_from EmptyString s'
        end
      else split_from (tok +:+ String c EmptyString) s'
  end.

Definition str_split (s : string) : list string := split_from EmptyString s.

(** [sep.join(words)]. *)
Fixpoint str_join (sep : string) (words : list string) : string :=
  match words with
  | [] => EmptyString
  | [w] => w
  | w :: rest => w +:+ sep +:+ str_join sep rest
  end.

(** The body of the loop of [pad_commands] for one command. *)
Definition pad_command (command : string) : string :=
  let length := length (str_split command) in
  if (length <? 2)%nat then command +:+ " </s> <pad>"
  else if (length <? 3)%nat then command +:+ " </s>"
  else command.

Definition pad_commands (commands : list string) : list string :=
  map pad_command commands.

Definition single_word_verbs : list string := ["inventory"; "look"; "wait"].
Definition two_word_verbs : list string := ["go"].

(** [word_ids_to_commands].  The three ids come from an argmax or from
    [word2id], so they are not negative; a word id outside the vocabulary
    raises.  [self.EOS_id] is [self.word2id["</s>"]], as in
    [Command.get_local_word_masks]. *)
Definition word_ids_to_commands (word_vocab : list string) (verb adj noun : nat)
  : option string :=
  EOS_id ← Command.word2id word_vocab !! "</s>"%string;
  v ← word_vocab !! verb;
  if bool_decide (v ∈ single_word_verbs) then Some v
  else if bool_decide (v ∈ two_word_verbs) then
    n ← word_vocab !! noun; Some (str_join " " [v; n])
  else if bool_decide (adj = EOS_id) then
    n ← word_vocab !! noun; Some (str_join " " [v; n])
  else
    a ← word_vocab !! adj; n ← word_vocab !! noun; Some (str_join " " [v; a; n]).

(** [get_chosen_strings]: one command per entry of the verb indices. *)
Definition get_chosen_strings (word_vocab : list string)
    (chosen_indices : list (list nat)) : option (list string) :=
  verbs ← chosen_indices !! 0%nat;
  mapM (fun i => verb ← verbs !! i;
                 adjs ← chosen_indices !! 1%nat;
                 adj ← adjs !! i;
                 nouns ← chosen_indices !! 2%nat;
                 noun ← nouns !! i;
                 word_ids_to_commands word_vocab verb adj noun)
       (seq 0 (length verbs)).

End Words.

(** ** The answer to the question ([agent.py], the attention sum of
    [answer_question], [point_maxq_position] and
    [answer_question_act_greedy]) *)

Module Answer.

(** One row of [Tensor.scatter_add_(1, index, src)]: [src[j]] is added at
    position [index[j]] of the row, for every [j] of the index row.  The
    source row may be longer than the index row, not shorter; an index
    outside the row raises. *)
Fixpoint scatter_add_row (row : list Q) (index : list nat) (src : list Q)
  : option (list Q) :=
  match index with
  | [] => Some row
  | i :: index' =>
      match src with
      | [] => None
      | x :: src' =>
          v ← row !! i;
          scatter_add_row (<[i := v + x]> row) index' src'
      end
  end.

(** The attention sum of [answer_question]: the zero tensor of size batch x
    vocabulary, with the attention [pred] of every observed position added
    at the word id of that position.  [observation] holds the padded word
    ids, one row per game, and [pred] is what the answerer network returns
    for them. *)
Definition vocab_distribution (vocab_size : nat) (observation : list (list nat))
    (pred : list (list Q)) : option (list (list Q)) :=
  if decide (length observation <= length pred)%nat
  then mapM (fun '(index, src) =>
               scatter_add_row (replicate vocab_size 0) index src)
            (zip observation pred)
  else None.

(** [torch.ne(vocab_distribution, 0).float()]. *)
Definition vocab_mask (vocab_distribution : list (list Q)) : list (list Q) :=
  map (map (fun x => float_of_bool (negb (Qeq_bool x 0)))) vocab_distribution.

(** [point_maxq_position], on a distribution and a mask of one shape. *)
Definition point_maxq_position (vocab_distribution mask : list (list Q))
  : option (list nat) :=
  vocab_distribution ← mapM Command.shift_row vocab_distribution;
  vocab_distribution ← matrix_op Qmult vocab_distribution mask;
  mapM Command.argmax vocab_distribution.

(** [answer_question_act_greedy], after the answerer network. *)
Definition answer_question_act_greedy (vocab_size : nat)
    (observation : list (list nat)) (pred : list (list Q)) : option (list nat) :=
  dist ← vocab_distribution vocab_size observation pred;
  point_maxq_position dist (vocab_mask dist).

End Answer.

(** ** The end of an episode ([agent.py], [finish_of_episode], and the
    episode counter of [train.py]) *)

Module Schedule.

(** The settings that [finish_of_episode] reads. *)
Record Settings := {
  target_net_update_frequency : Z;
  learn_start_from_this_episode : Z;
  epsilon_anneal_episodes : Z;
  epsilon_anneal_from : Q;
  epsilon_anneal_to : Q;
  revisit_counting_lambda_anneal_episodes : Z;
  revisit_counting_lambda_anneal_from : Q;
  revisit_counting_lambda_anneal_to : Q;
  a2c : bool
}.

(** What it changes: the two annealed weights, and the target network, of
    which the number of updates is kept. *)
Record State := {
  epsilon : Q;
  revisit_counting_lambda : Q;
  target_net_updates : nat
}.

(** [a % b] on integers; it raises on a zero divisor. *)
Definition py_mod (a b : Z) : option Z :=
  if (b =? 0)%Z then None else Some (a mod b)%Z.

(** [x / float(n)]; it raises on a zero divisor. *)
Definition true_div (x : Q) (n : Z) : option Q :=
  if (n =? 0)%Z then None else Some (x / inject_Z n).

Definition update_target_net (st : State) : State :=
  {| epsilon := epsilon st;
     revisit_counting_lambda := revisit_counting_lambda st;
     target_net_updates := S (target_net_updates st) |}.

(** [finish_of_episode]: the state after it, [None] when it raises.  The
    decremented counting weight is overwritten by [max(self.epsilon, 0.0)]
    in the next statement. *)
Definition finish_of_episode (cfg : Settings) (st : State) (episode_no batch_size : Z)
  : option State :=
  after ← py_mod (episode_no + batch_size) (target_net_update_frequency cfg);
  before ← py_mod episode_no (target_net_update_frequency cfg);
  let st := if ((after <=? before)%Z && negb (a2c cfg))%bool
            then update_target_net st else st in
  if (episode_no <? learn_start_from_this_episode cfg)%Z then Some st
  else
    st ← (if (episode_no
              <? epsilon_anneal_episodes cfg + learn_start_from_this_episode cfg)%Z
          then
            step ← true_div (epsilon_anneal_from cfg - epsilon_anneal_to cfg)
                            (epsilon_anneal_episodes cfg);
            let epsilon := epsilon st - step in
            Some {| epsilon := Qmax epsilon 0;
                    revisit_counting_lambda := revisit_counting_lambda st;
                    target_net_updates := target_net_updates st |}
          else Some st);
    if (episode_no
        <? revisit_counting_lambda_anneal_episodes cfg
           + learn_start_from_this_episode cfg)%Z
    then
      step ← true_div (revisit_counting_lambda_anneal_from cfg
                       - revisit_counting_lambda_anneal_to cfg)
                      (revisit_counting_lambda_anneal_episodes cfg);
      let revisit_counting_lambda := revisit_counting_lambda st - step in
      Some {| epsilon := epsilon st;
              revisit_counting_lambda := Qmax (epsilon st) 0;
              target_net_updates := target_net_updates st |}
    else Some st.

(** The episodes of [train]: [finish_of_episode] at the end of each, then
    [episode_no += batch_size]; [n] episodes from [episode_no] on. *)
Fixpoint finish_episodes (cfg : Settings) (st : State) (episode_no batch_size : Z)
    (n : nat) : option State :=
  match n with
  | O => Some st
  | S n' =>
      st ← finish_of_episode cfg st episode_no batch_size;
      finish_episodes cfg st (episode_no + batch_size) batch_size n'
  end.

(** The two tests of [train] that end an episode before evaluation, saving
    and the accuracy log: [episode_no] is the counter after the episode. *)
Definition skips_report (learn_start_from_this_episode save_frequency : Z)
    (episode_no batch_size : Z) : option bool :=
  if (episode_no <? learn_start_from_this_episode)%Z then Some true
  else if (episode_no =? 0)%Z then Some true
  else
    now ← py_mod episode_no save_frequency;
    before ← py_mod (episode_no - batch_size) save_frequency;
    Some (before <? now)%Z.

End Schedule.

(** ** The finishing mask ([train.py], [game_finishing_mask] of [train]) *)

Module Loop.

(** The running masks of the steps with a row of zeros stacked below, each
    row minus the next one. *)
Definition game_finishing_mask (batch_size : nat) (masks_np : list (list Q))
  : option (list (list Q)) :=
  stacked ← stack (masks_np ++ [replicate batch_size 0]);
  matrix_op Qminus (take (length stacked - 1) stacked) (drop 1 stacked).

End Loop.

(** ** Reading the training logs ([check_max.py], [check_max] and
    [extract_details]) *)

Module CheckMax.

(** One line of a training log: the two accuracies that [check_max] reads
    under the keys "qa" and "sufficient info". *)
Record LogEntry := {
  qa : Q;
  sufficient_info : Q
}.

(** The weighted score [val] of a line. *)
Definition val (qa_weight : Q) (obj : LogEntry) : Q :=
  qa_weight * qa obj + (1 - qa_weight) * sufficient_info obj.

(** The loop of [check_max] over the lines that are left, from the current
    [max] and [max_obj]. *)
Fixpoint check_loop (qa_weight : Q) (max : Q) (max_obj : option LogEntry)
    (reader : list LogEntry) : Q * option LogEntry :=
  match reader with
  | [] => (max, max_obj)
  | obj :: rest =>
      if negb (Qle_bool (val qa_weight obj) max)
      then check_loop qa_weight (val qa_weight obj) (Some obj) rest
      else check_loop qa_weight max max_obj rest
  end.

(** [check_max]: the two accuracies it prints; subscripting [max_obj] when
    it is still [None] raises. *)
Definition check_max (reader : list LogEntry) (qa_weight : Q) : option (Q * Q) :=
  max_obj ← (check_loop qa_weight 0 None reader).2;
  Some (qa max_obj, sufficient_info max_obj).

(** [s.startswith(sub)]. *)
Fixpoint starts_with (sub s : string) : bool :=
  match sub, s with
  | EmptyString, _ => true
  | String a sub', String b s' => Ascii.eqb a b && starts_with sub' s'
  | String _ _, EmptyString => false
  end.

(** [s.index(sub)]: the first position at which [sub] occurs in [s]; it
    raises when there is none. *)
Fixpoint str_index (sub s : string) : option nat :=
  if starts_with sub s then Some 0%nat
  else match s with
       | EmptyString => None
       | String _ s' => S <$> str_index sub s'
       end.

(** [s[:n]], [s[n:]] and [s[n]] for a bound that is not negative. *)
Fixpoint str_take (n : nat) (s : string) : string :=
  match n, s with
  | S n', String c s' => String c (str_take n' s')
  | _, _ => EmptyString
  end.

Fixpoint str_drop (n : nat) (s : string) : string :=
  match n, s with
  | S n', String _ s' => str_drop n' s'
  | _, _ => s
  end.

Fixpoint str_get (n : nat) (s : string) : option Ascii.ascii :=
  match n, s with
  | O, String c _ => Some c
  | S n', String _ s' => str_get n' s'
  | _, EmptyString => None
  end.

(** [extract_details]: the four fields it prints, [None] when it raises.
    [filename[i - 1]] reads the last character when [i] is 0; [bool] of a
    string tells whether it is not empty; the bare [except] turns a file
    name without "size" into "unlimited". *)
Definition extract_details (filename : string)
  : option (string * string * string * string) :=
  i ← str_index "_" filename;
  let model := str_take i filename in
  let filename := str_drop (i + 1) filename in
  i ← str_index "_" filename;
  let question := str_take i filename in
  let filename := str_drop (i + 1) filename in
  i ← str_index "_" filename;
  let position := match i with
                  | O => (String.length filename - 1)%nat
                  | S i' => i'
                  end in
  character ← str_get position filename;
  let rand := negb (String.eqb (String character EmptyString) EmptyString) in
  let num_games :=
    match str_index "size" filename with
    | Some i =>
        str_take (String.length filename - 5 - (i + 4)) (str_drop (i + 4) filename)
    | None => "unlimited"%string
    end in
  Some (model, question, (if rand then "Random" else "Fixed")%string, num_games).

End CheckMax.

(** ** The offline data set ([decision_transformer/trainer_qait.py],
    [JsonDataset.pad_input]) *)

Module Dataset.

(** A bound of a Python slice on a list of [len] entries: a negative bound
    counts from the end, and every bound is cut to the list. *)
Definition slice_bound (len : nat) (i : Z) : nat :=
  if (i <? 0)%Z then Z.to_nat (Z.max 0 (Z.of_nat len + i))
  else Nat.min (Z.to_nat i) len.

(** [del l[start:stop]]. *)
Definition del_slice {A : Type} (start stop : Z) (l : list A) : list A :=
  let first := slice_bound (length l) start in
  let last := slice_bound (length l) stop in
  if (first <? last)%nat then take first l ++ drop last l else l.

(** [pad_input]: the sentence of word codes it returns. *)
Definition pad_input (sentence_length : Z) (sentence : list Z) : list Z :=
  let diff := (Z.of_nat (length sentence) - sentence_length)%Z in
  if (0 <? diff)%Z then del_slice (- (diff + 1)) (-1) sentence
  else if (diff <? 0)%Z then sentence ++ replicate (Z.to_nat (Z.abs diff)) 0%Z
  else sentence.

End Dataset.

(** ** The statements of the specification, in its own words *)

Module Spec.

(** The Monte-Carlo recursion [G_t = r_t + gamma * G_(t+1)], with [G] reset
    to 0 at a terminal flag before the reward of that step is added. *)
Fixpoint returns (gamma : Q) (rewards : list Q) (is_finals : list bool) : list Q :=
  match rewards, is_finals with
  | r :: rewards', final :: is_finals' =>
      let rest := returns gamma rewards' is_finals' in
      (r + gamma * (if final then 0 else hd 0 rest)) :: rest
  | _, _ => []
  end.

(** The bootstrap target as the specification words it, with a factor that
    is 0 on a terminal transition and 1 otherwise. *)
Definition masked_target (gamma reward : Q) (actual_n : nat) (next_Q : Q)
    (terminal : bool) : Q :=
  reward + Qpower gamma (Z.of_nat actual_n) * next_Q * (if terminal then 0 else 1).

(** The bootstrap target as the specification words it, for the whole
    batch: whatever the termination flags of the sampled transitions are,
    the target of every batch element is the masked one. *)
Definition terminal_masked_targets : Prop :=
  forall (cfg : DQN.Config) (rewards next_q : list Q) (actual_n_list : list nat)
         (terminals : list bool) (tgt : list Q),
    DQN.bootstrap_target rewards next_q (DQN.discount cfg actual_n_list) = Some tgt ->
    forall (i : nat) (r v t : Q) (n : nat) (terminal : bool),
      rewards !! i = Some r ->
      next_q !! i = Some v ->
      actual_n_list !! i = Some n ->
      terminals !! i = Some terminal ->
      tgt !! i = Some t ->
      t == masked_target (DQN.discount_gamma cfg) r n v terminal.

(** [q] averages, for every batch row, the values that the slots of [r]
    hold at the word indices [idx] chosen for that row. *)
Definition slot_average (r : list (list (list Q))) (idx : list (list nat))
    (q : list Q) : Prop :=
  forall (b : nat) (v : Q),
    q !! b = Some v ->
    exists col,
      v = Qmean col
      /\ length col = Nat.min (length r) (length idx)
      /\ forall (s : nat) (x : Q),
           col !! s = Some x ->
           exists w_rank ix row k,
             r !! s = Some w_rank /\ idx !! s = Some ix
             /\ w_rank !! b = Some row /\ ix !! b = Some k
             /\ row !! k = Some x.

(** The policy loss of one command slot: the mean over the steps of minus
    the slot's log probability times the advantage. *)
Definition slot_policy_loss (slot : nat) (log_probs : list (list Q)) (adv : list Q) : Q :=
  Qmean (zip_with (fun row a => - nth slot row 0 * a) log_probs adv).

(** Policy loss + value loss - entropy_coeff * entropy. *)
Definition actor_critic_loss (entropy_coeff : Q) (log_probs entropies : list (list Q))
    (adv : list Q) : Q :=
  (slot_policy_loss 0 log_probs adv + slot_policy_loss 1 log_probs adv
   + slot_policy_loss 2 log_probs adv)
  + (1 # 2) * Qmean (map (fun a => a ^ 2) adv)
  - entropy_coeff * Qmean (concat entropies).


(** The counting bonus as the specification words it: whatever [update]
    is, the reward of game [i] is 1.0 exactly when its key has not been
    visited before in the episode. *)
Definition first_visit_reward : Prop :=
  forall (n : nat) (calls : list (list string * bool)) (obs : list string)
         (update : bool) (i : nat) (key : string) dict out dict' rs,
    Counter.run (Counter.reset_binarized_counter n) calls = Some (dict, out) ->
    Counter.get_binarized_count dict obs update = Some (dict', rs) ->
    obs !! i = Some key ->
    rs !! i = Some (float_of_bool (Nat.eqb (Counter.visits i key calls) 0)).

(** A mask entry is 0 or 1. *)
Definition binary (v : Q) : Prop := v == 0 \/ v == 1.


(** The position of the clamped value [reward + discount * z] on the
    support, in units of [delta_z]: [b = (Tz - v_min) / delta_z]. *)
Definition position (cfg : DQN.Config) (reward discount z : Q) : Q :=
  (DQN.clamp (DQN.v_min cfg) (DQN.v_max cfg) (reward + discount * z) - DQN.v_min cfg)
  / DQN.delta_z cfg.


(** The bookkeeping of the agent is well formed for a batch. *)
Definition state_ok (batch : nat) (st : Train.AgentState) : Prop :=
  length (Train.prev_actions_last st) = batch
  /\ length (Train.prev_step_is_still_interacting st) = batch
  /\ Forall binary (Train.prev_step_is_still_interacting st).

(** A cached interaction mask: one flag, 0 or 1, per game. *)
Definition mask_ok (batch : nat) (mask : list Q) : Prop :=
  length mask = batch /\ Forall binary mask.





(** The memory holds too little for an update: an empty episode store, or
    fewer stored transitions than the replay batch size. *)
Definition insufficient_data {Memory : Type} (memory_len : Memory -> nat)
    (ag : Agent.agent Memory) : Prop :=
  match ag with
  | Agent.A2C _ _ memory => memory = []
  | Agent.Rainbow _ cfg memory => (memory_len memory < DQN.replay_batch_size cfg)%nat
  end.

End Spec.

(** * Properties *)

(** ** Facts about the helpers *)




Lemma stack_Some {A : Type} (rows : list (list A)) (n : nat) :
  rows <> [] -> Forall (fun r => length r = n) rows -> stack rows = Some rows.
Proof.
  intros Hne Hall. destruct rows as [|r rows]; [done|]. unfold stack.
  assert (Hn : length r = n) by (inversion Hall; done).
  rewrite (proj2 (forallb_forall _ _)); [done|].
  intros r' Hin. apply Nat.eqb_eq. rewrite Hn.
  rewrite Forall_forall in Hall. apply Hall. by apply list_elem_of_In.
Qed.


Lemma float_of_bool_binary (b : bool) : Spec.binary (float_of_bool b).
Proof. destruct b; [right|left]; reflexivity. Qed.

(** ** The state-visitation counter *)

Section CounterFacts.
Import Counter.
#[local] Arguments count_key : simpl never.

Lemma inject_nat_succ (n : nat) :
  inject_Z (Z.of_nat n) + 1 == inject_Z (Z.of_nat (S n)).
Proof. rewrite Nat2Z.inj_succ. unfold Z.succ. rewrite inject_Z_plus. reflexivity. Qed.

(** One game, one key: the count after the call and the reward. *)
Lemma count_key_spec (d : gmap string Q) (key : string) (update : bool) :
  let c := default 0 (d !! key) in
  let c' := if update then c + 1 else c in
  (count_key d key update).1 !! key = Some c'
  /\ (count_key d key update).2 = float_of_bool (Qeq_bool c' 1)
  /\ forall k, k <> key ->
       default 0 ((count_key d key update).1 !! k) = default 0 (d !! k).
Proof.
  unfold count_key. destruct (d !! key) as [c|] eqn:Hd; destruct update; simpl.
  - rewrite lookup_total_insert_eq, lookup_insert_eq.
    rewrite (lookup_total_correct _ _ _ Hd).
    split; [done|]. split; [done|]. intros k Hk. by rewrite lookup_insert_ne.
  - rewrite (lookup_total_correct _ _ _ Hd), Hd. done.
  - rewrite !lookup_total_insert_eq, lookup_insert_eq.
    split; [done|]. split; [done|]. intros k Hk.
    rewrite !lookup_insert_ne by done. done.
  - rewrite lookup_total_insert_eq, lookup_insert_eq.
    split; [done|]. split; [done|]. intros k Hk.
    rewrite lookup_insert_ne by done. done.
Qed.

(** The loop over the batch: it succeeds when the counter has a dictionary
    for every game, and touches exactly the games of the batch. *)
Lemma count_loop_spec (obs : list string) (update : bool) :
  forall (dict : counter_dict) (i0 : nat),
    (i0 + length obs <= length dict)%nat ->
    exists dict' rs,
      count_loop dict i0 obs update = Some (dict', rs)
      /\ length dict' = length dict
      /\ length rs = length obs
      /\ (forall j, (j < i0 \/ i0 + length obs <= j)%nat -> dict' !! j = dict !! j)
      /\ (forall k key d, obs !! k = Some key -> dict !! (i0 + k)%nat = Some d ->
            dict' !! (i0 + k)%nat = Some (count_key d key update).1
            /\ rs !! k = Some (count_key d key update).2).
Proof.
  induction obs as [|key0 rest IH]; intros dict i0 Hlen;
    cbn [count_loop length] in *.
  - exists dict, []. repeat split; try done.
  - destruct (lookup_lt_is_Some_2 dict i0) as [d0 Hd0]; [lia|].
    rewrite Hd0. destruct (count_key d0 key0 update) as [d' r] eqn:Hck.
    destruct (IH (<[i0 := d']> dict) (S i0)) as (dict' & rs & Hrun & Hl & Hrs & Hout & Hin).
    { rewrite length_insert. lia. }
    rewrite Hrun. exists dict', (r :: rs).
    rewrite length_insert in Hl.
    split; [done|]. split; [done|]. split; [simpl; lia|]. split.
    + intros j Hj. rewrite Hout by lia. apply list_lookup_insert_ne. lia.
    + intros k key d Hk Hd. destruct k as [|k]; cbn [lookup list_lookup] in Hk |- *.
      * replace (i0 + 0)%nat with i0 in * by lia.
        injection Hk as <-. rewrite Hd0 in Hd. injection Hd as <-.
        rewrite Hck. cbn [fst snd]. split; [|done].
        rewrite Hout by lia. apply list_lookup_insert_eq. by eapply lookup_lt_Some.
      * replace (i0 + S k)%nat with (S i0 + k)%nat in * by lia.
        apply Hin; [done|]. rewrite list_lookup_insert_ne by lia. done.
Qed.

(** One call, seen from game [i] and key [k]: the reward of the game and
    what happens to the stored counts. *)
Lemma get_binarized_count_spec (dict : counter_dict) (obs : list string)
    (update : bool) :
  (length obs <= length dict)%nat ->
  exists dict' rs,
    get_binarized_count dict obs update = Some (dict', rs)
    /\ length dict' = length dict
    /\ length rs = length obs
    /\ (forall i key, obs !! i = Some key ->
          rs !! i = Some (float_of_bool
                      (Qeq_bool (if update then stored_count dict i key + 1
                                 else stored_count dict i key) 1)))
    /\ (forall i k,
          stored_count dict' i k =
          if (update && bool_decide (obs !! i = Some k))%bool
          then stored_count dict i k + 1 else stored_count dict i k).
Proof.
  intros Hlen. unfold get_binarized_count.
  destruct (count_loop_spec obs update dict 0) as (dict' & rs & Hrun & Hl & Hrs & Hout & Hin);
    [simpl; lia|].
  exists dict', rs. split; [done|]. split; [done|]. split; [done|]. split.
  - intros i key Hi.
    destruct (lookup_lt_is_Some_2 dict i) as [d Hd].
    { apply lookup_lt_Some in Hi. lia. }
    destruct (Hin i key d Hi Hd) as [_ Hr]. rewrite Hr. f_equal.
    destruct (count_key_spec d key update) as (_ & -> & _).
    unfold stored_count. rewrite Hd. done.
  - intros i k. unfold stored_count.
    destruct (obs !! i) as [key|] eqn:Hi.
    + destruct (lookup_lt_is_Some_2 dict i) as [d Hd].
      { apply lookup_lt_Some in Hi. lia. }
      destruct (Hin i key d Hi Hd) as [Hd' _]. cbn [Nat.add] in Hd'. rewrite Hd', Hd.
      destruct (count_key_spec d key update) as (Hk & _ & Hother).
      destruct (decide (k = key)) as [->|Hne].
      * rewrite bool_decide_eq_true_2 by done. rewrite Hk. destruct update; done.
      * rewrite bool_decide_eq_false_2 by congruence.
        rewrite andb_false_r. by apply Hother.
    + rewrite bool_decide_eq_false_2 by done. rewrite andb_false_r.
      rewrite Hout; [done|]. apply lookup_ge_None in Hi. lia.
Qed.

(** A sequence of calls: the stored count of a key is its count before plus
    the number of counted visits. *)
Lemma run_spec (calls : list (list string * bool)) :
  forall dict : counter_dict,
    Forall (fun c => (length c.1 <= length dict)%nat) calls ->
    exists dict' out,
      run dict calls = Some (dict', out)
      /\ length dict' = length dict
      /\ forall i k,
           stored_count dict' i k
           == stored_count dict i k + inject_Z (Z.of_nat (visits i k calls)).
Proof.
  induction calls as [|[obs update] calls IH]; intros dict Hall; simpl.
  - exists dict, []. split; [done|]. split; [done|]. intros. simpl. ring.
  - inversion Hall as [|? ? Hobs Hrest]; subst. simpl in Hobs.
    destruct (get_binarized_count_spec dict obs update Hobs)
      as (dict1 & rs & Hcall & Hl1 & _ & _ & Hcount).
    rewrite Hcall.
    destruct (IH dict1) as (dict2 & out & Hrun & Hl2 & Hvis).
    { rewrite Hl1. done. }
    rewrite Hrun. exists dict2, (rs :: out).
    split; [done|]. split; [congruence|].
    intros i k. rewrite Hvis, Hcount.
    rewrite Nat2Z.inj_add, inject_Z_plus.
    destruct update; simpl; [|ring].
    destruct (decide (obs !! i = Some k)) as [Heq|Hne].
    + rewrite bool_decide_eq_true_2 by done. simpl. ring.
    + rewrite bool_decide_eq_false_2 by done. simpl. ring.
Qed.

Lemma stored_count_reset (n i : nat) (k : string) :
  stored_count (reset_binarized_counter n) i k = 0.
Proof.
  unfold stored_count, reset_binarized_counter.
  destruct (replicate n ∅ !! i) as [d|] eqn:Hd; [|done].
  apply lookup_replicate in Hd as [-> _]. done.
Qed.

Lemma Qeq_bool_inject_nat (n m : nat) :
  Qeq_bool (inject_Z (Z.of_nat n)) (inject_Z (Z.of_nat m)) = Nat.eqb n m.
Proof.
  destruct (Nat.eqb_spec n m) as [->|Hne].
  - apply Qeq_bool_iff. reflexivity.
  - destruct (Qeq_bool _ _) eqn:E; [|done].
    apply Qeq_bool_iff in E. unfold Qeq, inject_Z in E. simpl in E. lia.
Qed.

(** Three counted visits of one key by a single game. *)
Lemma three_visits (key : string) :
  exists dict,
    run (reset_binarized_counter 1) [([key], true); ([key], true); ([key], true)]
    = Some (dict, [[1]; [0]; [0]])
    /\ length dict = 1%nat.
Proof.
  pose (d0 := reset_binarized_counter 1).
  destruct (get_binarized_count_spec d0 [key] true) as (d1 & rs1 & H1 & L1 & R1 & V1 & S1);
    [simpl; lia|].
  destruct (get_binarized_count_spec d1 [key] true) as (d2 & rs2 & H2 & L2 & R2 & V2 & S2);
    [rewrite L1; simpl; lia|].
  destruct (get_binarized_count_spec d2 [key] true) as (d3 & rs3 & H3 & L3 & R3 & V3 & S3);
    [rewrite L2, L1; simpl; lia|].
  specialize (V1 O key eq_refl). specialize (V2 O key eq_refl).
  specialize (V3 O key eq_refl).
  rewrite (S2 O key), (S1 O key) in V3. rewrite (S1 O key) in V2.
  cbn [andb lookup list_lookup] in V2, V3.
  rewrite bool_decide_eq_true_2 in V2, V3 by done.
  unfold d0 in *. rewrite stored_count_reset in V1, V2, V3.
  destruct rs1 as [|r1 [|? ?]]; try discriminate R1.
  destruct rs2 as [|r2 [|? ?]]; try discriminate R2.
  destruct rs3 as [|r3 [|? ?]]; try discriminate R3.
  cbn in V1, V2, V3. injection V1 as ->. injection V2 as ->. injection V3 as ->.
  exists d3. split; [|rewrite L3, L2, L1; reflexivity].
  cbn [run]. rewrite H1, H2, H3. reflexivity.
Qed.

(** What the counter does, for a game [i] of the batch that observes [key],
    after any calls since the last reset: a call with [update = True]
    returns 1.0 exactly when no earlier call counted a visit of the key
    (and 0.0 otherwise) and raises the stored count by one whatever it
    returns; a call with [update = False] returns 1.0 exactly when one
    earlier call counted a visit, and leaves the count as it is.  After a
    reset every count is 0, so three counted visits of one key give the
    rewards [1.0, 0.0, 0.0], and again after a reset. *)
Lemma binarized_count_by_visits
    (n : nat) (calls : list (list string * bool)) (obs : list string)
    (update : bool) (i : nat) (key : string) :
  Forall (fun c => (length c.1 <= n)%nat) calls ->
  (length obs <= n)%nat ->
  obs !! i = Some key ->
  exists dict out dict' rs,
    run (reset_binarized_counter n) calls = Some (dict, out)
    /\ get_binarized_count dict obs update = Some (dict', rs)
    /\ rs !! i = Some (float_of_bool
                  (Nat.eqb (visits i key calls) (if update then 0 else 1)))
    /\ stored_count dict' i key
       == inject_Z (Z.of_nat (visits i key calls + (if update then 1 else 0)))
    /\ (forall j k, stored_count (reset_binarized_counter (length dict')) j k = 0)
    /\ exists d3,
         run (reset_binarized_counter 1) [([key], true); ([key], true); ([key], true)]
         = Some (d3, [[1]; [0]; [0]])
         /\ run (reset_binarized_counter (length d3))
              [([key], true); ([key], true); ([key], true)]
            = Some (d3, [[1]; [0]; [0]]).
Proof.
  intros Hcalls Hobs Hkey.
  destruct (run_spec calls (reset_binarized_counter n)) as (dict & out & Hrun & Hl & Hvis).
  { unfold reset_binarized_counter. rewrite length_replicate. done. }
  unfold reset_binarized_counter in Hl. rewrite length_replicate in Hl.
  destruct (get_binarized_count_spec dict obs update) as (dict' & rs & Hcall & _ & _ & Hr & Hs);
    [lia|].
  exists dict, out, dict', rs.
  split; [done|]. split; [done|].
  assert (Hc : stored_count dict i key == inject_Z (Z.of_nat (visits i key calls))).
  { rewrite Hvis, stored_count_reset. ring. }
  split; [|split; [|split]].
  - rewrite (Hr i key Hkey). do 2 f_equal. destruct update.
    + change (visits i key calls =? 0)%nat with (S (visits i key calls) =? 1)%nat.
      rewrite <- (Qeq_bool_inject_nat (S (visits i key calls)) 1).
      apply Qeqb_comp; [|reflexivity].
      rewrite Hc. apply inject_nat_succ.
    + rewrite <- (Qeq_bool_inject_nat (visits i key calls) 1).
      apply Qeqb_comp; [done|reflexivity].
  - rewrite (Hs i key). rewrite bool_decide_eq_true_2 by done.
    destruct update; cbn [andb].
    + rewrite Hc. replace (visits i key calls + 1)%nat with (S (visits i key calls)) by lia.
      apply inject_nat_succ.
    + rewrite Hc. replace (visits i key calls + 0)%nat with (visits i key calls) by lia.
      reflexivity.
  - intros j k. apply stored_count_reset.
  - destruct (three_visits key) as (d3 & H3 & L3). exists d3.
    split; [done|]. rewrite L3. done.
Qed.

Lemma binarized_count_by_visits_example :
  exists dict out dict' rs,
    run (reset_binarized_counter 2) [(["hall"; "attic"], true)] = Some (dict, out)
    /\ get_binarized_count dict ["hall"; "cellar"] true = Some (dict', rs)
    /\ rs !! 0%nat = Some 0.
Proof.
  destruct (binarized_count_by_visits 2 [(["hall"; "attic"], true)]
              ["hall"; "cellar"] true 0 "hall")
    as (dict & out & dict' & rs & H1 & H2 & H3 & _).
  - repeat constructor.
  - simpl. lia.
  - reflexivity.
  - exists dict, out, dict', rs. split; [exact H1|]. split; [exact H2|]. exact H3.
Defined.

(** The counting bonus as the specification words it does not hold of
    every call: a call with [update = False] on a fresh counter is a
    counterexample. *)
Lemma first_visit_reward_fails : ~ Spec.first_visit_reward.
Proof.
  intros H.
  destruct (get_binarized_count_spec (reset_binarized_counter 1) ["kitchen"] false)
    as (dict' & rs & Hcall & _ & _ & Hr & _); [simpl; lia|].
  specialize (H 1%nat [] ["kitchen"] false 0%nat "kitchen"
                (reset_binarized_counter 1) [] dict' rs eq_refl Hcall eq_refl).
  rewrite (Hr 0%nat "kitchen" eq_refl) in H.
  rewrite stored_count_reset in H. discriminate H.
Qed.

(** C8: on a fresh counter the call
    [get_binarized_count(["kitchen"], update=False)] returns 0.0 although
    the state is new, where the docstring promises a reward for every new
    state; the same call with [update=True] returns 1.0, and so does the
    first counted visit after the query. *)
Theorem C8_query_of_new_state_returns_zero :
  (exists dict,
     get_binarized_count (reset_binarized_counter 1) ["kitchen"] false
     = Some (dict, [0])
     /\ stored_count dict 0 "kitchen" == 0
     /\ exists dict', get_binarized_count dict ["kitchen"] true = Some (dict', [1]))
  /\ exists dict,
       get_binarized_count (reset_binarized_counter 1) ["kitchen"] true
       = Some (dict, [1]).
Proof.
  split.
  - eexists. split; [reflexivity|]. split; [reflexivity|].
    eexists. reflexivity.
  - eexists. reflexivity.
Qed.

End CounterFacts.

(** ** Monte-Carlo returns and the advantage *)

Section ActorCriticFacts.
Import ActorCritic.

Lemma tensor_op_Some (f : Q -> Q -> Q) (a b : list Q) :
  length a = length b -> tensor_op f a b = Some (zip_with f a b).
Proof. intros H. unfold tensor_op. rewrite decide_True by done. done. Qed.

Lemma stack_scalars_Some {A : Type} (xs : list A) :
  xs <> [] -> stack_scalars xs = Some xs.
Proof. destruct xs; done. Qed.

Lemma spec_returns_length (gamma : Q) (rewards : list Q) :
  forall is_finals : list bool,
    length rewards = length is_finals ->
    length (Spec.returns gamma rewards is_finals) = length rewards.
Proof.
  induction rewards as [|r rewards IH]; intros [|f fs] H; simpl in *; try done.
  f_equal. apply IH. lia.
Qed.

(** The loop, once the steps [suf] at the end of the episode are done, has
    the returns of [suf] in [returns] and the first of them in [Gt]. *)
Lemma returns_loop_spec (gamma : Q) (pre : list Q) :
  forall (fpre : list bool) (suf : list Q) (fsuf : list bool),
    length pre = length fpre ->
    length suf = length fsuf ->
    returns_loop gamma (rev pre) (rev (fpre ++ fsuf)) (length suf)
      (hd 0 (Spec.returns gamma suf fsuf)) (Spec.returns gamma suf fsuf)
    = Some (Spec.returns gamma (pre ++ suf) (fpre ++ fsuf)).
Proof.
  induction pre as [|x pre IH] using rev_ind; intros fpre suf fsuf Hpre Hsuf.
  - destruct fpre; [|done]. done.
  - destruct fpre as [|f fpre _] using rev_ind.
    { rewrite length_app in Hpre. simpl in Hpre. lia. }
    rewrite !length_app in Hpre. simpl in Hpre.
    rewrite rev_unit. cbn [returns_loop].
    assert (Hlook : rev ((fpre ++ [f]) ++ fsuf) !! length suf = Some f).
    { rewrite <- app_assoc, rev_app_distr. simpl.
      rewrite lookup_app_l by (rewrite length_app, length_rev; simpl; lia).
      rewrite lookup_app_r; rewrite length_rev; [|lia].
      replace (length suf - length fsuf)%nat with 0%nat by lia. done. }
    rewrite Hlook.
    rewrite <- !app_assoc. simpl.
    specialize (IH fpre (x :: suf) (f :: fsuf)).
    simpl in IH. apply IH; lia.
Qed.

Lemma compute_returns_spec (gamma : Q) (rewards : list Q) (is_finals : list bool) :
  length rewards = length is_finals ->
  compute_returns gamma rewards is_finals = Some (Spec.returns gamma rewards is_finals).
Proof.
  intros H. unfold compute_returns.
  pose proof (returns_loop_spec gamma rewards is_finals [] [] H eq_refl) as Hloop.
  rewrite !app_nil_r in Hloop. exact Hloop.
Qed.

Lemma spec_returns_lookup (gamma : Q) (rewards : list Q) :
  forall (is_finals : list bool) (t : nat) (r : Q) (final : bool),
    rewards !! t = Some r ->
    is_finals !! t = Some final ->
    Spec.returns gamma rewards is_finals !! t
    = Some (r + gamma * (if final then 0
                         else default 0 (Spec.returns gamma rewards is_finals !! S t))).
Proof.
  induction rewards as [|r0 rewards IH]; intros [|f0 fs] t r final Hr Hf; try done.
  destruct t as [|t]; simpl in *.
  - injection Hr as <-. injection Hf as <-.
    destruct (Spec.returns gamma rewards fs); done.
  - apply IH; done.
Qed.

(** C1: the returns that the actor-critic loss computes follow the
    recursion [G_t = r_t + gamma * G_(t+1)] from the end of the episode
    backward, with [G] reset to 0 at a terminal step before the reward of
    that step is added (and 0 beyond the last step); for the rewards
    [1, 1, 1], only the last step terminal and gamma = 0.5 they are
    [1.75, 1.5, 1.0]. *)
Theorem C1_monte_carlo_returns
    (gamma : Q) (rewards : list Q) (is_finals : list bool) :
  length rewards = length is_finals ->
  (exists returns,
      compute_returns gamma rewards is_finals = Some returns
      /\ length returns = length rewards
      /\ forall (t : nat) (r : Q) (final : bool),
           rewards !! t = Some r ->
           is_finals !! t = Some final ->
           returns !! t
           = Some (r + gamma * (if final then 0 else default 0 (returns !! S t))))
  /\ exists returns,
      compute_returns (1 # 2) [1; 1; 1] [false; false; true] = Some returns
      /\ Qlist_eq returns [7 # 4; 3 # 2; 1].
Proof.
  intros H. split.
  - exists (Spec.returns gamma rewards is_finals).
    split; [by apply compute_returns_spec|].
    split; [by apply spec_returns_length|].
    intros t r final. apply spec_returns_lookup.
  - eexists. split; [reflexivity|].
    repeat constructor.
Qed.

Lemma C1_monte_carlo_returns_witness :
  exists returns,
    compute_returns (1 # 2) [1; 1; 1] [false; false; true] = Some returns
    /\ returns !! 0%nat
       = Some (1 + (1 # 2) * default 0 (returns !! 1%nat)).
Proof.
  destruct (C1_monte_carlo_returns (1 # 2) [1; 1; 1] [false; false; true] eq_refl)
    as [(returns & Hrun & _ & Hrec) _].
  exists returns. split; [exact Hrun|].
  exact (Hrec 0%nat 1 false eq_refl eq_refl).
Defined.

Lemma finals_mask_length (is_finals : list bool) :
  length (finals_mask is_finals) = length is_finals.
Proof. unfold finals_mask. apply length_map. Qed.

(** On a batch whose columns have one length the advantage is computed,
    and is the entrywise [returns - state_values * finals_mask]. *)
Lemma batch_advantage_spec (cfg : Config) (data : Batch) :
  rewards data <> [] ->
  length (rewards data) = length (is_finals data) ->
  length (state_values data) = length (rewards data) ->
  batch_advantage cfg data
  = Some (zip_with Qminus
            (Spec.returns (discount_gamma cfg) (rewards data) (is_finals data))
            (zip_with Qmult (state_values data) (finals_mask (is_finals data)))).
Proof.
  intros Hne Hf Hv. unfold batch_advantage.
  rewrite compute_returns_spec by done. cbn [mbind option_bind].
  pose proof (spec_returns_length (discount_gamma cfg) _ _ Hf) as Hl.
  rewrite (stack_scalars_Some (Spec.returns _ _ _)).
  2:{ intros E. rewrite E in Hl. destruct (rewards data); done. }
  cbn [mbind option_bind].
  rewrite (stack_scalars_Some (state_values data)).
  2:{ intros E. rewrite E in Hv. destruct (rewards data); done. }
  cbn [mbind option_bind]. unfold advantage.
  rewrite tensor_op_Some by (rewrite finals_mask_length; lia).
  cbn [mbind option_bind].
  rewrite tensor_op_Some; [done|].
  rewrite length_zip_with, finals_mask_length. lia.
Qed.

(** C4: the advantage of every step is [G_t - V_t * mask_t] with
    [mask_t = 1 - is_final_t]: on a terminal step it is the return [G_t]
    itself, the value term alone being zeroed, and on the other steps it is
    [G_t - V_t]. *)
Theorem C4_advantage_masks_value_only (cfg : Config) (data : Batch) :
  rewards data <> [] ->
  length (rewards data) = length (is_finals data) ->
  length (state_values data) = length (rewards data) ->
  exists returns adv,
    compute_returns (discount_gamma cfg) (rewards data) (is_finals data) = Some returns
    /\ batch_advantage cfg data = Some adv
    /\ length adv = length (rewards data)
    /\ forall (t : nat) (G V : Q) (final : bool),
         returns !! t = Some G ->
         state_values data !! t = Some V ->
         is_finals data !! t = Some final ->
         adv !! t = Some (G - V * (1 - float_of_bool final))
         /\ (final = true -> G - V * (1 - float_of_bool final) == G)
         /\ (final = false -> G - V * (1 - float_of_bool final) == G - V).
Proof.
  intros Hne Hf Hv.
  exists (Spec.returns (discount_gamma cfg) (rewards data) (is_finals data)).
  eexists. split; [by apply compute_returns_spec|].
  split; [by apply batch_advantage_spec|].
  pose proof (spec_returns_length (discount_gamma cfg) _ _ Hf) as Hl.
  split.
  { rewrite !length_zip_with, finals_mask_length. lia. }
  intros t G V final HG HV Hfin. split; [|split].
  - rewrite lookup_zip_with, HG. cbn [mbind option_bind].
    rewrite lookup_zip_with, HV. cbn [mbind option_bind].
    unfold finals_mask. rewrite list_lookup_fmap, Hfin. done.
  - intros ->. simpl. ring.
  - intros ->. simpl. ring.
Qed.

Lemma C4_advantage_masks_value_only_witness :
  exists adv,
    batch_advantage
      {| discount_gamma := 1 # 2; entropy_coeff := 0; icm := None |}
      {| action_list := [None; None]; rewards := [1; 1]; state_values := [3; 5];
         action_log_probs_list := []; action_entropies_list := [];
         is_finals := [false; true] |} = Some adv
    /\ adv !! 1%nat = Some (1 + (1 # 2) * 0 - 5 * (1 - 1)).
Proof.
  destruct (C4_advantage_masks_value_only
              {| discount_gamma := 1 # 2; entropy_coeff := 0; icm := None |}
              {| action_list := [None; None]; rewards := [1; 1]; state_values := [3; 5];
                 action_log_probs_list := []; action_entropies_list := [];
                 is_finals := [false; true] |})
    as (returns & adv & Hret & Hadv & _ & Hstep).
  - discriminate.
  - reflexivity.
  - reflexivity.
  - exists adv. split; [exact Hadv|].
    injection Hret as <-.
    exact (proj1 (Hstep 1%nat _ 5 true eq_refl eq_refl eq_refl)).
Defined.



(** Half precision at work: a number between two half-precision numbers
    goes to the nearer one, a tie to the one with the even last bit (also
    among the subnormal numbers), 65504 is the largest number and 65520 is
    already infinite. *)
Example to_half_rounds :
  scalar_eq (to_half (5121 # 2048)) (Finite (5 # 2))
  /\ scalar_eq (to_half (1 # 3)) (Finite (1365 # 4096))
  /\ scalar_eq (to_half (2049 # 1)) (Finite 2048)
  /\ scalar_eq (to_half (2051 # 1)) (Finite 2052)
  /\ scalar_eq (to_half (- (3 # 33554432))) (Finite (- (1 # 8388608)))
  /\ scalar_eq (to_half (1 # 33554432)) (Finite 0)
  /\ scalar_eq (to_half 65519) (Finite 65504)
  /\ to_half 65520 = Infinite false
  /\ to_half (- 70000) = Infinite true.
Proof. vm_compute. repeat split; reflexivity. Qed.


(** With the curiosity module on, an episode of one stored step has no
    action left after [action_list[0:-1]], and the loss raises. *)
Lemma loss_of_batch_one_step (cfg : Config) (data : Batch) :
  icm cfg <> None ->
  (length (action_list data) <= 1)%nat ->
  loss_of_batch cfg data = None.
Proof.
  intros Hicm Hlen. unfold loss_of_batch, action_inputs.
  destruct (icm cfg) as [c|]; [|done].
  replace (length (action_list data) - 1)%nat with 0%nat by lia. done.
Qed.




(** A policy loss beyond the half-precision range makes the loss
    infinite. *)
Example loss_of_batch_overflows :
  loss_of_batch
    {| discount_gamma := 1 # 2; entropy_coeff := 0; icm := None |}
    {| action_list := [None]; rewards := [1]; state_values := [0];
       action_log_probs_list := [[- 70000; 0; 0]];
       action_entropies_list := [[0; 0; 0]];
       is_finals := [true] |}
  = Some (Infinite false).
Proof. reflexivity. Qed.

End ActorCriticFacts.

(** ** The update step without data *)

Section UpdateFacts.
Import Agent.

Variable get_ranks :
  DQN.model -> list string -> list string -> list (list (list Q)) -> Command.ranks.
Variable ln : Q -> Q.
Variable Memory : Type.
Variable memory_len : Memory -> nat.
Variable get_batch : Memory -> nat -> nat -> option DQN.Batch.

(** C9: with too little data (an empty episode store in actor-critic mode,
    fewer stored transitions than the replay batch size otherwise) the loss
    computation returns [None] and does not raise, and [update_interaction]
    returns [None] and leaves the optimizer as it was: no backward pass and
    no optimizer step. *)
Theorem C9_no_data_no_update (ag : agent Memory) (opt : Optimizer) :
  Spec.insufficient_data memory_len ag ->
  match ag with
  | A2C _ cfg memory => ActorCritic.get_actor_critic_loss cfg memory
  | Rainbow _ cfg memory =>
      DQN.get_dqn_loss get_ranks ln Memory memory_len get_batch cfg memory
  end = Returned None
  /\ exists ag',
      update_interaction get_ranks ln Memory memory_len get_batch ag opt
      = (Returned None, ag', opt).
Proof.
  destruct ag as [cfg memory|cfg memory]; simpl; intros H.
  - subst memory. split; [reflexivity|]. eexists. reflexivity.
  - unfold update_interaction, DQN.get_dqn_loss.
    rewrite (proj2 (Nat.ltb_lt _ _) H). split; [reflexivity|].
    eexists. reflexivity.
Qed.

End UpdateFacts.

Lemma C9_no_data_no_update_witness :
  (exists ag',
      Agent.update_interaction
        (fun _ _ _ _ => Command.Values []) (fun x => x)
        (list nat) (@length nat) (fun _ _ _ => None)
        (Agent.A2C (list nat)
           {| ActorCritic.discount_gamma := 1 # 2;
              ActorCritic.entropy_coeff := 0;
              ActorCritic.icm := None |} [])
        {| Agent.backward_passes := 4; Agent.optimizer_steps := 4 |}
      = (Returned None, ag',
         {| Agent.backward_passes := 4; Agent.optimizer_steps := 4 |}))
  /\ exists ag',
      Agent.update_interaction
        (fun _ _ _ _ => Command.Values []) (fun x => x)
        (list nat) (@length nat) (fun _ _ _ => None)
        (Agent.Rainbow (list nat)
           {| DQN.discount_gamma := 1 # 2; DQN.replay_batch_size := 8;
              DQN.multi_step := 3; DQN.use_distributional := false;
              DQN.atoms := 51; DQN.v_min := 0; DQN.v_max := 1;
              DQN.double_dqn := true; DQN.icm := None; DQN.word_vocab := [] |}
           [1%nat; 2%nat; 3%nat])
        {| Agent.backward_passes := 4; Agent.optimizer_steps := 4 |}
      = (Returned None, ag',
         {| Agent.backward_passes := 4; Agent.optimizer_steps := 4 |}).
Proof.
  split.
  - exact (proj2 (C9_no_data_no_update
                    (fun _ _ _ _ => Command.Values []) (fun x => x)
                    (list nat) (@length nat) (fun _ _ _ => None)
                    (Agent.A2C (list nat)
                       {| ActorCritic.discount_gamma := 1 # 2;
                          ActorCritic.entropy_coeff := 0;
                          ActorCritic.icm := None |} [])
                    {| Agent.backward_passes := 4; Agent.optimizer_steps := 4 |}
                    eq_refl)).
  - refine (proj2 (C9_no_data_no_update
                     (fun _ _ _ _ => Command.Values []) (fun x => x)
                     (list nat) (@length nat) (fun _ _ _ => None)
                     (Agent.Rainbow (list nat)
                        {| DQN.discount_gamma := 1 # 2; DQN.replay_batch_size := 8;
                           DQN.multi_step := 3; DQN.use_distributional := false;
                           DQN.atoms := 51; DQN.v_min := 0; DQN.v_max := 1;
                           DQN.double_dqn := true; DQN.icm := None;
                           DQN.word_vocab := [] |}
                        [1%nat; 2%nat; 3%nat])
                     {| Agent.backward_passes := 4; Agent.optimizer_steps := 4 |}
                     _)).
    simpl. lia.
Defined.

(** ** The greedy command respects the word masks *)

Section CommandFacts.
Import Command.

Lemma row_min_Some (row : list Q) :
  row <> [] -> exists m, row_min row = Some m /\ Forall (fun x => m <= x) row.
Proof.
  induction row as [|x rest IH]; [done|]. intros _. cbn [row_min].
  destruct rest as [|y rest].
  - exists x. split; [done|]. constructor; [apply Qle_refl|constructor].
  - destruct IH as (m & -> & Hall); [done|].
    exists (Qmin x m). split; [done|]. constructor; [apply Q.le_min_l|].
    eapply Forall_impl; [exact Hall|]. intros z Hz. simpl in Hz.
    eapply Qle_trans; [apply Q.le_min_r|exact Hz].
Qed.

(** Every shifted score is strictly positive. *)
Lemma shift_row_spec (row : list Q) :
  row <> [] ->
  exists sh, shift_row row = Some sh
             /\ length sh = length row
             /\ Forall (fun x => 0 < x) sh.
Proof.
  intros Hne. destruct (row_min_Some row Hne) as (m & Hm & Hall).
  unfold shift_row. rewrite Hm. cbn [mbind option_bind].
  eexists. split; [done|]. split; [apply length_map|].
  apply Forall_fmap. eapply Forall_impl; [exact Hall|].
  intros x Hx. simpl in *. lra.
Qed.

(** The scan keeps the position of an entry that no other entry exceeds. *)
Lemma argmax_from_spec (rest : list Q) :
  forall (best_i : nat) (best : Q) (i : nat),
    exists v,
      ((argmax_from best_i best i rest = best_i /\ v = best)
       \/ ((i <= argmax_from best_i best i rest)%nat
           /\ rest !! (argmax_from best_i best i rest - i)%nat = Some v))
      /\ best <= v
      /\ Forall (fun y => y <= v) rest.
Proof.
  induction rest as [|x rest IH]; intros best_i best i; cbn [argmax_from].
  - exists best. split; [by left|]. split; [apply Qle_refl|constructor].
  - destruct (Qle_bool x best) eqn:Hle.
    + apply Qle_bool_iff in Hle.
      destruct (IH best_i best (S i)) as (v & Hpos & Hb & Hall).
      exists v. split; [|split; [done|]].
      * destruct Hpos as [[-> ->]|[Hi Hv]]; [by left|right].
        split; [lia|].
        replace (argmax_from best_i best (S i) rest - i)%nat
          with (S (argmax_from best_i best (S i) rest - S i)) by lia.
        exact Hv.
      * constructor; [|done]. eapply Qle_trans; [exact Hle|exact Hb].
    + assert (Hlt : best < x).
      { apply Qnot_le_lt. intros Hc. apply Qle_bool_iff in Hc. congruence. }
      destruct (IH i x (S i)) as (v & Hpos & Hb & Hall).
      exists v. split; [|split].
      * right. destruct Hpos as [[-> ->]|[Hi Hv]].
        -- split; [lia|]. rewrite Nat.sub_diag. done.
        -- split; [lia|].
           replace (argmax_from i x (S i) rest - i)%nat
             with (S (argmax_from i x (S i) rest - S i)) by lia.
           exact Hv.
      * apply Qlt_le_weak. eapply Qlt_le_trans; [exact Hlt|exact Hb].
      * constructor; [done|done].
Qed.

Lemma argmax_spec (row : list Q) (k : nat) :
  argmax row = Some k ->
  exists v, row !! k = Some v /\ Forall (fun y => y <= v) row.
Proof.
  destruct row as [|x rest]; [done|]. cbn [argmax]. intros [= <-].
  destruct (argmax_from_spec rest 0 x 1) as (v & Hpos & Hb & Hall).
  exists v. split; [|by constructor].
  destruct Hpos as [[-> ->]|[Hi Hv]]; [done|].
  destruct (argmax_from 0 x 1 rest) as [|k]; [lia|].
  simpl in *. rewrite Nat.sub_0_r in Hv. exact Hv.
Qed.

(** One row: when some word is allowed, the argmax of the shifted and
    masked scores is an allowed word. *)
Lemma masked_argmax_allowed (sh mrow masked : list Q) (k : nat) :
  Forall (fun x => 0 < x) sh ->
  tensor_op Qmult sh mrow = Some masked ->
  argmax masked = Some k ->
  Forall Spec.binary mrow ->
  (exists (j : nat) (v : Q), mrow !! j = Some v /\ ~ v == 0) ->
  exists v, mrow !! k = Some v /\ v == 1.
Proof.
  intros Hpos Hop Hk Hbin (j & vj & Hj & Hnz).
  unfold tensor_op in Hop. case_decide as Hlen; [|done]. injection Hop as <-.
  destruct (argmax_spec _ _ Hk) as (v & Hv & Hmax).
  apply lookup_zip_with_Some in Hv as (s & w & -> & Hs & Hw).
  exists w. split; [done|].
  destruct (lookup_lt_is_Some_2 sh j) as [sj Hsj].
  { rewrite Hlen. by eapply lookup_lt_Some. }
  assert (Hjmax : sj * vj <= s * w).
  { rewrite Forall_lookup in Hmax. apply (Hmax j).
    rewrite lookup_zip_with, Hsj. cbn [mbind option_bind]. rewrite Hj. done. }
  pose proof (Forall_lookup_1 _ _ _ _ Hpos Hsj) as Hsjpos.
  pose proof (Forall_lookup_1 _ _ _ _ Hpos Hs) as Hspos.
  destruct (Forall_lookup_1 _ _ _ _ Hbin Hj) as [Hvj|Hvj]; [done|].
  destruct (Forall_lookup_1 _ _ _ _ Hbin Hw) as [Hw0|Hw1]; [|done].
  rewrite Hvj, Hw0 in Hjmax. cbv beta in *. lra.
Qed.

Lemma mapM_lookup_r {A B : Type} (f : A -> option B) (l : list A) (k : list B)
    (i : nat) (y : B) :
  mapM f l = Some k -> k !! i = Some y -> exists x, l !! i = Some x /\ f x = Some y.
Proof.
  intros H Hy. apply mapM_Some_1 in H.
  destruct (Forall2_lookup_r _ _ _ _ _ H Hy) as (x & Hx & Hf). eauto.
Qed.








End CommandFacts.

(** ** Matrices *)

Section MatrixFacts.
Context {A : Type}.

Lemma has_shape_row (rows cols : nat) (m : list (list A)) (i : nat) (r : list A) :
  has_shape rows cols m -> m !! i = Some r -> length r = cols.
Proof. intros [_ H] Hr. exact (Forall_lookup_1 _ _ _ _ H Hr). Qed.

Lemma stack_shape (rows cols : nat) (m : list (list A)) :
  (0 < rows)%nat -> has_shape rows cols m -> stack m = Some m.
Proof.
  intros Hr [Hl Hall]. apply (stack_Some m cols); [|done].
  intros ->. simpl in Hl. lia.
Qed.

(** The transpose of a matrix with at least one row. *)
Lemma transpose_spec (rows cols : nat) (m : list (list A)) :
  (0 < rows)%nat ->
  has_shape rows cols m ->
  exists t,
    transpose m = Some t
    /\ has_shape cols rows t
    /\ forall i j, entry t j i = entry m i j.
Proof.
  intros Hr Hm. pose proof Hm as [Hl Hall]. unfold transpose.
  rewrite (stack_shape rows cols) by done. cbn [mbind option_bind].
  destruct m as [|r0 m0] eqn:Em; [simpl in Hl; lia|]. rewrite <- Em in *.
  assert (Hr0 : length r0 = cols).
  { rewrite Em in Hall. inversion Hall; done. }
  replace (head m) with (Some r0) by (rewrite Em; done).
  cbn [mbind option_bind]. rewrite Hr0.
  assert (Hcol : forall j, (j < cols)%nat ->
            exists c, column j m = Some c /\ length c = rows
                      /\ forall i, c !! i = entry m i j).
  { intros j Hj. unfold column.
    destruct (mapM (fun row => row !! j) m) as [c|] eqn:Ec.
    - exists c. pose proof (length_mapM _ _ _ Ec) as Hlc.
      split; [done|]. split; [lia|]. intros i. unfold entry.
      apply mapM_Some_1 in Ec.
      destruct (m !! i) as [row|] eqn:Hrow; cbn [mbind option_bind].
      + destruct (Forall2_lookup_l _ _ _ _ _ Ec Hrow) as (y & -> & Hy). done.
      + apply lookup_ge_None. apply lookup_ge_None in Hrow. lia.
    - apply mapM_None_1, Exists_exists in Ec as (row & Hin & Hnone).
      rewrite Forall_forall in Hall. specialize (Hall row Hin).
      apply lookup_ge_None in Hnone. lia. }
  destruct (mapM (fun b => column b m) (seq 0 cols)) as [t|] eqn:Et.
  - exists t. pose proof (length_mapM _ _ _ Et) as Hlt. rewrite length_seq in Hlt.
    split; [done|]. split; [split; [done|]|].
    + apply Forall_lookup_2. intros j c Hc.
      destruct (mapM_lookup_r _ _ _ _ _ Et Hc) as (j' & Hj' & Hcj).
      apply lookup_seq in Hj' as [-> Hj].
      destruct (Hcol _ Hj) as (c' & Hc' & Hlc & _). simpl in Hcj. congruence.
    + intros i j. unfold entry at 1.
      destruct (t !! j) as [c|] eqn:Hc; cbn [mbind option_bind].
      * destruct (mapM_lookup_r _ _ _ _ _ Et Hc) as (j' & Hj' & Hcj).
        apply lookup_seq in Hj' as [-> Hj].
        destruct (Hcol _ Hj) as (c' & Hc' & _ & Hent). simpl in Hcj.
        rewrite Hc' in Hcj. injection Hcj as <-. apply Hent.
      * apply lookup_ge_None in Hc. unfold entry.
        destruct (m !! i) as [row|] eqn:Hrow; cbn [mbind option_bind]; [|done].
        symmetry. apply lookup_ge_None.
        rewrite (has_shape_row _ _ _ _ _ Hm Hrow). lia.
  - apply mapM_None_1, Exists_exists in Et as (j & Hin & Hnone).
    apply list_elem_of_lookup_1 in Hin as (j' & Hj').
    apply lookup_seq in Hj' as [-> Hj]. simpl in *.
    destruct (Hcol _ Hj) as (c & Hc & _). congruence.
Qed.

End MatrixFacts.

(** Entrywise operations on matrices of one shape. *)
Lemma matrix_op_spec (f : Q -> Q -> Q) (rows cols : nat) (a b : list (list Q)) :
  has_shape rows cols a ->
  has_shape rows cols b ->
  exists m,
    matrix_op f a b = Some m
    /\ has_shape rows cols m
    /\ forall i j, entry m i j
                  = (x ← entry a i j; y ← entry b i j; Some (f x y)).
Proof.
  intros [Hla Ha] [Hlb Hb]. unfold matrix_op. rewrite decide_True by lia.
  assert (Hrun : mapM (fun '(x, y) => tensor_op f x y) (zip a b)
                 = Some (zip_with (zip_with f) a b)).
  { apply mapM_Some_2. clear Hla Hlb. revert b Hb.
    induction Ha as [|x a Hx _ IH]; intros [|y b] Hb; simpl; try constructor.
    - inversion Hb; subst. rewrite tensor_op_Some by lia. done.
    - apply IH. inversion Hb; done. }
  rewrite Hrun. eexists. split; [done|]. split; [split|].
  - rewrite length_zip_with. lia.
  - apply Forall_lookup_2. intros i r Hr.
    apply lookup_zip_with_Some in Hr as (x & y & -> & Hx & Hy).
    rewrite length_zip_with.
    rewrite (Forall_lookup_1 _ _ _ _ Ha Hx), (Forall_lookup_1 _ _ _ _ Hb Hy). lia.
  - intros i j. unfold entry. rewrite lookup_zip_with.
    destruct (a !! i) as [x|] eqn:Hx; cbn [mbind option_bind]; [|done].
    destruct (b !! i) as [y|] eqn:Hy; cbn [mbind option_bind].
    + rewrite lookup_zip_with. done.
    + apply lookup_lt_Some in Hx. apply lookup_ge_None in Hy. lia.
Qed.

Lemma entry_map_map (g : Q -> Q) (m : list (list Q)) (i j : nat) :
  entry (map (map g) m) i j = g <$> entry m i j.
Proof.
  unfold entry. rewrite list_lookup_fmap.
  destruct (m !! i); cbn; [|done]. apply list_lookup_fmap.
Qed.

Lemma has_shape_map_map (g : Q -> Q) (rows cols : nat) (m : list (list Q)) :
  has_shape rows cols m -> has_shape rows cols (map (map g) m).
Proof.
  intros [Hl Hall]. split; [by rewrite length_map|].
  apply Forall_fmap. eapply Forall_impl; [exact Hall|].
  intros r Hr. simpl. by rewrite length_map.
Qed.

(** ** The step loop and the pushes *)

Section TrainFacts.
Import Train.

Lemma binary_sum_zero (l : list Q) :
  Forall Spec.binary l -> Qsum l == 0 -> Forall (fun x => x == 0) l.
Proof.
  intros Hbin.
  assert (Hnonneg : forall l', Forall Spec.binary l' -> 0 <= Qsum l').
  { induction 1 as [|x l' [Hx|Hx] _ IH]; simpl; [lra| |]; rewrite Hx; lra. }
  induction Hbin as [|x l [Hx|Hx] Hl IH]; simpl; intros Hsum.
  - constructor.
  - constructor; [done|]. apply IH. rewrite Hx in Hsum. lra.
  - pose proof (Hnonneg l Hl). rewrite Hx in Hsum. lra.
Qed.

(** [act] keeps the interaction flags at 0 or 1, one per game. *)
Lemma wait_loop_spec (prev_actions : list string) :
  forall (remaining i : nat) (interacting : list Q),
    (i + remaining <= length prev_actions)%nat ->
    (i + remaining <= length interacting)%nat ->
    Forall Spec.binary interacting ->
    exists out,
      wait_loop prev_actions interacting i remaining = Some out
      /\ length out = length interacting
      /\ Forall Spec.binary out.
Proof.
  induction remaining as [|remaining IH]; intros i interacting Hp Hi Hbin;
    cbn [wait_loop].
  - exists interacting. done.
  - destruct (lookup_lt_is_Some_2 prev_actions i) as [a Ha]; [lia|].
    rewrite Ha. cbn [mbind option_bind].
    destruct (String.eqb a "wait").
    + rewrite decide_True by lia. cbn [mbind option_bind].
      destruct (IH (S i) (<[i := 0]> interacting)) as (out & Hrun & Hl & Hb).
      * lia.
      * rewrite length_insert. lia.
      * apply Forall_insert; [done|]. left. reflexivity.
      * exists out. rewrite length_insert in Hl. done.
    + cbn [mbind option_bind]. apply IH; [lia|lia|done].
Qed.

Lemma act_spec (batch : nat) (st : AgentState) (chosen : list string) :
  Spec.state_ok batch st ->
  length chosen = batch ->
  exists mask st',
    act batch st chosen = Some (mask, st')
    /\ prev_step_is_still_interacting st' = mask
    /\ Spec.mask_ok batch mask
    /\ Spec.state_ok batch st'.
Proof.
  intros (Hp & Hi & Hb) Hc. unfold act.
  destruct (wait_loop_spec (prev_actions_last st) batch 0
              (prev_step_is_still_interacting st)) as (out & -> & Hl & Hbo);
    [simpl; lia|simpl; lia|done|].
  cbn [mbind option_bind]. eexists _, _. split; [done|].
  split; [done|]. split; [split; [lia|done]|].
  split; [done|]. split; [simpl; lia|done].
Qed.

Lemma init_ok (batch : nat) : Spec.state_ok batch (init batch).
Proof.
  unfold init. split; [apply length_replicate|].
  split; [apply length_replicate|]. simpl.
  apply Forall_replicate. right. reflexivity.
Qed.

Section Episode.
Variable shares_memory : bool.
Variable commands_at : nat -> list string.
Variable c_rewards_at : nat -> list Q.
Variable vc_rewards_at : nat -> list Q.
Variable cfg : Settings.
Hypothesis commands_size : forall t, length (commands_at t) = batch_size cfg.

(** The step loop ends, and the mask it caches last reads as zero for
    every game: forced at the step limit, or found all zero after step 0.
    Every cached mask reads as one flag, 0 or 1, per game, whether its
    tensor has its own memory or the memory of the agent's array. *)
Lemma step_loop_spec :
  forall (remaining step_no : nat) (st : AgentState) (acc : StepCache),
    (0 < remaining)%nat ->
    (step_no + remaining = max_nb_steps_per_episode cfg)%nat ->
    Spec.state_ok (batch_size cfg) st ->
    exists (new : list (option (list Q))) (st' : AgentState) (last_mask : list Q),
      step_loop shares_memory commands_at c_rewards_at vc_rewards_at
        cfg st step_no remaining acc
      = Some ({| cached := cached acc ++ new;
                 c_rewards := c_rewards acc ++ map c_rewards_at (seq step_no (length new));
                 vc_rewards :=
                   vc_rewards acc ++ map vc_rewards_at (seq step_no (length new)) |},
              st')
      /\ Spec.state_ok (batch_size cfg) st'
      /\ Forall (Spec.mask_ok (batch_size cfg)) (map (read_mask st') new)
      /\ last (map (read_mask st') new) = Some last_mask
      /\ Forall (fun x => x == 0) last_mask
      /\ (length new <= remaining)%nat
      /\ (length new = remaining -> last_mask = replicate (batch_size cfg) 0).
Proof.
  induction remaining as [|remaining IH]; intros step_no st acc Hpos Hmax Hst; [lia|].
  cbn [step_loop].
  destruct (act_spec (batch_size cfg) st (commands_at step_no) Hst (commands_size _))
    as (mask & st' & -> & Harr & [Hlm Hbm] & Hst').
  cbn [mbind option_bind].
  destruct (Nat.eqb_spec step_no (max_nb_steps_per_episode cfg - 1)) as [Hlast|Hnot].
  - cbn [orb].
    exists [Some (map (fun _ => 0) mask)], st', (map (fun _ => 0) mask).
    split; [done|]. split; [done|]. split.
    { constructor; [|constructor]. split; [simpl; by rewrite length_map|].
      apply Forall_fmap, Forall_true. intros ?. left. reflexivity. }
    split; [done|]. split.
    { apply Forall_fmap, Forall_true. intros ?. simpl. reflexivity. }
    split; [simpl; lia|]. intros _. rewrite <- Hlm. clear.
    induction mask as [|x mask IHm]; simpl; [done|]. by rewrite IHm.
  - cbn [orb]. destruct ((0 <? step_no)%nat && Qeq_bool (Qsum mask) 0)%bool eqn:Hstop.
    + apply andb_true_iff in Hstop as [_ Hsum]. apply Qeq_bool_iff in Hsum.
      assert (Hread : read_mask st' (if negb shares_memory then Some mask else None) = mask).
      { unfold read_mask. destruct shares_memory; simpl; done. }
      exists [if negb shares_memory then Some mask else None], st', mask.
      split; [done|]. split; [done|]. cbn [map]. rewrite Hread.
      split; [constructor; [done|constructor]|].
      split; [done|]. split; [by apply binary_sum_zero|]. split; [simpl; lia|].
      simpl. intros Hrem. lia.
    + destruct (IH (S step_no) st'
                  {| cached := cached acc ++ [if negb shares_memory then Some mask else None];
                     c_rewards := c_rewards acc ++ [c_rewards_at step_no];
                     vc_rewards := vc_rewards acc ++ [vc_rewards_at step_no] |})
        as (new & st'' & last_mask & Hrun & Hst'' & Hnew & Hlastm & Hzero & Hlen & Hfull);
        [lia|lia|done|].
      exists ((if negb shares_memory then Some mask else None) :: new), st'', last_mask.
      split.
      { rewrite Hrun. cbn [cached c_rewards vc_rewards].
        rewrite <- !app_assoc. done. }
      split; [done|]. split.
      { cbn [map]. constructor; [|done]. unfold read_mask.
        destruct shares_memory; simpl; [|done].
        destruct Hst'' as (_ & Hl & Hb). done. }
      split.
      { cbn [map]. destruct new; [done|]. done. }
      split; [done|]. split; [simpl; lia|].
      simpl. intros Hrem. apply Hfull. lia.
Qed.

End Episode.

(** The pushes of one game: they follow the cached steps in order, with
    the reward and the mask entry of the game. *)
Lemma push_steps_spec (prior : bool) (b : nat) :
  forall cache : list (list Q * list Q),
    Forall (fun c => is_Some (c.1 !! b) /\ is_Some (c.2 !! b)) cache ->
    exists pushed,
      push_steps prior b cache = Some pushed
      /\ (length pushed <= length cache)%nat
      /\ (forall t tr, pushed !! t = Some tr ->
            exists mask batch_rewards m r,
              cache !! t = Some (mask, batch_rewards)
              /\ mask !! b = Some m
              /\ batch_rewards !! b = Some r
              /\ tr = {| is_prior := prior; reward := r; is_final := Qeq_bool m 0 |})
      /\ (forall t tr, pushed !! t = Some tr -> is_final tr = true ->
            length pushed = S t)
      /\ ((forall t tr, pushed !! t = Some tr -> is_final tr = false) ->
          length pushed = length cache).
Proof.
  induction cache as [|[mask rw] cache IH]; intros Hall; cbn [push_steps].
  - exists []. split; [done|]. split; [done|]. split; [done|]. split; done.
  - inversion Hall as [|? ? [[m Hm] [r Hr]] Hrest]; subst. simpl in Hm, Hr.
    rewrite Hm, Hr. cbn [mbind option_bind].
    destruct (Qeq_bool m 0) eqn:Hz.
    + eexists. split; [done|]. split; [simpl; lia|]. split; [|split].
      * intros [|t] tr Ht; [|done]. injection Ht as <-.
        exists mask, rw, m, r. rewrite Hz. done.
      * intros [|t] tr Ht _; [done|done].
      * intros Hnone. specialize (Hnone 0%nat _ eq_refl). done.
    + destruct (IH Hrest) as (pushed & -> & Hlen & Hsteps & Hfinal & Hnone).
      cbn [mbind option_bind]. eexists. split; [done|].
      split; [simpl; lia|]. split; [|split].
      * intros [|t] tr Ht.
        -- injection Ht as <-. exists mask, rw, m, r. rewrite Hz. done.
        -- apply (Hsteps t tr Ht).
      * intros [|t] tr Ht Hfin.
        -- injection Ht as <-. simpl in Hfin. done.
        -- simpl. f_equal. apply (Hfinal t tr Ht Hfin).
      * intros Hno. simpl. f_equal. apply Hnone.
        intros t tr Ht. apply (Hno (S t) tr Ht).
Qed.

Lemma column_spec {A : Type} (rows cols : nat) (m : list (list A)) (j : nat) :
  has_shape rows cols m ->
  (j < cols)%nat ->
  exists c, column j m = Some c /\ length c = rows /\ forall i, c !! i = entry m i j.
Proof.
  intros [Hl Hall] Hj. unfold column.
  destruct (mapM (fun row => row !! j) m) as [c|] eqn:Ec.
  - exists c. pose proof (length_mapM _ _ _ Ec) as Hlc.
    split; [done|]. split; [lia|]. intros i. unfold entry.
    apply mapM_Some_1 in Ec.
    destruct (m !! i) as [row|] eqn:Hrow; cbn [mbind option_bind].
    + destruct (Forall2_lookup_l _ _ _ _ _ Ec Hrow) as (y & -> & Hy). done.
    + apply lookup_ge_None. apply lookup_ge_None in Hrow. lia.
  - apply mapM_None_1, Exists_exists in Ec as (row & Hin & Hnone).
    rewrite Forall_forall in Hall. specialize (Hall row Hin).
    apply lookup_ge_None in Hnone. lia.
Qed.

Section Rewards.
Variable cfg : Settings.
Variable r : Rollout.
Variable sufficient_info_reward_np : list (list Q).
Variable steps batch : nat.
Hypothesis steps_pos : (0 < steps)%nat.
Hypothesis batch_pos : (0 < batch)%nat.
Hypothesis masks_shape : has_shape steps batch (masks r).
Hypothesis counting_shape : has_shape steps batch (counting_rewards r).
Hypothesis valid_shape : has_shape steps batch (valid_command_rewards r).
Hypothesis sufficient_shape : has_shape batch steps sufficient_info_reward_np.

(** The shaped reward of game [b] at step [t], before the intrinsic
    reward is added. *)
Lemma command_rewards_np_spec :
  exists m,
    command_rewards_np cfg sufficient_info_reward_np r = Some m
    /\ has_shape batch steps m
    /\ forall b t,
         entry m b t
         = (s ← entry sufficient_info_reward_np b t;
            c ← entry (counting_rewards r) t b;
            k ← entry (masks r) t b;
            v ← entry (valid_command_rewards r) t b;
            Some (s + c * k * revisit_counting_lambda cfg
                  + v * k * valid_command_bonus_lambda cfg)).
Proof.
  unfold command_rewards_np.
  rewrite (stack_shape steps batch) by done. cbn [mbind option_bind].
  destruct (transpose_spec steps batch (masks r)) as (mT & -> & HmT & EmT); [done..|].
  cbn [mbind option_bind].
  destruct (transpose_spec steps batch (counting_rewards r)) as (cT & -> & HcT & EcT);
    [done..|].
  cbn [mbind option_bind].
  destruct (transpose_spec steps batch (valid_command_rewards r)) as (vT & -> & HvT & EvT);
    [done..|].
  cbn [mbind option_bind].
  destruct (matrix_op_spec Qmult batch steps cT mT) as (cm & -> & Hcm & Ecm); [done..|].
  cbn [mbind option_bind].
  destruct (matrix_op_spec Qmult batch steps vT mT) as (vm & -> & Hvm & Evm); [done..|].
  cbn [mbind option_bind].
  destruct (matrix_op_spec Qplus batch steps sufficient_info_reward_np
              (map (map (fun x => x * revisit_counting_lambda cfg)) cm))
    as (sh & -> & Hsh & Esh); [done|by apply has_shape_map_map|].
  cbn [mbind option_bind].
  destruct (matrix_op_spec Qplus batch steps sh
              (map (map (fun x => x * valid_command_bonus_lambda cfg)) vm))
    as (m & -> & Hm & Em); [done|by apply has_shape_map_map|].
  exists m. split; [done|]. split; [done|].
  intros b t. rewrite Em, Esh, !entry_map_map, Ecm, Evm, EcT, EmT, EvT.
  destruct (entry sufficient_info_reward_np b t); cbn; [|done].
  destruct (entry (counting_rewards r) t b); cbn; [|done].
  destruct (entry (masks r) t b); cbn; [|done].
  destruct (entry (valid_command_rewards r) t b); cbn; done.
Qed.

(** The same with the masked intrinsic reward, when it is enabled. *)
Lemma command_rewards_spec (intrinsic_rewards : list (list Q)) :
  ((icm cfg && use_intrinsic_reward cfg)%bool = true ->
   has_shape batch steps intrinsic_rewards) ->
  exists m,
    command_rewards cfg sufficient_info_reward_np intrinsic_rewards r = Some m
    /\ has_shape batch steps m
    /\ forall b t,
         entry m b t
         = (s ← entry sufficient_info_reward_np b t;
            c ← entry (counting_rewards r) t b;
            k ← entry (masks r) t b;
            v ← entry (valid_command_rewards r) t b;
            let shaped := s + c * k * revisit_counting_lambda cfg
                          + v * k * valid_command_bonus_lambda cfg in
            if (icm cfg && use_intrinsic_reward cfg)%bool
            then x ← entry intrinsic_rewards b t; Some (shaped + x * k)
            else Some shaped).
Proof.
  intros Hintr. unfold command_rewards.
  destruct command_rewards_np_spec as (np & -> & Hnp & Enp).
  cbn [mbind option_bind].
  destruct (icm cfg && use_intrinsic_reward cfg)%bool eqn:Hon.
  - specialize (Hintr eq_refl).
    rewrite (stack_shape steps batch (masks r)) by done. cbn [mbind option_bind].
    destruct (transpose_spec steps batch (masks r)) as (mT & -> & HmT & EmT); [done..|].
    cbn [mbind option_bind].
    rewrite (stack_shape batch steps intrinsic_rewards) by done.
    cbn [mbind option_bind].
    destruct (matrix_op_spec Qmult batch steps intrinsic_rewards mT)
      as (im & -> & Him & Eim); [done..|].
    cbn [mbind option_bind].
    destruct (matrix_op_spec Qplus batch steps np im) as (m & -> & Hm & Em); [done..|].
    exists m. split; [done|]. split; [done|].
    intros b t. rewrite Em, Enp, Eim, EmT.
    destruct (entry sufficient_info_reward_np b t); cbn; [|done].
    destruct (entry (counting_rewards r) t b); cbn; [|done].
    destruct (entry (masks r) t b); cbn; [|done].
    destruct (entry (valid_command_rewards r) t b); cbn; [|done].
    destruct (entry intrinsic_rewards b t); cbn; done.
  - exists np. split; [done|]. split; [done|].
    intros b t. rewrite Enp.
    destruct (entry sufficient_info_reward_np b t); cbn; [|done].
    destruct (entry (counting_rewards r) t b); cbn; [|done].
    destruct (entry (masks r) t b); cbn; [|done].
    destruct (entry (valid_command_rewards r) t b); cbn; done.
Qed.

(** The cache after the rewards are attached: every cached step with its
    mask and the rewards of the step for all games. *)
Lemma attach_rewards_spec (rewards_np rewards : list (list Q)) :
  has_shape batch steps rewards_np ->
  has_shape batch steps rewards ->
  exists cache,
    attach_rewards (masks r) rewards_np rewards = Some cache
    /\ length cache = steps
    /\ forall t c, cache !! t = Some c ->
         masks r !! t = Some c.1
         /\ length c.2 = batch
         /\ forall b, c.2 !! b = entry rewards b t.
Proof.
  intros Hnp Hrw. unfold attach_rewards.
  destruct rewards_np as [|row0 rest] eqn:E.
  { destruct Hnp as [Hl _]. simpl in Hl. lia. }
  assert (Hrow0 : length row0 = steps).
  { destruct Hnp as [_ Hall]. inversion Hall; done. }
  cbn [head mbind option_bind]. rewrite Hrow0.
  destruct masks_shape as [Hlm Hallm].
  destruct (mapM _ (seq 0 steps)) as [cache|] eqn:Ec.
  - cbn [mbind option_bind]. rewrite decide_True by lia.
    exists cache. split; [done|].
    pose proof (length_mapM _ _ _ Ec) as Hlc. rewrite length_seq in Hlc.
    split; [done|]. intros t c Hc.
    destruct (mapM_lookup_r _ _ _ _ _ Ec Hc) as (t' & Ht' & Hf).
    apply lookup_seq in Ht' as [-> Ht]. simpl in Hf.
    destruct (masks r !! t) as [mask|] eqn:Hmask; cbn [mbind option_bind] in Hf; [|done].
    destruct (column_spec batch steps rewards t Hrw Ht) as (col & Hcol & Hlcol & Ecol).
    rewrite Hcol in Hf. cbn [mbind option_bind] in Hf. injection Hf as <-.
    done.
  - apply mapM_None_1, Exists_exists in Ec as (t0 & Hin & Hnone).
    apply list_elem_of_lookup_1 in Hin as (t & Ht').
    apply lookup_seq in Ht' as [-> Ht]. simpl in *.
    destruct (lookup_lt_is_Some_2 (masks r) t) as [mask Hmask]; [lia|].
    rewrite Hmask in Hnone. cbn [mbind option_bind] in Hnone.
    destruct (column_spec batch steps rewards t Hrw Ht) as (col & Hcol & _).
    rewrite Hcol in Hnone. done.
Qed.

(** The pushes of an episode: one list per game, whose transitions follow
    the cached steps with the game's reward and mask entry, end at the
    first final transition, and cover every cached step when none is
    final. *)
Lemma pushes_spec (intrinsic_rewards : list (list Q)) :
  batch = batch_size cfg ->
  ((icm cfg && use_intrinsic_reward cfg)%bool = true ->
   has_shape batch steps intrinsic_rewards) ->
  exists rewards all,
    command_rewards cfg sufficient_info_reward_np intrinsic_rewards r = Some rewards
    /\ pushes cfg sufficient_info_reward_np intrinsic_rewards r = Some all
    /\ length all = batch
    /\ forall b pushed, all !! b = Some pushed ->
         (length pushed <= steps)%nat
         /\ (forall t tr, pushed !! t = Some tr ->
               entry rewards b t = Some (reward tr)
               /\ exists m, entry (masks r) t b = Some m
                            /\ is_final tr = Qeq_bool m 0)
         /\ (forall t tr, pushed !! t = Some tr -> is_final tr = true ->
               length pushed = S t)
         /\ ((forall t tr, pushed !! t = Some tr -> is_final tr = false) ->
             length pushed = steps).
Proof.
  intros Hbatch Hintr. unfold pushes.
  destruct command_rewards_np_spec as (np & Hnp & Hnps & _). rewrite Hnp.
  cbn [mbind option_bind].
  destruct (command_rewards_spec intrinsic_rewards Hintr) as (rw & Hrw & Hrws & _).
  rewrite Hrw. cbn [mbind option_bind].
  destruct (attach_rewards_spec np rw Hnps Hrws) as (cache & -> & Hlc & Hcache).
  cbn [mbind option_bind].
  assert (Hgame : forall b, (b < batch)%nat ->
            exists prior pushed,
              push_game np cache b = Some pushed
              /\ push_steps prior b cache = Some pushed).
  { intros b Hb. unfold push_game.
    destruct (lookup_lt_is_Some_2 np b) as [row ->]; [destruct Hnps; lia|].
    cbn [mbind option_bind].
    destruct (push_steps_spec (negb (Qle_bool (Qsum row) 0)) b cache) as (pushed & Hp & _).
    { apply Forall_lookup_2. intros t c Hc.
      destruct (Hcache t c Hc) as (Hmask & Hlen & _).
      split; apply lookup_lt_is_Some_2; [|lia].
      rewrite (has_shape_row _ _ _ _ _ masks_shape Hmask). done. }
    eauto. }
  destruct (mapM (push_game np cache) (seq 0 (batch_size cfg))) as [all|] eqn:Eall.
  2:{ apply mapM_None_1, Exists_exists in Eall as (b0 & Hin & Hnone).
      apply list_elem_of_lookup_1 in Hin as (b & Hb').
      apply lookup_seq in Hb' as [-> Hb]. simpl in *.
      destruct (Hgame b) as (? & ? & Hsome & _); [lia|]. congruence. }
  exists rw, all. split; [done|]. split; [done|].
  pose proof (length_mapM _ _ _ Eall) as Hlall. rewrite length_seq in Hlall.
  split; [lia|]. intros b pushed Hpushed.
  destruct (mapM_lookup_r _ _ _ _ _ Eall Hpushed) as (b' & Hb' & Hrun).
  apply lookup_seq in Hb' as [-> Hb]. simpl in Hrun.
  destruct (Hgame b) as (prior & pushed' & Hsome & Hsteps); [lia|].
  rewrite Hrun in Hsome. injection Hsome as <-.
  destruct (push_steps_spec prior b cache) as (pushed' & Hp & Hlen & Hstep & Hfin & Hall).
  { apply Forall_lookup_2. intros t c Hc.
    destruct (Hcache t c Hc) as (Hmask & Hl & _).
    split; apply lookup_lt_is_Some_2; [|lia].
    rewrite (has_shape_row _ _ _ _ _ masks_shape Hmask). lia. }
  rewrite Hsteps in Hp. injection Hp as <-.
  split; [lia|]. split; [|split; [done|]].
  - intros t tr Ht.
    destruct (Hstep t tr Ht) as (mask & brw & m & x & Hc & Hm & Hx & ->).
    destruct (Hcache t _ Hc) as (Hmask & _ & Hent). simpl in *.
    split; [by rewrite <- Hent|].
    exists m. split; [|done]. unfold entry. rewrite Hmask. done.
  - intros Hno. rewrite (Hall Hno). done.
Qed.

End Rewards.

(** C6: for every game [b] of the batch transitions are pushed: one for
    every step up to and including the first step whose game-running mask
    is 0 for the game (for every step when there is none), so at least
    one.  The reward stored in the transition pushed for game [b] at step
    [t] is the shaped reward: the sufficient-information reward, plus the
    counting bonus times the game-running mask times
    [revisit_counting_lambda], plus the valid-command bonus times the mask
    times [valid_command_bonus_lambda], plus, when the curiosity module and
    its intrinsic reward are enabled, the intrinsic reward times the
    mask. *)
Theorem C6_pushed_reward_is_shaped (cfg : Settings) (r : Rollout)
    (sufficient_info_reward_np intrinsic_rewards : list (list Q)) (steps : nat) :
  (0 < steps)%nat ->
  (0 < batch_size cfg)%nat ->
  has_shape steps (batch_size cfg) (masks r) ->
  has_shape steps (batch_size cfg) (counting_rewards r) ->
  has_shape steps (batch_size cfg) (valid_command_rewards r) ->
  has_shape (batch_size cfg) steps sufficient_info_reward_np ->
  ((icm cfg && use_intrinsic_reward cfg)%bool = true ->
   has_shape (batch_size cfg) steps intrinsic_rewards) ->
  exists all,
    pushes cfg sufficient_info_reward_np intrinsic_rewards r = Some all
    /\ length all = batch_size cfg
    /\ forall b : nat,
         (b < batch_size cfg)%nat ->
         exists pushed,
           all !! b = Some pushed
           /\ (0 < length pushed <= steps)%nat
           /\ (forall t, (S t < length pushed)%nat ->
                 exists k, entry (masks r) t b = Some k /\ ~ k == 0)
           /\ ((length pushed < steps)%nat ->
               exists k, entry (masks r) (pred (length pushed)) b = Some k /\ k == 0)
           /\ forall t : nat,
                (t < length pushed)%nat ->
                exists (tr : Transition) (s c k v : Q),
                  pushed !! t = Some tr
                  /\ entry sufficient_info_reward_np b t = Some s
                  /\ entry (counting_rewards r) t b = Some c
                  /\ entry (masks r) t b = Some k
                  /\ entry (valid_command_rewards r) t b = Some v
                  /\ if (icm cfg && use_intrinsic_reward cfg)%bool
                     then exists x,
                            entry intrinsic_rewards b t = Some x
                            /\ reward tr = s + c * k * revisit_counting_lambda cfg
                                           + v * k * valid_command_bonus_lambda cfg
                                           + x * k
                     else reward tr = s + c * k * revisit_counting_lambda cfg
                                      + v * k * valid_command_bonus_lambda cfg.
Proof.
  intros Hsteps Hbatch Hm Hc Hv Hs Hi.
  destruct (pushes_spec cfg r sufficient_info_reward_np steps (batch_size cfg)
              Hsteps Hbatch Hm Hc Hv Hs intrinsic_rewards eq_refl Hi)
    as (rw & all & Hrw & Hall & Hlen & Hgames).
  destruct (command_rewards_spec cfg r sufficient_info_reward_np steps (batch_size cfg)
              Hsteps Hbatch Hm Hc Hv Hs intrinsic_rewards Hi)
    as (rw' & Hrw' & _ & Hent).
  rewrite Hrw in Hrw'. injection Hrw' as <-.
  exists all. split; [done|]. split; [done|].
  intros b Hb.
  destruct (lookup_lt_is_Some_2 all b) as [pushed Hp]; [lia|].
  exists pushed. split; [done|].
  destruct (Hgames b pushed Hp) as (Hle & Hstep & Hfin & Hnone).
  assert (Hrun : forall t, (S t < length pushed)%nat ->
            exists tr k, pushed !! t = Some tr /\ entry (masks r) t b = Some k
                         /\ ~ k == 0 /\ is_final tr = false).
  { intros t Ht. destruct (lookup_lt_is_Some_2 pushed t) as [tr Htr]; [lia|].
    destruct (Hstep t tr Htr) as (_ & k & Hk & Hf).
    exists tr, k. split; [done|]. split; [done|].
    destruct (is_final tr) eqn:Ef.
    - specialize (Hfin t tr Htr Ef). lia.
    - split; [|done]. intros Hz. apply Qeq_bool_iff in Hz. congruence. }
  assert (Hpos : (0 < length pushed)%nat).
  { destruct pushed as [|tr pushed]; [|simpl; lia].
    rewrite <- Hnone in Hsteps; [done|]. intros t tr Ht. done. }
  split; [lia|]. split; [|split].
  - intros t Ht. destruct (Hrun t Ht) as (tr & k & _ & Hk & Hnz & _). eauto.
  - intros Hshort.
    destruct (lookup_lt_is_Some_2 pushed (pred (length pushed))) as [tr Htr]; [lia|].
    destruct (Hstep _ tr Htr) as (_ & k & Hk & Hf).
    exists k. split; [done|]. apply Qeq_bool_iff. rewrite <- Hf.
    destruct (is_final tr) eqn:Ef; [done|]. exfalso.
    assert (length pushed = steps); [|lia]. apply Hnone.
    intros t tr' Ht'.
    destruct (decide (S t < length pushed)%nat) as [Hlt|Hge].
    + destruct (Hrun t Hlt) as (tr'' & _ & Htr'' & _ & _ & Hnf). congruence.
    + apply lookup_lt_Some in Ht' as Hlt.
      replace t with (pred (length pushed)) in Ht' by lia. congruence.
  - intros t Ht. destruct (lookup_lt_is_Some_2 pushed t Ht) as [tr Htr].
    destruct (Hstep t tr Htr) as (Hreward & _).
    rewrite Hent in Hreward.
    destruct (entry sufficient_info_reward_np b t) as [s|];
      cbn [mbind option_bind] in Hreward; [|done].
    destruct (entry (counting_rewards r) t b) as [c|];
      cbn [mbind option_bind] in Hreward; [|done].
    destruct (entry (masks r) t b) as [k|];
      cbn [mbind option_bind] in Hreward; [|done].
    destruct (entry (valid_command_rewards r) t b) as [v|];
      cbn [mbind option_bind] in Hreward; [|done].
    exists tr, s, c, k, v. do 5 (split; [done|]). cbv zeta in Hreward.
    destruct (icm cfg && use_intrinsic_reward cfg)%bool.
    + destruct (entry intrinsic_rewards b t) as [x|];
        cbn [mbind option_bind] in Hreward; [|done].
      exists x. split; [done|]. congruence.
    + congruence.
Qed.

Lemma C6_pushed_reward_is_shaped_witness :
  exists all pushed tr,
    pushes
      {| batch_size := 1; max_nb_steps_per_episode := 2;
         revisit_counting_lambda := 1 # 2; valid_command_bonus_lambda := 1 # 4;
         icm := false; use_intrinsic_reward := false |}
      [[2; 3]] []
      {| masks := [[1]; [0]]; counting_rewards := [[1]; [1]];
         valid_command_rewards := [[1]; [0]] |}
    = Some all
    /\ all !! 0%nat = Some pushed
    /\ pushed !! 0%nat = Some tr
    /\ reward tr = 2 + 1 * 1 * (1 # 2) + 1 * 1 * (1 # 4).
Proof.
  destruct (C6_pushed_reward_is_shaped
              {| batch_size := 1; max_nb_steps_per_episode := 2;
                 revisit_counting_lambda := 1 # 2; valid_command_bonus_lambda := 1 # 4;
                 icm := false; use_intrinsic_reward := false |}
              {| masks := [[1]; [0]]; counting_rewards := [[1]; [1]];
                 valid_command_rewards := [[1]; [0]] |}
              [[2; 3]] [] 2)
    as (all & Hrun & _ & Hgames).
  - simpl. lia.
  - simpl. lia.
  - split; [reflexivity|]. repeat constructor.
  - split; [reflexivity|]. repeat constructor.
  - split; [reflexivity|]. repeat constructor.
  - split; [reflexivity|]. repeat constructor.
  - simpl. discriminate.
  - destruct (Hgames 0%nat) as (pushed & Hp & [Hpos _] & _ & _ & Hreward);
      [simpl; lia|].
    destruct (Hreward 0%nat Hpos) as (tr & s & c & k & v & Ht & Es & Ec & Ek & Ev & Hr).
    exists all, pushed, tr. split; [exact Hrun|]. split; [exact Hp|].
    split; [exact Ht|].
    injection Es as <-. injection Ec as <-. injection Ek as <-. injection Ev as <-.
    exact Hr.
Defined.

Lemma last_entry_zero (masks : list (list Q)) (last_mask : list Q) (b : nat) (m : Q) :
  last masks = Some last_mask ->
  Forall (fun x => x == 0) last_mask ->
  entry masks (pred (length masks)) b = Some m ->
  m == 0.
Proof.
  intros Hlast Hzero Hm. rewrite last_lookup in Hlast.
  unfold entry in Hm. rewrite Hlast in Hm. cbn [mbind option_bind] in Hm.
  exact (Forall_lookup_1 _ _ _ _ Hzero Hm).
Qed.

(** A list of pushes that ends at its first final transition and reaches
    a final one splits into transitions that are not final and a last one
    that is. *)
Lemma final_is_last (pushed : list Transition) (steps : nat) :
  (forall t tr, pushed !! t = Some tr -> is_final tr = true -> length pushed = S t) ->
  ((forall t tr, pushed !! t = Some tr -> is_final tr = false) -> length pushed = steps) ->
  (forall tr, pushed !! pred steps = Some tr -> is_final tr = true) ->
  (0 < steps)%nat ->
  exists earlier last_tr,
    pushed = earlier ++ [last_tr]
    /\ is_final last_tr = true
    /\ Forall (fun tr => is_final tr = false) earlier.
Proof.
  intros Hfin Hall Hend Hsteps.
  assert (Hex : exists t tr, pushed !! t = Some tr /\ is_final tr = true).
  { destruct (existsb is_final pushed) eqn:E.
    - apply existsb_exists in E as (tr & Hin & Htr).
      apply list_elem_of_In, list_elem_of_lookup_1 in Hin as (t & Ht). eauto.
    - assert (Hno : forall t tr, pushed !! t = Some tr -> is_final tr = false).
      { intros t tr Ht. destruct (is_final tr) eqn:Ef; [|done].
        assert (existsb is_final pushed = true); [|congruence].
        apply existsb_exists. exists tr. split; [|done].
        apply list_elem_of_In. by eapply list_elem_of_lookup_2. }
      specialize (Hall Hno).
      destruct (lookup_lt_is_Some_2 pushed (pred steps)) as [tr Htr]; [lia|].
      specialize (Hend tr Htr). specialize (Hno _ _ Htr). congruence. }
  destruct Hex as (t & tr & Ht & Htr).
  pose proof (Hfin t tr Ht Htr) as Hlen.
  exists (take t pushed), tr. split; [|split; [done|]].
  - rewrite <- (take_S_r _ _ _ Ht). rewrite <- Hlen. symmetry. apply firstn_all.
  - apply Forall_lookup_2. intros t' tr' Ht'.
    apply lookup_take_Some in Ht' as [Ht' Hlt].
    destruct (is_final tr') eqn:Ef; [|done].
    specialize (Hfin t' tr' Ht' Ef). lia.
Qed.

(** C7: for every game of the batch, the transitions pushed for its
    trajectory are final exactly at the last one: the pushes stop at the
    first step whose interaction mask is 0 for the game, and such a step
    exists, because the step loop ends with a mask that is zero for all
    games, forced to zero at the step limit. *)
Theorem C7_is_final_exactly_last (shares_memory : bool)
    (commands_at : nat -> list string) (c_rewards_at vc_rewards_at : nat -> list Q)
    (cfg : Settings) :
  (0 < max_nb_steps_per_episode cfg)%nat ->
  (0 < batch_size cfg)%nat ->
  (forall t, length (commands_at t) = batch_size cfg) ->
  (forall t, length (c_rewards_at t) = batch_size cfg) ->
  (forall t, length (vc_rewards_at t) = batch_size cfg) ->
  exists (r : Rollout) (steps : nat),
    rollout shares_memory commands_at c_rewards_at vc_rewards_at cfg = Some r
    /\ length (masks r) = steps
    /\ (0 < steps <= max_nb_steps_per_episode cfg)%nat
    /\ (steps = max_nb_steps_per_episode cfg ->
        last (masks r) = Some (replicate (batch_size cfg) 0))
    /\ forall sufficient_info_reward_np intrinsic_rewards : list (list Q),
         has_shape (batch_size cfg) steps sufficient_info_reward_np ->
         ((icm cfg && use_intrinsic_reward cfg)%bool = true ->
          has_shape (batch_size cfg) steps intrinsic_rewards) ->
         exists all,
           pushes cfg sufficient_info_reward_np intrinsic_rewards r = Some all
           /\ length all = batch_size cfg
           /\ forall (b : nat) (pushed : list Transition),
                all !! b = Some pushed ->
                exists earlier last_tr,
                  pushed = earlier ++ [last_tr]
                  /\ is_final last_tr = true
                  /\ Forall (fun tr => is_final tr = false) earlier
                  /\ (exists m, entry (masks r) (length earlier) b = Some m /\ m == 0)
                  /\ forall t, (t < length earlier)%nat ->
                       exists m, entry (masks r) t b = Some m /\ ~ m == 0.
Proof.
  intros Hmax Hbatch Hcmd Hc Hv.
  destruct (step_loop_spec shares_memory commands_at c_rewards_at vc_rewards_at cfg Hcmd
              (max_nb_steps_per_episode cfg) 0 (init (batch_size cfg))
              {| cached := []; c_rewards := []; vc_rewards := [] |})
    as (new & st' & last_mask & Hrun & _ & Hnew & Hlast & Hzero & Hlen & Hfull);
    [lia|lia|apply init_ok|].
  cbn [cached c_rewards vc_rewards app] in Hrun.
  unfold rollout. rewrite Hrun. cbn [mbind option_bind cached c_rewards vc_rewards].
  set (ms := map (read_mask st') new) in *.
  assert (Hlms : length ms = length new) by (unfold ms; apply length_map).
  rewrite <- Hlms in *.
  eexists _, (length ms). split; [reflexivity|]. cbn [masks].
  assert (Hpos : (0 < length ms)%nat).
  { destruct ms; [done|simpl; lia]. }
  split; [done|]. split; [lia|]. split.
  { intros Hsteps. rewrite Hlast. f_equal. by apply Hfull. }
  intros suff intr Hsuff Hintr.
  assert (Hmasks : has_shape (length ms) (batch_size cfg) ms).
  { split; [done|]. eapply Forall_impl; [exact Hnew|]. by intros m [Hl _]. }
  assert (Hseq : forall (f : nat -> list Q), (forall t, length (f t) = batch_size cfg) ->
            has_shape (length ms) (batch_size cfg) (map f (seq 0 (length ms)))).
  { intros f Hf. split; [by rewrite length_map, length_seq|].
    apply Forall_fmap, Forall_true. intros t. apply Hf. }
  destruct (pushes_spec cfg
              {| masks := ms;
                 counting_rewards := map c_rewards_at (seq 0 (length ms));
                 valid_command_rewards := map vc_rewards_at (seq 0 (length ms)) |}
              suff (length ms) (batch_size cfg) Hpos Hbatch Hmasks
              (Hseq _ Hc) (Hseq _ Hv) Hsuff intr eq_refl Hintr)
    as (rw & all & _ & Hall & Hlall & Hgames).
  exists all. split; [done|]. split; [done|].
  intros b pushed Hpushed.
  destruct (Hgames b pushed Hpushed) as (Hle & Hstep & Hfin & Hnone).
  cbn [masks] in Hstep.
  destruct (final_is_last pushed (length ms) Hfin Hnone) as (earlier & last_tr & -> & Hl & He).
  { intros tr Htr. destruct (Hstep _ _ Htr) as (_ & m & Hm & ->).
    apply Qeq_bool_iff. by eapply last_entry_zero. }
  { done. }
  exists earlier, last_tr. split; [done|]. split; [done|]. split; [done|]. split.
  - destruct (Hstep (length earlier) last_tr) as (_ & m & Hm & Hf).
    { rewrite lookup_app_r by lia. rewrite Nat.sub_diag. done. }
    exists m. split; [done|]. apply Qeq_bool_iff. congruence.
  - intros t Ht. destruct (lookup_lt_is_Some_2 earlier t Ht) as [tr Htr].
    destruct (Hstep t tr) as (_ & m & Hm & Hf).
    { rewrite lookup_app_l by lia. done. }
    exists m. split; [done|]. intros Hz. apply Qeq_bool_iff in Hz.
    pose proof (Forall_lookup_1 _ _ _ _ He Htr) as Hnf. simpl in Hnf. congruence.
Qed.

Lemma C7_is_final_exactly_last_witness :
  exists (r : Rollout) (steps : nat),
    rollout true (fun _ => ["go east"%string; "wait"%string]) (fun _ => [1; 0])
      (fun _ => [1; 1])
      {| batch_size := 2; max_nb_steps_per_episode := 3;
         revisit_counting_lambda := 1 # 2; valid_command_bonus_lambda := 1 # 4;
         icm := false; use_intrinsic_reward := false |} = Some r
    /\ length (masks r) = steps
    /\ (0 < steps <= 3)%nat.
Proof.
  destruct (C7_is_final_exactly_last true
              (fun _ => ["go east"%string; "wait"%string]) (fun _ => [1; 0])
              (fun _ => [1; 1])
              {| batch_size := 2; max_nb_steps_per_episode := 3;
                 revisit_counting_lambda := 1 # 2;
                 valid_command_bonus_lambda := 1 # 4;
                 icm := false; use_intrinsic_reward := false |})
    as (r & steps & Hrun & Hlen & Hsteps & _).
  - simpl. lia.
  - simpl. lia.
  - intros t. reflexivity.
  - intros t. reflexivity.
  - intros t. reflexivity.
  - exists r, steps. split; [exact Hrun|]. split; [exact Hlen|]. exact Hsteps.
Defined.

End TrainFacts.

(** ** The categorical projection *)

Section ProjectionFacts.
Import DQN.

Lemma Qsum_insert (l : list Q) :
  forall (j : nat) (x v : Q),
    l !! j = Some x -> Qsum (<[j := x + v]> l) == Qsum l + v.
Proof.
  induction l as [|y l IH]; intros [|j] x v Hj; try done; simpl in *.
  - injection Hj as ->. ring.
  - rewrite (IH j x v Hj). ring.
Qed.









(** The two bins of a position [b] inside the support: they are
    neighbours and lie inside the support, so the two weights [u - b] and
    [b - l] add up to one; when [b] is an atom, the lower bin is moved down
    if the upper bin is above 0, and the upper bin is moved up otherwise. *)
Lemma bins_spec (atoms : nat) (b : Q) :
  (2 <= atoms)%nat ->
  0 <= b ->
  b <= inject_Z (Z.of_nat atoms - 1) ->
  let l := fst (bins atoms b) in
  let u := snd (bins atoms b) in
  (0 <= l)%Z /\ (u <= Z.of_nat atoms - 1)%Z /\ u = (l + 1)%Z
  /\ (Qfloor b = Qceiling b ->
      if (0 <? Qceiling b)%Z
      then l = (Qfloor b - 1)%Z /\ u = Qceiling b
      else l = Qfloor b /\ u = (Qceiling b + 1)%Z)
  /\ (Qfloor b <> Qceiling b -> l = Qfloor b /\ u = Qceiling b).
Proof.
  intros Hatoms H0 Hmax.
  assert (Hf0 : (0 <= Qfloor b)%Z).
  { change 0%Z with (Qfloor 0). by apply Qfloor_resp_le. }
  assert (Hcm : (Qceiling b <= Z.of_nat atoms - 1)%Z).
  { rewrite <- (Qceiling_Z (Z.of_nat atoms - 1)). by apply Qceiling_resp_le. }
  assert (Hfc : (Qfloor b <= Qceiling b)%Z).
  { rewrite Zle_Qle. apply Qle_floor_ceiling. }
  assert (Hcf : (Qceiling b <= Qfloor b + 1)%Z).
  { assert (H : (Qceiling b - 1 < Qfloor b + 1)%Z); [|lia].
    rewrite Zlt_Qlt. eapply Qlt_trans; [apply Qceiling_lt|apply Qlt_floor]. }
  unfold bins. cbv zeta.
  destruct (Z.ltb_spec 0 (Qceiling b)) as [Hu|Hu];
    destruct (Z.eqb_spec (Qfloor b) (Qceiling b)) as [He|He]; cbn [andb fst snd].
  - destruct (Z.eqb_spec (Qfloor b - 1) (Qceiling b)) as [He'|He']; [lia|].
    rewrite andb_false_r. cbn [fst snd].
    split; [lia|]. split; [lia|]. split; [lia|]. split; [intros _; lia|intros; lia].
  - rewrite (proj2 (Z.eqb_neq _ _) He), andb_false_r. cbn [fst snd].
    split; [lia|]. split; [lia|]. split; [lia|]. split; [intros; lia|intros; lia].
  - rewrite (proj2 (Z.eqb_eq _ _) He).
    rewrite (proj2 (Z.ltb_lt _ _)) by lia. cbn [andb fst snd].
    split; [lia|]. split; [lia|]. split; [lia|]. split; [intros _; lia|intros; lia].
  - lia.
Qed.


Section Support.
Variable cfg : Config.
Hypothesis atoms_ge : (2 <= atoms cfg)%nat.
Hypothesis v_range : v_min cfg < v_max cfg.

Lemma atoms_minus_one : inject_Z (Z.of_nat (atoms cfg)) - 1 == inject_Z (Z.of_nat (atoms cfg) - 1).
Proof. unfold Z.sub. rewrite inject_Z_plus. reflexivity. Qed.

Lemma atoms_minus_one_pos : 0 < inject_Z (Z.of_nat (atoms cfg)) - 1.
Proof.
  rewrite atoms_minus_one. change 0 with (inject_Z 0). rewrite <- Zlt_Qlt. lia.
Qed.

Lemma delta_z_pos : 0 < delta_z cfg.
Proof.
  unfold delta_z. apply Qlt_shift_div_l; [apply atoms_minus_one_pos|lra].
Qed.

(** The position of a clamped value inside the support. *)
Lemma position_range (x : Q) :
  let b := (clamp (v_min cfg) (v_max cfg) x - v_min cfg) / delta_z cfg in
  0 <= b /\ b <= inject_Z (Z.of_nat (atoms cfg) - 1).
Proof.
  cbv zeta. pose proof delta_z_pos as Hd.
  assert (Hc : v_min cfg <= clamp (v_min cfg) (v_max cfg) x <= v_max cfg).
  { unfold clamp. split.
    - apply Q.min_glb; [apply Q.le_max_r|lra].
    - apply Q.le_min_r. }
  split.
  - apply Qle_shift_div_l; [done|]. lra.
  - apply Qle_shift_div_r; [done|].
    rewrite <- atoms_minus_one. unfold delta_z.
    pose proof atoms_minus_one_pos as Ha.
    assert (Hne : ~ inject_Z (Z.of_nat (atoms cfg)) - 1 == 0) by lra.
    assert (Heq : (inject_Z (Z.of_nat (atoms cfg)) - 1)
                  * ((v_max cfg - v_min cfg) / (inject_Z (Z.of_nat (atoms cfg)) - 1))
                  == v_max cfg - v_min cfg) by (field; exact Hne).
    rewrite Heq. lra.
Qed.

End Support.






Lemma Qsum_zero (l : list Q) : Forall (fun x => x == 0) l -> Qsum l == 0.
Proof.
  induction 1 as [|x l Hx _ IH]; simpl; [reflexivity|]. rewrite Hx, IH. ring.
Qed.




Section Projection.
Variable cfg : Config.
Hypothesis atoms_ge : (2 <= atoms cfg)%nat.
Hypothesis v_range : v_min cfg < v_max cfg.



End Projection.





End ProjectionFacts.

(** ** The non-distributional target and loss *)

Section TargetFacts.
Import Command DQN.

Lemma stack_inv {A : Type} (rows st : list (list A)) :
  stack rows = Some st -> st = rows /\ rows <> [].
Proof.
  unfold stack. destruct rows as [|r rows]; [done|].
  destruct (forallb _ _); [|done]. intros [= <-]. done.
Qed.

Lemma ez_gather_dim_1_spec (w_rank : list (list Q)) (ix : list nat) (vs : list Q) :
  ez_gather_dim_1 w_rank ix = Some vs ->
  length vs = length ix
  /\ forall b v, vs !! b = Some v ->
       exists row k, w_rank !! b = Some row /\ ix !! b = Some k /\ row !! k = Some v.
Proof.
  unfold ez_gather_dim_1. case_decide as Hlen; [|done]. intros H. split.
  - apply length_mapM in H. rewrite length_zip_with in H. lia.
  - intros b v Hv. destruct (mapM_lookup_r _ _ _ _ _ H Hv) as ([row k] & Hz & Hk).
    apply lookup_zip_with_Some in Hz as (row' & k' & [= -> ->] & Hrow & Hix).
    eauto.
Qed.

Lemma gather_slots_spec (r : list (list (list Q))) (idx : list (list nat))
    (wq : list (list Q)) :
  gather_slots r idx = Some wq ->
  length wq = Nat.min (length r) (length idx)
  /\ forall s vs, wq !! s = Some vs ->
       exists w_rank ix, r !! s = Some w_rank /\ idx !! s = Some ix
                         /\ ez_gather_dim_1 w_rank ix = Some vs.
Proof.
  unfold gather_slots. intros H. split.
  - apply length_mapM in H. rewrite length_zip_with in H. lia.
  - intros s vs Hvs. destruct (mapM_lookup_r _ _ _ _ _ H Hvs) as ([w ix] & Hz & Hg).
    apply lookup_zip_with_Some in Hz as (w' & ix' & [= -> ->] & Hw & Hix).
    eauto.
Qed.

(** The averaged slot values are the mean, per batch row, of the gathered
    values of the slots. *)
Lemma slot_qvalues_spec (r : list (list (list Q))) (idx : list (list nat)) (q : list Q) :
  slot_qvalues (Values r) idx = Some (QScalar q) -> Spec.slot_average r idx q.
Proof.
  unfold slot_qvalues.
  destruct (gather_slots r idx) as [wq|] eqn:Hwq; [|done]. cbn [mbind option_bind].
  destruct (mean_over_slots wq) as [q'|] eqn:Hq; [|done]. cbn [mbind option_bind].
  intros [= <-]. unfold mean_over_slots in Hq.
  destruct (stack wq) as [st|] eqn:Hst; [|done]. cbn [mbind option_bind] in Hq.
  apply stack_inv in Hst as [-> Hne].
  destruct (head wq) as [row0|]; [|done]. cbn [mbind option_bind] in Hq.
  destruct (gather_slots_spec r idx wq Hwq) as (Hlen & Hslots).
  intros b v Hv.
  destruct (mapM_lookup_r _ _ _ _ _ Hq Hv) as (b' & Hb' & Hcol).
  apply lookup_seq in Hb' as [-> Hb]. simpl in Hcol.
  destruct (column b wq) as [col|] eqn:Hc; [|done]. cbn [mbind option_bind] in Hcol.
  injection Hcol as <-. exists col. split; [done|].
  unfold column in Hc. split.
  - apply length_mapM in Hc. lia.
  - intros s x Hx.
    destruct (mapM_lookup_r _ _ _ _ _ Hc Hx) as (vs & Hvs & Hvsb).
    destruct (Hslots s vs Hvs) as (w_rank & ix & Hw & Hix & Hg).
    destruct (ez_gather_dim_1_spec _ _ _ Hg) as (_ & Hrows).
    destruct (Hrows b x Hvsb) as (row & k & Hrow & Hk & Hrk).
    exists w_rank, ix, row, k. done.
Qed.

Lemma smooth_l1_spec (x y : Q) :
  (Qabs (x - y) < 1 -> smooth_l1 x y == (1 # 2) * (x - y) ^ 2)
  /\ (1 <= Qabs (x - y) -> smooth_l1 x y == Qabs (x - y) - (1 # 2)).
Proof.
  unfold smooth_l1. destruct (Qlt_le_dec (Qabs (x - y)) 1) as [Hlt|Hle]; split; intros H.
  - assert (Hsq : Qabs (x - y) * Qabs (x - y) == (x - y) * (x - y)).
    { rewrite <- Qabs_Qmult. apply Qabs_pos.
      destruct (Qlt_le_dec (x - y) 0); nra. }
    change ((x - y) ^ 2) with ((x - y) * (x - y)). rewrite <- Hsq. ring.
  - lra.
  - lra.
  - reflexivity.
Qed.

Section Networks.
Variable get_ranks :
  model -> list string -> list string -> list (list (list Q)) -> ranks.
Variable ln : Q -> Q.

(** The next Q-values of a batch, in the mode that is not distributional:
    the next actions are chosen on the scores of the online network under
    double DQN and of the target network otherwise, and valued by the
    target network. *)
Lemma next_q_value_spec (cfg : Config) (data : Batch)
    (next_masks : list (list (list Q))) (nq : list Q) :
  next_q_value get_ranks cfg data next_masks = Some (QScalar nq) ->
  exists (idx : list (list nat)) (r_target : list (list (list Q))),
    choose_maxQ_command (use_distributional cfg) (support cfg)
      (get_ranks (if double_dqn cfg then online else target)
         (next_obs_list data) (quest_list data) next_masks)
      (Some next_masks) = Some idx
    /\ get_ranks target (next_obs_list data) (quest_list data) next_masks
       = Values r_target
    /\ Spec.slot_average r_target idx nq.
Proof.
  unfold next_q_value. intros H.
  assert (Hrun : exists idx,
            choose_maxQ_command (use_distributional cfg) (support cfg)
              (get_ranks (if double_dqn cfg then online else target)
                 (next_obs_list data) (quest_list data) next_masks)
              (Some next_masks) = Some idx
            /\ slot_qvalues
                 (get_ranks target (next_obs_list data) (quest_list data) next_masks)
                 idx = Some (QScalar nq)).
  { destruct (double_dqn cfg);
      destruct (choose_maxQ_command _ _ _ _) as [idx|];
      cbn [mbind option_bind] in H; [eauto|done|eauto|done]. }
  destruct Hrun as (idx & Hidx & Hslot).
  destruct (get_ranks target _ _ _) as [r|r] eqn:Hr.
  - exists idx, r. split; [done|]. split; [done|]. by apply slot_qvalues_spec.
  - unfold slot_qvalues in Hslot.
    destruct (gather_slots r idx); cbn [mbind option_bind] in Hslot; [|done].
    destruct (mean_over_slots_dist _); cbn [mbind option_bind] in Hslot; done.
Qed.

(** C3, as amended: in non-distributional mode the target of every
    sampled batch element is [reward + gamma^actual_n * next_Q], with no
    factor for terminal transitions (the sampled batch carries no
    termination flag).  [next_Q] averages over the command slots the target
    network's values at the next actions, which [choose_maxQ_command]
    selects on the scores of the online network under double DQN and of the
    target network otherwise, under the word masks of the next step; the
    current Q averages over the slots the online network's values at the
    chosen indices of the batch.  The loss is the smooth L1 (Huber)
    distance between the current Q and this target, averaged over the
    batch. *)
Theorem C3_dqn_target_and_loss (cfg : Config) (data : Batch) (q nq : list Q) :
  use_distributional cfg = false ->
  q_values get_ranks cfg data = Some (QScalar q, QScalar nq) ->
  length (actual_n_list data) = length (rewards data) ->
  length nq = length (rewards data) ->
  length q = length (rewards data) ->
  exists tgt loss,
    bootstrap_target (rewards data) nq (discount cfg (actual_n_list data)) = Some tgt
    /\ (forall (b : nat) (r v : Q) (n : nat),
          rewards data !! b = Some r ->
          nq !! b = Some v ->
          actual_n_list data !! b = Some n ->
          exists t, tgt !! b = Some t
                    /\ t == r + Qpower (discount_gamma cfg) (Z.of_nat n) * v)
    /\ loss_of_batch get_ranks ln cfg data
       = Some (Curiosity.with_curiosity (icm cfg) loss)
    /\ loss = Qmean (zip_with smooth_l1 q tgt)
    /\ (forall x y : Q,
          (Qabs (x - y) < 1 -> smooth_l1 x y == (1 # 2) * (x - y) ^ 2)
          /\ (1 <= Qabs (x - y) -> smooth_l1 x y == Qabs (x - y) - (1 # 2)))
    /\ exists (possible_words next_possible_words
                 : list (list string) * list (list string) * list (list string))
              (masks next_masks : list (list (list Q)))
              (r_online r_target : list (list (list Q)))
              (next_word_indices : list (list nat)),
         slot_words (possible_words_list data) = Some possible_words
         /\ slot_words (next_possible_words_list data) = Some next_possible_words
         /\ get_local_word_masks (word_vocab cfg) possible_words = Some masks
         /\ get_local_word_masks (word_vocab cfg) next_possible_words
            = Some next_masks
         /\ get_ranks online (obs_list data) (quest_list data) masks
            = Values r_online
         /\ Spec.slot_average r_online (chosen_indices data) q
         /\ choose_maxQ_command false (support cfg)
              (get_ranks (if double_dqn cfg then online else target)
                 (next_obs_list data) (quest_list data) next_masks)
              (Some next_masks) = Some next_word_indices
         /\ get_ranks target (next_obs_list data) (quest_list data) next_masks
            = Values r_target
         /\ Spec.slot_average r_target next_word_indices nq.
Proof.
  intros Hmode Hq Hn Hnq Hql.
  assert (Hd : length (discount cfg (actual_n_list data)) = length (rewards data)).
  { unfold discount. rewrite length_map. done. }
  exists (zip_with Qplus (rewards data)
            (zip_with Qmult nq (discount cfg (actual_n_list data)))).
  eexists.
  assert (Htgt : bootstrap_target (rewards data) nq (discount cfg (actual_n_list data))
                 = Some (zip_with Qplus (rewards data)
                           (zip_with Qmult nq (discount cfg (actual_n_list data))))).
  { unfold bootstrap_target. rewrite tensor_op_Some by lia. cbn [mbind option_bind].
    rewrite tensor_op_Some; [done|]. rewrite length_zip_with. lia. }
  split; [exact Htgt|]. split.
  { intros b r v n Hr Hv Hnb. eexists. split.
    - rewrite lookup_zip_with, Hr. cbn [mbind option_bind].
      rewrite lookup_zip_with, Hv. cbn [mbind option_bind].
      unfold discount. rewrite list_lookup_fmap, Hnb. done.
    - assert (Hg : 1 * discount_gamma cfg == discount_gamma cfg) by ring.
      cbv beta. rewrite Hg. ring. }
  split.
  { unfold loss_of_batch. rewrite Hq. cbn [mbind option_bind].
    rewrite Hmode. cbn [negb]. rewrite Htgt. cbn [mbind option_bind].
    unfold smooth_l1_loss. rewrite tensor_op_Some.
    2:{ rewrite !length_zip_with. lia. }
    cbn [mbind option_bind]. reflexivity. }
  split; [reflexivity|]. split; [apply smooth_l1_spec|].
  unfold q_values in Hq.
  destruct (slot_words (possible_words_list data)) as [possible|] eqn:Hw;
    cbn [mbind option_bind] in Hq; [|done].
  destruct (slot_words (next_possible_words_list data)) as [next_possible|] eqn:Hw';
    cbn [mbind option_bind] in Hq; [|done].
  destruct (get_local_word_masks (word_vocab cfg) possible) as [masks|] eqn:Hm;
    cbn [mbind option_bind] in Hq; [|done].
  destruct (get_local_word_masks (word_vocab cfg) next_possible) as [next_masks|]
    eqn:Hm'; cbn [mbind option_bind] in Hq; [|done].
  destruct (slot_qvalues _ (chosen_indices data)) as [q_value|] eqn:Hcur;
    cbn [mbind option_bind] in Hq; [|done].
  destruct (next_q_value get_ranks cfg data next_masks) as [next_q|] eqn:Hnext;
    cbn [mbind option_bind] in Hq; [|done].
  injection Hq as -> ->.
  destruct (next_q_value_spec _ _ _ _ Hnext) as (idx & r_target & Hidx & Hrt & Havg).
  rewrite Hmode in Hidx.
  destruct (get_ranks online (obs_list data) (quest_list data) masks)
    as [r_online|r_online] eqn:Hro.
  - exists possible, next_possible, masks, next_masks, r_online, r_target, idx.
    do 5 (split; [done|]). split; [by apply slot_qvalues_spec|done].
  - unfold slot_qvalues in Hcur.
    destruct (gather_slots r_online _); cbn [mbind option_bind] in Hcur; [|done].
    destruct (mean_over_slots_dist _); cbn [mbind option_bind] in Hcur; done.
Qed.

End Networks.

Lemma C3_dqn_target_and_loss_witness :
  exists tgt loss,
    bootstrap_target [1] [6 # 3] [1 * (1 # 2)] = Some tgt
    /\ loss_of_batch
         (fun m _ _ _ =>
            match m with
            | online => Values [[[1; 0]]; [[1; 0]]; [[1; 0]]]
            | target => Values [[[2; 0]]; [[2; 0]]; [[2; 0]]]
            end)
         (fun x => x)
         {| discount_gamma := 1 # 2; replay_batch_size := 1; multi_step := 1;
            use_distributional := false; atoms := 2; v_min := 0; v_max := 1;
            double_dqn := true; DQN.icm := None;
            word_vocab := ["go"%string; "</s>"%string] |}
         {| obs_list := ["a hall"%string]; quest_list := ["where"%string];
            possible_words_list := [[["go"%string]; ["go"%string]; ["go"%string]]];
            chosen_indices := [[0%nat]; [0%nat]; [0%nat]];
            rewards := [1];
            next_obs_list := ["a cellar"%string];
            next_possible_words_list := [[["go"%string]; ["go"%string]; ["go"%string]]];
            actual_n_list := [1%nat] |}
       = Some loss.
Proof.
  destruct (C3_dqn_target_and_loss
              (fun m _ _ _ =>
                 match m with
                 | online => Values [[[1; 0]]; [[1; 0]]; [[1; 0]]]
                 | target => Values [[[2; 0]]; [[2; 0]]; [[2; 0]]]
                 end)
              (fun x => x)
              {| discount_gamma := 1 # 2; replay_batch_size := 1; multi_step := 1;
                 use_distributional := false; atoms := 2; v_min := 0; v_max := 1;
                 double_dqn := true; DQN.icm := None;
                 word_vocab := ["go"%string; "</s>"%string] |}
              {| obs_list := ["a hall"%string]; quest_list := ["where"%string];
                 possible_words_list := [[["go"%string]; ["go"%string]; ["go"%string]]];
                 chosen_indices := [[0%nat]; [0%nat]; [0%nat]];
                 rewards := [1];
                 next_obs_list := ["a cellar"%string];
                 next_possible_words_list :=
                   [[["go"%string]; ["go"%string]; ["go"%string]]];
                 actual_n_list := [1%nat] |}
              [3 # 3] [6 # 3])
    as (tgt & loss & Htgt & _ & Hloss & _).
  - reflexivity.
  - vm_compute. reflexivity.
  - reflexivity.
  - reflexivity.
  - reflexivity.
  - exists tgt, loss. split; [exact Htgt|exact Hloss].
Defined.

(** C3, the claim as stated, fails: for a sampled transition with reward
    1, [actual_n = 1], gamma = 0.5 and [next_Q = 2] the target that the loss
    uses is [1 + 2 * 0.5 = 2], also when the transition is terminal, where
    the claimed target is 1. *)
Lemma C3_terminal_target_not_masked : ~ Spec.terminal_masked_targets.
Proof.
  intros H.
  specialize (H {| discount_gamma := 1 # 2; replay_batch_size := 1; multi_step := 1;
                   use_distributional := false; atoms := 2; v_min := 0; v_max := 1;
                   double_dqn := true; DQN.icm := None;
                   word_vocab := [] |}
                [1] [2] [1%nat] [true] _ eq_refl
                0%nat 1 2 _ 1%nat true eq_refl eq_refl eq_refl eq_refl eq_refl).
  vm_compute in H. discriminate H.
Qed.

End TargetFacts.

(** * Further properties of the code *)

(** ** Commands as strings *)

Section WordsFacts.
Import Words.

Lemma append_nil_l (s : string) : EmptyString +:+ s = s.
Proof. reflexivity. Qed.

Lemma append_cons (c : Ascii.ascii) (s t : string) :
  String c s +:+ t = String c (s +:+ t).
Proof. reflexivity. Qed.

Lemma isspace_space :
  isspace (Ascii.Ascii false false false false false true false false) = true.
Proof. reflexivity. Qed.

(** Splitting after a space starts afresh. *)
Lemma split_from_app (s t tok : string) :
  split_from tok
    (s +:+ String (Ascii.Ascii false false false false false true false false) t)
  = split_from tok s ++ split_from EmptyString t.
Proof.
  revert tok. induction s as [|c s IH]; intros tok;
    rewrite ?append_nil_l, ?append_cons; cbn [split_from].
  - rewrite isspace_space. by destruct tok.
  - destruct (isspace c); [|apply IH].
    destruct tok; rewrite IH; done.
Qed.

Lemma pad_command_spec (command : string) :
  str_split (pad_command command)
  = str_split command
    ++ take (3 - length (str_split command)) ["</s>"; "<pad>"]%string.
Proof.
  unfold pad_command, str_split.
  destruct (split_from EmptyString command) as [|w1 [|w2 [|w3 rest]]] eqn:E;
    cbn [length Nat.ltb Nat.leb].
  - rewrite (split_from_app command "</s> <pad>"), E. reflexivity.
  - rewrite (split_from_app command "</s> <pad>"), E. reflexivity.
  - rewrite (split_from_app command "</s>"), E. reflexivity.
  - rewrite E. cbn [Nat.sub take]. by rewrite app_nil_r.
Qed.

(** X1: [pad_commands] keeps the words of every command and appends the
    filler words "</s>" and "<pad>" up to three words: a command of one or
    two words gets exactly three, a command of three or more words is left
    as it is, and a command without any word gets only the two filler
    words. *)
Theorem X1_pad_commands_words (commands : list string) (i : nat) (command : string) :
  commands !! i = Some command ->
  exists padded,
    pad_commands commands !! i = Some padded
    /\ str_split padded
       = str_split command
         ++ take (3 - length (str_split command)) ["</s>"; "<pad>"]%string
    /\ ((1 <= length (str_split command))%nat ->
        length (str_split padded) = Nat.max 3 (length (str_split command)))
    /\ (str_split command = [] -> str_split padded = ["</s>"; "<pad>"]%string).
Proof.
  intros Hc. exists (pad_command command). split.
  { unfold pad_commands. change (map ?f ?l) with (f <$> l).
    by rewrite list_lookup_fmap, Hc. }
  pose proof (pad_command_spec command) as Hs. split; [done|]. split.
  - intros Hn. rewrite Hs, length_app, length_take. simpl. lia.
  - intros He. rewrite Hs, He. reflexivity.
Qed.

Lemma X1_pad_commands_words_witness :
  exists padded,
    pad_commands ["go east"; "wait"]%string !! 1%nat = Some padded
    /\ str_split padded = ["wait"; "</s>"; "<pad>"]%string.
Proof.
  destruct (X1_pad_commands_words ["go east"; "wait"]%string 1 "wait"%string)
    as (padded & Hp & Hs & _).
  - reflexivity.
  - exists padded. split; [exact Hp|exact Hs].
Defined.

(** A command with a space in it is not "wait". *)
Lemma append_space_not_wait (v rest : string) :
  v +:+ String (Ascii.Ascii false false false false false true false false) rest
  <> "wait"%string.
Proof.
  destruct v as [|c1 [|c2 [|c3 [|c4 [|c5 v]]]]];
    rewrite ?append_cons, ?append_nil_l; intros [=].
Qed.

Lemma word_ids_to_commands_wait (word_vocab : list string) (verb adj noun : nat)
    (command : string) :
  word_ids_to_commands word_vocab verb adj noun = Some command ->
  command = "wait"%string <-> word_vocab !! verb = Some "wait"%string.
Proof.
  unfold word_ids_to_commands. intros H.
  destruct (Command.word2id word_vocab !! "</s>"%string) as [eos|];
    cbn [mbind option_bind] in H; [|done].
  destruct (word_vocab !! verb) as [v|]; cbn [mbind option_bind] in H; [|done].
  case_bool_decide as H1.
  { injection H as <-. split; [by intros ->|by intros [= ->]]. }
  assert (Hv : v <> "wait"%string).
  { intros ->. apply H1. unfold single_word_verbs.
    apply elem_of_cons. right. apply elem_of_cons. right. apply elem_of_cons. by left. }
  assert (Hjoin2 : forall n, str_join " " [v; n] <> "wait"%string).
  { intros n. cbn [str_join]. apply append_space_not_wait. }
  assert (Hjoin3 : forall a n, str_join " " [v; a; n] <> "wait"%string).
  { intros a n. cbn [str_join]. apply append_space_not_wait. }
  split; [|intros [= ->]; done].
  intros ->. exfalso.
  repeat case_bool_decide;
    repeat (match type of H with
            | context [?l !! ?i] => destruct (l !! i); cbn [mbind option_bind] in H
            end); try discriminate;
    injection H as H; first [exact (Hjoin2 _ H) | exact (Hjoin3 _ _ H)].
Qed.

(** X2: [get_chosen_strings] returns one command per game, and the command
    of a game is "wait" exactly when the chosen verb index points at the
    word "wait" of the vocabulary, whatever the adjective and noun indices
    are. *)
Theorem X2_chosen_strings_wait (word_vocab : list string)
    (chosen_indices : list (list nat)) (commands : list string) :
  get_chosen_strings word_vocab chosen_indices = Some commands ->
  exists verbs,
    chosen_indices !! 0%nat = Some verbs
    /\ length commands = length verbs
    /\ forall (b verb : nat),
         verbs !! b = Some verb ->
         commands !! b = Some "wait"%string
         <-> word_vocab !! verb = Some "wait"%string.
Proof.
  unfold get_chosen_strings. intros H.
  destruct (chosen_indices !! 0%nat) as [verbs|]; cbn [mbind option_bind] in H; [|done].
  exists verbs. split; [done|].
  pose proof (length_mapM _ _ _ H) as Hl. rewrite length_seq in Hl.
  split; [done|]. intros b verb Hverb.
  assert (Hb : (b < length verbs)%nat) by (by eapply lookup_lt_Some).
  apply mapM_Some_1 in H.
  destruct (Forall2_lookup_l _ _ _ b b H) as (command & Hc & Hf).
  { by apply lookup_seq_lt. }
  rewrite Hverb in Hf. cbn [mbind option_bind] in Hf.
  destruct (chosen_indices !! 1%nat) as [adjs|]; cbn [mbind option_bind] in Hf; [|done].
  destruct (adjs !! b) as [adj|]; cbn [mbind option_bind] in Hf; [|done].
  destruct (chosen_indices !! 2%nat) as [nouns|]; cbn [mbind option_bind] in Hf; [|done].
  destruct (nouns !! b) as [noun|]; cbn [mbind option_bind] in Hf; [|done].
  rewrite Hc. rewrite <- (word_ids_to_commands_wait _ _ _ _ _ Hf).
  split; [by intros [= ->]|by intros ->].
Qed.

Lemma X2_chosen_strings_wait_witness :
  exists verbs,
    [[2; 3]; [1; 0]; [4; 0]]%nat !! 0%nat = Some verbs
    /\ length ["go east"; "wait"]%string = length verbs.
Proof.
  destruct (X2_chosen_strings_wait
              ["<pad>"; "</s>"; "go"; "wait"; "east"]%string
              [[2; 3]; [1; 0]; [4; 0]]%nat ["go east"; "wait"]%string)
    as (verbs & Hv & Hl & _).
  - reflexivity.
  - exists verbs. split; [exact Hv|exact Hl].
Defined.

End WordsFacts.

(** ** The interaction flags between two steps *)

Section ActFacts.
Import Train.

(** The loop over the batch turns off the flag of every game whose last
    command was "wait" and leaves the other flags. *)
Lemma wait_loop_lookup (prev_actions : list string) :
  forall (remaining i : nat) (interacting out : list Q),
    wait_loop prev_actions interacting i remaining = Some out ->
    forall b : nat,
      (b < i \/ i + remaining <= b -> out !! b = interacting !! b)%nat
      /\ ((i <= b < i + remaining)%nat ->
          exists a, prev_actions !! b = Some a
                    /\ out !! b = if String.eqb a "wait" then Some 0
                                  else interacting !! b).
Proof.
  induction remaining as [|remaining IH]; intros i interacting out Hrun b;
    cbn [wait_loop] in Hrun.
  - injection Hrun as <-. split; [done|lia].
  - destruct (prev_actions !! i) as [a|] eqn:Ha; cbn [mbind option_bind] in Hrun;
      [|done].
    destruct (String.eqb a "wait") eqn:Hw.
    + case_decide as Hi; cbn [mbind option_bind] in Hrun; [|done].
      destruct (IH _ _ _ Hrun b) as [Hout Hin]. split.
      * intros Hb. rewrite Hout by lia. apply list_lookup_insert_ne. lia.
      * intros Hb. destruct (decide (b = i)) as [->|Hne].
        -- exists a. split; [done|]. rewrite Hw, Hout by lia.
           by apply list_lookup_insert_eq.
        -- destruct Hin as (a' & Ha' & Hb'); [lia|]. exists a'. split; [done|].
           rewrite Hb'. destruct (String.eqb a' "wait"); [done|].
           apply list_lookup_insert_ne. lia.
    + cbn [mbind option_bind] in Hrun.
      destruct (IH _ _ _ Hrun b) as [Hout Hin]. split.
      * intros Hb. apply Hout. lia.
      * intros Hb. destruct (decide (b = i)) as [->|Hne].
        -- exists a. split; [done|]. rewrite Hw. apply Hout. lia.
        -- apply Hin. lia.
Qed.

(** X3: between two consecutive calls of [act], the interaction flag of a
    game becomes 0 when the command of the first call was "wait", and keeps
    its value otherwise: a game stops interacting one step after it says
    "wait", and whatever it says later does not matter. *)
Theorem X3_act_stops_after_wait (batch : nat) (st st' st'' : AgentState)
    (chosen chosen' : list string) (mask mask' : list Q) (b : nat) :
  act batch st chosen = Some (mask, st') ->
  act batch st' chosen' = Some (mask', st'') ->
  (b < batch)%nat ->
  exists command,
    chosen !! b = Some command
    /\ mask' !! b = if String.eqb command "wait" then Some 0 else mask !! b.
Proof.
  unfold act. intros H1 H2 Hb.
  destruct (wait_loop _ _ _ _) as [m1|] eqn:E1 in H1; [|done].
  cbn [mbind option_bind] in H1. injection H1 as <- <-.
  cbn [prev_actions_last prev_step_is_still_interacting] in H2.
  destruct (wait_loop _ _ _ _) as [m2|] eqn:E2 in H2; [|done].
  cbn [mbind option_bind] in H2. injection H2 as <- <-.
  destruct (wait_loop_lookup _ _ _ _ _ E2 b) as [_ Hin].
  apply Hin. lia.
Qed.

Lemma X3_act_stops_after_wait_witness :
  exists command,
    ["go east"; "wait"]%string !! 1%nat = Some command
    /\ [1; 0] !! 1%nat = if String.eqb command "wait" then Some 0 else [1; 1] !! 1%nat.
Proof.
  apply (X3_act_stops_after_wait 2 (init 2)
           {| prev_actions_last := ["go east"; "wait"]%string;
              prev_step_is_still_interacting := [1; 1] |}
           {| prev_actions_last := ["look"; "look"]%string;
              prev_step_is_still_interacting := [1; 0] |}
           ["go east"; "wait"]%string
           ["look"; "look"]%string [1; 1] [1; 0] 1).
  - reflexivity.
  - reflexivity.
  - lia.
Defined.

End ActFacts.

(** ** The vocabulary and the word masks *)

Section VocabularyFacts.
Import Command.

Lemma word2id_loop_spec (words : list string) :
  forall (i : nat) (m : gmap string nat) (w : string) (k : nat),
    word2id_loop i words m !! w = Some k
    <-> (exists j, words !! j = Some w /\ k = (i + j)%nat
                   /\ forall j', (j < j')%nat -> words !! j' <> Some w)
        \/ ((w ∉ words) /\ m !! w = Some k).
Proof.
  induction words as [|x words IH]; intros i m w k; cbn [word2id_loop].
  - split.
    + intros H. right. split; [apply not_elem_of_nil|done].
    + intros [(j & Hj & _)|[_ H]]; done.
  - rewrite IH. split.
    + intros [(j & Hj & -> & Hlast)|[Hnot Hm]].
      * left. exists (S j). split; [done|]. split; [lia|].
        intros [|j'] Hlt; [lia|]. simpl. apply Hlast. lia.
      * destruct (decide (x = w)) as [->|Hne].
        -- rewrite lookup_insert_eq in Hm. injection Hm as <-.
           left. exists 0%nat. split; [done|]. split; [lia|].
           intros [|j'] Hlt; [lia|]. simpl. intros Hj'.
           apply Hnot. by eapply list_elem_of_lookup_2.
        -- rewrite lookup_insert_ne in Hm by done. right. split; [|done].
           apply not_elem_of_cons. done.
    + intros [(j & Hj & -> & Hlast)|[Hnot Hm]].
      * destruct j as [|j]; simpl in Hj.
        -- injection Hj as ->. right. split.
           ++ intros Hin. apply list_elem_of_lookup_1 in Hin as (j' & Hj').
              apply (Hlast (S j')); [lia|done].
           ++ rewrite lookup_insert_eq. f_equal. lia.
        -- left. exists j. split; [done|]. split; [lia|].
           intros j' Hlt. apply (Hlast (S j')). lia.
      * apply not_elem_of_cons in Hnot as [Hne Hnot]. right. split; [done|].
        rewrite lookup_insert_ne by done. done.
Qed.

(** Every word of a list has a last position. *)
Lemma last_position (words : list string) (w : string) (j : nat) :
  words !! j = Some w ->
  exists k, words !! k = Some w
            /\ forall j', (k < j')%nat -> words !! j' <> Some w.
Proof.
  revert j. induction words as [|x l IH] using rev_ind; intros j Hj; [done|].
  destruct (decide (x = w)) as [->|Hne].
  - exists (length l). split; [by rewrite lookup_app_r, Nat.sub_diag by lia|].
    intros j' Hlt. rewrite lookup_ge_None_2; [done|]. rewrite length_app. simpl. lia.
  - assert (Hjl : l !! j = Some w).
    { apply lookup_app_Some in Hj as [Hj|[Hge Hj]]; [done|].
      destruct (j - length l)%nat; simpl in Hj; [congruence|done]. }
    destruct (IH j Hjl) as (k & Hk & Hlast). exists k. split.
    + apply lookup_app_l_Some. done.
    + intros j' Hlt Hj'. apply lookup_app_Some in Hj' as [Hj'|[Hge Hj']].
      * by apply (Hlast j').
      * destruct (j' - length l)%nat; simpl in Hj'; [congruence|done].
Qed.

Lemma word2id_lookup (word_vocab : list string) (w : string) (k : nat) :
  word2id word_vocab !! w = Some k
  <-> word_vocab !! k = Some w
      /\ forall j, (k < j)%nat -> word_vocab !! j <> Some w.
Proof.
  unfold word2id. rewrite word2id_loop_spec. split.
  - intros [(j & Hj & -> & Hlast)|[_ H]]; [done|]. by rewrite lookup_empty in H.
  - intros [Hk Hlast]. left. exists k. done.
Qed.

(** X4: [word2id] maps a word to the last position at which the vocabulary
    lists it, so that [word_vocab[word2id[w]]] is [w] again, and it has no
    entry exactly for the words that the vocabulary does not list. *)
Theorem X4_word2id_last_position (word_vocab : list string) (w : string) :
  (forall k : nat,
     word2id word_vocab !! w = Some k
     <-> word_vocab !! k = Some w
         /\ forall j, (k < j)%nat -> word_vocab !! j <> Some w)
  /\ (word2id word_vocab !! w = None <-> (w ∉ word_vocab)).
Proof.
  split; [intros k; apply word2id_lookup|]. split.
  - intros Hnone Hin. apply list_elem_of_lookup_1 in Hin as (j & Hj).
    destruct (last_position _ _ _ Hj) as (k & Hex).
    apply word2id_lookup in Hex. congruence.
  - intros Hnot. destruct (word2id word_vocab !! w) as [k|] eqn:E; [|done].
    apply word2id_lookup in E as [E _]. exfalso. apply Hnot.
    by eapply list_elem_of_lookup_2.
Qed.

End VocabularyFacts.

Section MaskFacts.
Import Command.

(** The loop of a mask row: the positions it sets are the ids of the
    possible words that the vocabulary knows. *)
Lemma mask_fold_lookup (word_vocab possible : list string) :
  forall (row : list Q) (i : nat),
    let out := fold_left
                 (fun row w => match word2id word_vocab !! w with
                               | Some id => <[id := 1]> row
                               | None => row
                               end) possible row in
    length out = length row
    /\ ((exists w, w ∈ possible /\ word2id word_vocab !! w = Some i) ->
        (i < length row)%nat -> out !! i = Some 1)
    /\ (~ (exists w, w ∈ possible /\ word2id word_vocab !! w = Some i) ->
        out !! i = row !! i).
Proof.
  induction possible as [|x possible IH]; intros row i; cbn [fold_left].
  - split; [done|]. split; [|done]. intros (w & Hw & _). by apply elem_of_nil in Hw.
  - set (row' := match word2id word_vocab !! x with
                 | Some id => <[id := 1]> row
                 | None => row
                 end).
    assert (Hl : length row' = length row).
    { unfold row'. destruct (word2id word_vocab !! x); [apply length_insert|done]. }
    destruct (IH row' i) as (Hlen & Hyes & Hno). cbv zeta in *.
    split; [lia|]. split.
    + intros (w & Hw & Hid) Hi.
      destruct (decide (Exists (fun w => word2id word_vocab !! w = Some i) possible))
        as [Hex|Hnex].
      * apply Exists_exists in Hex. apply Hyes; [done|lia].
      * rewrite Hno.
        2:{ intros (w' & Hw' & Hid'). apply Hnex, Exists_exists. eauto. }
        apply elem_of_cons in Hw as [->|Hw].
        -- unfold row'. rewrite Hid. by apply list_lookup_insert_eq.
        -- exfalso. apply Hnex, Exists_exists. eauto.
    + intros Hnot. rewrite Hno.
      2:{ intros (w & Hw & Hid). apply Hnot. exists w. split; [|done].
          apply elem_of_cons. by right. }
      unfold row'. destruct (word2id word_vocab !! x) as [id|] eqn:Hx; [|done].
      apply list_lookup_insert_ne. intros ->. apply Hnot. exists x.
      split; [apply elem_of_cons; by left|done].
Qed.

Lemma mask_row_lookup (word_vocab possible : list string) (i : nat) :
  (i < length word_vocab)%nat ->
  exists v, mask_row word_vocab possible !! i = Some v
            /\ (v = 0 \/ v = 1)
            /\ (v = 1 <-> exists w, w ∈ possible /\ word2id word_vocab !! w = Some i).
Proof.
  intros Hi. unfold mask_row.
  destruct (mask_fold_lookup word_vocab possible (replicate (length word_vocab) 0) i)
    as (_ & Hyes & Hno). cbv zeta in *. rewrite length_replicate in Hyes.
  destruct (decide (Exists (fun w => word2id word_vocab !! w = Some i) possible))
    as [Hex|Hnex].
  - apply Exists_exists in Hex. exists 1. split; [by apply Hyes|].
    split; [by right|]. done.
  - assert (Hn : ~ (exists w, w ∈ possible /\ word2id word_vocab !! w = Some i)).
    { intros (w & Hw & Hid). apply Hnex, Exists_exists. eauto. }
    exists 0. split; [rewrite (Hno Hn); by apply lookup_replicate_2|].
    split; [by left|]. split; [done|]. intros H. by apply Hn in H.
Qed.

Lemma mask_rows_lookup (word_vocab : list string) (n : nat)
    (possible : list (list string)) (m : list (list Q)) (b : nat) :
  mask_rows word_vocab n possible = Some m ->
  (b < n)%nat ->
  exists ws, possible !! b = Some ws /\ m !! b = Some (mask_row word_vocab ws).
Proof.
  unfold mask_rows. case_decide as Hn; [|done]. intros [= <-] Hb.
  destruct (lookup_lt_is_Some_2 possible b) as [ws Hws]; [lia|].
  exists ws. split; [done|].
  change (map (mask_row word_vocab) (take n possible))
    with (mask_row word_vocab <$> take n possible).
  rewrite list_lookup_fmap, lookup_take_lt by done. by rewrite Hws.
Qed.

(** X5: the masks of [get_local_word_masks] hold 0 and 1 only, and allow,
    for every game of the batch and every word id of the vocabulary,
    exactly the ids that [word2id] gives to the possible words of the
    slot; the adjective mask also allows the id of "</s>", which always
    lies inside the vocabulary. *)
Theorem X5_word_masks_allow_possible_words (word_vocab : list string)
    (possible_verbs possible_adjs possible_nouns : list (list string))
    (masks : list (list (list Q))) :
  get_local_word_masks word_vocab (possible_verbs, possible_adjs, possible_nouns)
  = Some masks ->
  exists (verb_mask adj_mask noun_mask : list (list Q)) (EOS_id : nat),
    masks = [verb_mask; adj_mask; noun_mask]
    /\ word2id word_vocab !! "</s>"%string = Some EOS_id
    /\ (EOS_id < length word_vocab)%nat
    /\ forall (b i : nat),
         (b < length possible_verbs)%nat -> (i < length word_vocab)%nat ->
         exists verbs adjs nouns (v a n : Q),
           possible_verbs !! b = Some verbs
           /\ possible_adjs !! b = Some adjs
           /\ possible_nouns !! b = Some nouns
           /\ entry verb_mask b i = Some v
           /\ entry adj_mask b i = Some a
           /\ entry noun_mask b i = Some n
           /\ (v = 0 \/ v = 1) /\ (a = 0 \/ a = 1) /\ (n = 0 \/ n = 1)
           /\ (v = 1 <-> exists w, w ∈ verbs /\ word2id word_vocab !! w = Some i)
           /\ (a = 1 <-> i = EOS_id
                         \/ exists w, w ∈ adjs /\ word2id word_vocab !! w = Some i)
           /\ (n = 1 <-> exists w, w ∈ nouns /\ word2id word_vocab !! w = Some i).
Proof.
  unfold get_local_word_masks.
  destruct (word2id word_vocab !! "</s>"%string) as [eos|] eqn:Heos; [|done].
  cbn [mbind option_bind].
  destruct (mask_rows word_vocab (length possible_verbs) possible_verbs) as [vm|] eqn:Hv;
    [|done].
  destruct (mask_rows word_vocab (length possible_verbs) possible_adjs) as [am|] eqn:Ha;
    [|done].
  destruct (mask_rows word_vocab (length possible_verbs) possible_nouns) as [nm|] eqn:Hn;
    [|done].
  cbn [mbind option_bind]. intros [= <-].
  eexists _, _, _, eos. split; [reflexivity|]. split; [done|].
  assert (Heos' : (eos < length word_vocab)%nat).
  { apply word2id_lookup in Heos as [Heos _]. by eapply lookup_lt_Some. }
  split; [done|]. intros b i Hb Hi.
  destruct (mask_rows_lookup _ _ _ _ b Hv Hb) as (verbs & Hverbs & Hvrow).
  destruct (mask_rows_lookup _ _ _ _ b Ha Hb) as (adjs & Hadjs & Harow).
  destruct (mask_rows_lookup _ _ _ _ b Hn Hb) as (nouns & Hnouns & Hnrow).
  destruct (mask_row_lookup word_vocab verbs i Hi) as (v & Hvl & Hvb & Hvi).
  destruct (mask_row_lookup word_vocab adjs i Hi) as (a & Hal & Hab & Hai).
  destruct (mask_row_lookup word_vocab nouns i Hi) as (n & Hnl & Hnb & Hni).
  exists verbs, adjs, nouns, v, (if decide (i = eos) then 1 else a), n.
  split; [done|]. split; [done|]. split; [done|].
  split; [unfold entry; rewrite Hvrow; done|]. split.
  { unfold entry.
    change (map (fun row => <[eos := 1]> row) am)
      with ((fun row : list Q => <[eos := 1]> row) <$> am).
    rewrite list_lookup_fmap, Harow. cbn [fmap option_fmap option_map mbind option_bind].
    case_decide as Hie.
    - subst i. apply list_lookup_insert_eq. by eapply lookup_lt_Some.
    - rewrite list_lookup_insert_ne by done. done. }
  split; [unfold entry; rewrite Hnrow; done|].
  split; [done|]. split; [case_decide; [by right|done]|]. split; [done|].
  split; [done|]. split; [|done].
  case_decide as Hie.
  - split; [by left|done].
  - rewrite Hai. split; [by right|]. intros [?|?]; done.
Qed.

Lemma X5_word_masks_allow_possible_words_witness :
  exists (masks : list (list (list Q))) (verb_mask adj_mask noun_mask : list (list Q))
         (EOS_id : nat),
    get_local_word_masks ["<pad>"; "</s>"; "go"; "east"]%string
      ([["go"]], [["red"]], [["east"]])%string = Some masks
    /\ masks = [verb_mask; adj_mask; noun_mask]
    /\ (EOS_id < 4)%nat.
Proof.
  eexists.
  destruct (X5_word_masks_allow_possible_words
              ["<pad>"; "</s>"; "go"; "east"]%string
              [["go"]]%string [["red"]]%string [["east"]]%string
              [[[0; 0; 1; 0]]; [[0; 1; 0; 0]]; [[0; 0; 0; 1]]])
    as (vm & am & nm & eos & Hm & _ & Heos & _).
  - reflexivity.
  - exists vm, am, nm, eos. split; [reflexivity|]. split; [exact Hm|exact Heos].
Defined.

End MaskFacts.

(** ** Greedy choices *)

Section GreedyFacts.
Import Command.

(** [torch.argmax] returns the first of the maximal positions: every
    earlier entry is strictly smaller. *)
Lemma argmax_from_first (rest : list Q) :
  forall (best_i : nat) (best : Q) (i : nat),
    let k := argmax_from best_i best i rest in
    (k = best_i /\ Forall (fun y => y <= best) rest)
    \/ ((i <= k)%nat
        /\ exists v, rest !! (k - i)%nat = Some v /\ best < v
                     /\ forall (j : nat) (y : Q),
                          (j < k - i)%nat -> rest !! j = Some y -> y < v).
Proof.
  induction rest as [|x rest IH]; intros best_i best i; cbn [argmax_from].
  - left. done.
  - destruct (Qle_bool x best) eqn:Hle.
    + apply Qle_bool_iff in Hle.
      destruct (IH best_i best (S i)) as [[Hk Hall]|(Hi & v & Hv & Hb & Hj)].
      * left. split; [done|]. by constructor.
      * right. cbv zeta. split; [lia|]. exists v.
        replace (argmax_from best_i best (S i) rest - i)%nat
          with (S (argmax_from best_i best (S i) rest - S i)) by lia.
        split; [done|]. split; [done|].
        intros [|j] y Hlt Hy; simpl in Hy.
        -- injection Hy as <-. lra.
        -- apply (Hj j y); [lia|done].
    + assert (Hlt : best < x).
      { apply Qnot_le_lt. intros Hc. apply Qle_bool_iff in Hc. congruence. }
      right. cbv zeta.
      destruct (IH i x (S i)) as [[Hk Hall]|(Hi & v & Hv & Hb & Hj)].
      * rewrite Hk. split; [lia|]. exists x. rewrite Nat.sub_diag.
        split; [done|]. split; [done|]. intros j y Hj. lia.
      * split; [lia|]. exists v.
        replace (argmax_from i x (S i) rest - i)%nat
          with (S (argmax_from i x (S i) rest - S i)) by lia.
        split; [done|]. split; [lra|].
        intros [|j] y Hlt' Hy; simpl in Hy.
        -- injection Hy as <-. done.
        -- apply (Hj j y); [lia|done].
Qed.

Lemma argmax_first (row : list Q) (k : nat) :
  argmax row = Some k ->
  exists v, row !! k = Some v
            /\ forall (j : nat) (y : Q), (j < k)%nat -> row !! j = Some y -> y < v.
Proof.
  destruct row as [|x rest]; [done|]. cbn [argmax]. intros [= <-].
  destruct (argmax_from_first rest 0 x 1) as [[Hk _]|(Hi & v & Hv & Hb & Hj)].
  - rewrite Hk. exists x. split; [done|]. intros j y Hj. lia.
  - exists v. cbv zeta in *.
    destruct (argmax_from 0 x 1 rest) as [|k]; [lia|].
    simpl in Hv |- *. rewrite Nat.sub_0_r in Hv. split; [done|].
    intros [|j] y Hlt Hy; simpl in Hy.
    + injection Hy as <-. done.
    + apply (Hj j y); [simpl; lia|done].
Qed.

(** One row of a masked greedy choice: an allowed word before the chosen
    one has a strictly smaller score, and the chosen word is then allowed
    itself. *)
Lemma masked_argmax_prefers_first (row sh mrow masked : list Q) (k : nat) :
  shift_row row = Some sh ->
  tensor_op Qmult sh mrow = Some masked ->
  argmax masked = Some k ->
  Forall Spec.binary mrow ->
  forall (j : nat) (vj xj : Q),
    (j < k)%nat ->
    mrow !! j = Some vj -> vj == 1 -> row !! j = Some xj ->
    exists xk vk, row !! k = Some xk /\ mrow !! k = Some vk /\ vk == 1 /\ xj < xk.
Proof.
  intros Hsh Hop Hk Hbin j vj xj Hjk Hj Hvj Hxj.
  unfold shift_row in Hsh.
  destruct (row_min row) as [m|] eqn:Hm; cbn [mbind option_bind] in Hsh; [|done].
  injection Hsh as <-.
  unfold tensor_op in Hop. case_decide as Hlen; [|done]. injection Hop as <-.
  destruct (argmax_first _ _ Hk) as (v & Hv & Hfirst).
  apply lookup_zip_with_Some in Hv as (s & w & -> & Hs & Hw).
  rewrite list_lookup_fmap in Hs.
  destruct (row !! k) as [xk|] eqn:Hxk; [|done]. injection Hs as <-.
  exists xk, w. split; [done|]. split; [done|].
  assert (Hlt : (xj - m + (1 # 100)) * vj < (xk - m + (1 # 100)) * w).
  { apply (Hfirst j); [done|].
    rewrite lookup_zip_with, list_lookup_fmap, Hxj.
    cbn [fmap option_fmap option_map mbind option_bind]. rewrite Hj. done. }
  assert (Hpos : 0 < xj - m + (1 # 100)).
  { destruct (row_min_Some row) as (m' & Hm' & Hall); [by intros ->|].
    rewrite Hm in Hm'. injection Hm' as <-.
    pose proof (Forall_lookup_1 _ _ _ _ Hall Hxj) as Hle. cbv beta in Hle. lra. }
  rewrite Hvj in Hlt.
  destruct (Forall_lookup_1 _ _ _ _ Hbin Hw) as [Hw0|Hw1].
  - rewrite Hw0 in Hlt. lra.
  - split; [done|]. rewrite Hw1 in Hlt. lra.
Qed.

(** One row whose mask is zero everywhere: the argmax is position 0. *)
Lemma all_masked_argmax (sh mrow masked : list Q) (k : nat) :
  tensor_op Qmult sh mrow = Some masked ->
  argmax masked = Some k ->
  Forall (fun x => x == 0) mrow ->
  k = 0%nat.
Proof.
  intros Hop Hk Hzero.
  unfold tensor_op in Hop. case_decide as Hlen; [|done]. injection Hop as <-.
  destruct (argmax_first _ _ Hk) as (v & Hv & Hfirst).
  destruct k as [|k]; [done|]. exfalso.
  apply lookup_zip_with_Some in Hv as (s & w & -> & Hs & Hw).
  destruct (lookup_lt_is_Some_2 sh 0) as [s0 Hs0].
  { apply lookup_lt_Some in Hs. lia. }
  destruct (lookup_lt_is_Some_2 mrow 0) as [w0 Hw0].
  { apply lookup_lt_Some in Hw. lia. }
  assert (Hlt : s0 * w0 < s * w).
  { apply (Hfirst 0%nat); [lia|]. rewrite lookup_zip_with, Hs0.
    cbn [mbind option_bind]. rewrite Hw0. done. }
  pose proof (Forall_lookup_1 _ _ _ _ Hzero Hw) as Hz. cbv beta in Hz.
  pose proof (Forall_lookup_1 _ _ _ _ Hzero Hw0) as Hz0. cbv beta in Hz0.
  rewrite Hz, Hz0 in Hlt. lra.
Qed.

Lemma choose_loop_lookup (word_mask : option (list (list (list Q)))) :
  forall (action_ranks : list (list (list Q))) (i : nat) (out : list (list nat))
         (s : nat) (idx : list nat),
    choose_loop action_ranks word_mask i = Some out ->
    out !! s = Some idx ->
    exists ar, action_ranks !! s = Some ar
               /\ choose_slot ar word_mask (i + s) = Some idx.
Proof.
  induction action_ranks as [|ar rest IH]; intros i out s idx H Hs;
    cbn [choose_loop] in H.
  - injection H as <-. done.
  - destruct (choose_slot ar word_mask i) as [idx0|] eqn:H0;
      cbn [mbind option_bind] in H; [|done].
    destruct (choose_loop rest word_mask (S i)) as [out'|] eqn:H1;
      cbn [mbind option_bind] in H; [|done].
    injection H as <-. destruct s as [|s]; simpl in Hs.
    + injection Hs as <-. exists ar. rewrite Nat.add_0_r. done.
    + destruct (IH _ _ _ _ H1 Hs) as (ar' & Har' & Hc). exists ar'.
      split; [done|]. replace (i + S s)%nat with (S i + s)%nat by lia. done.
Qed.

End GreedyFacts.

Section MaxQFacts.
Import Command.

(** The rows that a masked [choose_maxQ_command] works on. *)
Lemma choose_maxQ_command_row (use_distributional : bool) (support : list Q)
    (action_ranks : ranks) (masks : list (list (list Q)))
    (indices : list (list nat)) (s b k : nat) (idx : list nat) :
  choose_maxQ_command use_distributional support action_ranks (Some masks)
  = Some indices ->
  indices !! s = Some idx ->
  idx !! b = Some k ->
  exists scores ar row mask mrow sh masked,
    scalar_ranks use_distributional support action_ranks = Some scores
    /\ scores !! s = Some ar /\ ar !! b = Some row
    /\ masks !! s = Some mask /\ mask !! b = Some mrow
    /\ shift_row row = Some sh
    /\ tensor_op Qmult sh mrow = Some masked
    /\ argmax masked = Some k.
Proof.
  unfold choose_maxQ_command. intros H Hs Hk.
  destruct (scalar_ranks use_distributional support action_ranks) as [scores|];
    cbn [mbind option_bind] in H; [|done].
  destruct (choose_loop_lookup _ _ _ _ _ _ H Hs) as (ar & Har & Hslot).
  cbn [Nat.add] in Hslot. unfold choose_slot in Hslot.
  destruct (mapM shift_row ar) as [shifted|] eqn:Hsh;
    cbn [mbind option_bind] in Hslot; [|done].
  destruct (masks !! s) as [mask|] eqn:Hmask; cbn [mbind option_bind] in Hslot; [|done].
  destruct (apply_mask shifted mask) as [m|] eqn:Hm;
    cbn [mbind option_bind] in Hslot; [|done].
  destruct (mapM_lookup_r _ _ _ _ _ Hslot Hk) as (masked & Hmasked & Harg).
  unfold apply_mask, matrix_op in Hm. case_decide as Hlen; [|done].
  destruct (mapM_lookup_r _ _ _ _ _ Hm Hmasked) as ([sh mrow] & Hz & Hop).
  apply lookup_zip_with_Some in Hz as (sh' & mrow' & [= <- <-] & Hs' & Hmr).
  destruct (mapM_lookup_r _ _ _ _ _ Hsh Hs') as (row & Hrow & Hshift).
  exists scores, ar, row, mask, mrow, sh, masked. done.
Qed.

(** X6: on Q-values (the mode that is not distributional) the masked
    [choose_maxQ_command] never passes over an allowed word for a later
    one that is not strictly better: in every slot and for every game,
    every allowed word at an earlier position than the returned word has
    a strictly smaller Q-value, and the returned word is then allowed
    itself.  Among equal Q-values the first allowed word wins. *)
Theorem X6_maxQ_command_prefers_first (support : list Q)
    (scores : list (list (list Q))) (masks : list (list (list Q)))
    (indices : list (list nat)) :
  choose_maxQ_command false support (Values scores) (Some masks) = Some indices ->
  forall (s b k : nat) (idx : list nat) (ar mask : list (list Q)) (row mrow : list Q),
    indices !! s = Some idx -> idx !! b = Some k ->
    scores !! s = Some ar -> ar !! b = Some row ->
    masks !! s = Some mask -> mask !! b = Some mrow ->
    Forall Spec.binary mrow ->
    forall (j : nat) (vj xj : Q),
      (j < k)%nat ->
      mrow !! j = Some vj -> vj == 1 -> row !! j = Some xj ->
      exists xk vk,
        row !! k = Some xk /\ mrow !! k = Some vk /\ vk == 1 /\ xj < xk.
Proof.
  intros H s b k idx ar mask row mrow Hs Hk Har Hrow Hmask Hmrow Hbin.
  destruct (choose_maxQ_command_row _ _ _ _ _ _ _ _ _ H Hs Hk)
    as (scores' & ar' & row' & mask' & mrow' & sh & masked
        & Hsc' & Har' & Hrow' & Hmask' & Hmrow' & Hsh & Hop & Harg).
  cbn [scalar_ranks] in Hsc'. injection Hsc' as <-.
  rewrite Har in Har'. injection Har' as <-.
  rewrite Hrow in Hrow'. injection Hrow' as <-.
  rewrite Hmask in Hmask'. injection Hmask' as <-.
  rewrite Hmrow in Hmrow'. injection Hmrow' as <-.
  by apply (masked_argmax_prefers_first row sh mrow masked k).
Qed.

Lemma X6_maxQ_command_prefers_first_witness :
  choose_maxQ_command false [] (Values [[[5; 1; 3; 3]]]) (Some [[[0; 1; 1; 1]]])
  = Some [[2%nat]]
  /\ exists xk vk,
       [5; 1; 3; 3] !! 2%nat = Some xk /\ [0; 1; 1; 1] !! 2%nat = Some vk
       /\ vk == 1 /\ 1 < xk.
Proof.
  split; [reflexivity|].
  apply (X6_maxQ_command_prefers_first [] [[[5; 1; 3; 3]]] [[[0; 1; 1; 1]]]
           [[2%nat]] eq_refl
           0%nat 0%nat 2%nat [2%nat] [[5; 1; 3; 3]] [[0; 1; 1; 1]]
           [5; 1; 3; 3] [0; 1; 1; 1]
           eq_refl eq_refl eq_refl eq_refl eq_refl eq_refl)
    with (j := 1%nat) (vj := 1).
  - constructor; [left; reflexivity|].
    constructor; [right; reflexivity|].
    constructor; [right; reflexivity|].
    constructor; [right; reflexivity|]. constructor.
  - lia.
  - reflexivity.
  - reflexivity.
  - reflexivity.
Defined.

(** X7: when the mask of a slot allows no word for a game, the masked
    [choose_maxQ_command] returns word id 0 for it, whatever the scores
    are. *)
Theorem X7_maxQ_command_all_masked (use_distributional : bool) (support : list Q)
    (action_ranks : ranks) (masks : list (list (list Q))) (indices : list (list nat))
    (s b k : nat) (idx : list nat) (mask : list (list Q)) (mrow : list Q) :
  choose_maxQ_command use_distributional support action_ranks (Some masks)
  = Some indices ->
  indices !! s = Some idx -> idx !! b = Some k ->
  masks !! s = Some mask -> mask !! b = Some mrow ->
  Forall (fun x => x == 0) mrow ->
  k = 0%nat.
Proof.
  intros H Hs Hk Hmask Hmrow Hzero.
  destruct (choose_maxQ_command_row _ _ _ _ _ _ _ _ _ H Hs Hk)
    as (scores' & ar' & row' & mask' & mrow' & sh & masked
        & Hsc' & Har' & Hrow' & Hmask' & Hmrow' & Hsh & Hop & Harg).
  rewrite Hmask in Hmask'. injection Hmask' as <-.
  rewrite Hmrow in Hmrow'. injection Hmrow' as <-.
  by eapply all_masked_argmax.
Qed.

Lemma X7_maxQ_command_all_masked_witness :
  choose_maxQ_command false [] (Values [[[1; 5; 3]]]) (Some [[[0; 0; 0]]])
  = Some [[0%nat]].
Proof.
  assert (H : exists k,
             choose_maxQ_command false [] (Values [[[1; 5; 3]]]) (Some [[[0; 0; 0]]])
             = Some [[k]]) by (eexists; reflexivity).
  destruct H as [k H].
  rewrite (X7_maxQ_command_all_masked false [] (Values [[[1; 5; 3]]]) [[[0; 0; 0]]]
             [[k]] 0 0 k [k] [[0; 0; 0]] [0; 0; 0] H eq_refl eq_refl eq_refl eq_refl)
    in H.
  - exact H.
  - repeat constructor.
Defined.

End MaxQFacts.

(** ** The answer to the question *)

Section AnswerFacts.
Import Answer.

Lemma scatter_add_row_spec (index : list nat) :
  forall (row out src : list Q),
    scatter_add_row row index src = Some out ->
    length out = length row
    /\ Qsum out == Qsum row + Qsum (take (length index) src)
    /\ forall k : nat, k ∉ index -> out !! k = row !! k.
Proof.
  induction index as [|i index IH]; intros row out src H; cbn [scatter_add_row] in H.
  - injection H as <-. split; [done|]. split; [simpl; ring|done].
  - destruct src as [|x src]; [done|].
    destruct (row !! i) as [v|] eqn:Hv; cbn [mbind option_bind] in H; [|done].
    destruct (IH _ _ _ H) as (Hl & Hsum & Hk).
    rewrite length_insert in Hl. split; [done|]. split.
    + rewrite Hsum. cbn [length take Qsum].
      rewrite (Qsum_insert row i v x Hv). ring.
    + intros k Hk'. apply not_elem_of_cons in Hk' as [Hne Hk'].
      rewrite Hk by done. apply list_lookup_insert_ne. done.
Qed.

Lemma vocab_distribution_row (vocab_size : nat) (observation : list (list nat))
    (pred dist : list (list Q)) (b : nat) (row : list Q) :
  vocab_distribution vocab_size observation pred = Some dist ->
  dist !! b = Some row ->
  exists index src,
    observation !! b = Some index /\ pred !! b = Some src
    /\ scatter_add_row (replicate vocab_size 0) index src = Some row.
Proof.
  unfold vocab_distribution. case_decide as Hd; [|done]. intros H Hrow.
  destruct (mapM_lookup_r _ _ _ _ _ H Hrow) as ([index src] & Hz & Hs).
  apply lookup_zip_with_Some in Hz as (i' & s' & [= <- <-] & Hi & Hp). eauto.
Qed.

Lemma vocab_distribution_spec (vocab_size : nat) (observation : list (list nat))
    (pred dist : list (list Q)) :
  vocab_distribution vocab_size observation pred = Some dist ->
  length dist = length observation
  /\ forall (b : nat) (row : list Q),
       dist !! b = Some row ->
       exists index src,
         observation !! b = Some index /\ pred !! b = Some src
         /\ length row = vocab_size
         /\ Qsum row == Qsum (take (length index) src)
         /\ forall k : nat, k ∉ index -> (k < vocab_size)%nat -> row !! k = Some 0.
Proof.
  intros H. split.
  { unfold vocab_distribution in H. case_decide as Hd; [|done].
    apply length_mapM in H. rewrite length_zip_with in H. lia. }
  intros b row Hrow.
  destruct (vocab_distribution_row _ _ _ _ _ _ H Hrow) as (index & src & Hi & Hp & Hs).
  destruct (scatter_add_row_spec _ _ _ _ Hs) as (Hl & Hsum & Hk).
  rewrite length_replicate in Hl.
  exists index, src. split; [done|]. split; [done|]. split; [done|]. split.
  - rewrite Hsum. rewrite (Qsum_zero (replicate vocab_size 0)); [ring|].
    apply Forall_replicate. reflexivity.
  - intros k Hk' Hlt. rewrite Hk by done. by apply lookup_replicate_2.
Qed.

(** X8: the attention sum of [answer_question] conserves the attention:
    the distribution over the vocabulary has one row per game, the row of
    a game sums to the attention that the network gave to the observed
    positions of the game, and a word that is not among the observed word
    ids has weight 0. *)
Theorem X8_vocab_distribution_mass (vocab_size : nat) (observation : list (list nat))
    (pred dist : list (list Q)) :
  vocab_distribution vocab_size observation pred = Some dist ->
  length dist = length observation
  /\ forall (b : nat) (row : list Q),
       dist !! b = Some row ->
       exists index src,
         observation !! b = Some index /\ pred !! b = Some src
         /\ length row = vocab_size
         /\ Qsum row == Qsum (take (length index) src)
         /\ forall k : nat, k ∉ index -> (k < vocab_size)%nat -> row !! k = Some 0.
Proof. apply vocab_distribution_spec. Qed.

Lemma X8_vocab_distribution_mass_witness :
  exists dist,
    vocab_distribution 5 [[1; 3; 1]%nat] [[1 # 4; 1 # 4; 1 # 2]] = Some dist
    /\ length dist = length [[1; 3; 1]%nat].
Proof.
  eexists. split; [reflexivity|].
  apply (X8_vocab_distribution_mass 5 [[1; 3; 1]%nat] [[1 # 4; 1 # 4; 1 # 2]]).
  reflexivity.
Defined.

(** The rows that [point_maxq_position] works on. *)
Lemma point_maxq_position_row (dist mask : list (list Q)) (answers : list nat)
    (b k : nat) :
  point_maxq_position dist mask = Some answers ->
  answers !! b = Some k ->
  exists row mrow sh masked,
    dist !! b = Some row /\ mask !! b = Some mrow
    /\ Command.shift_row row = Some sh
    /\ tensor_op Qmult sh mrow = Some masked
    /\ Command.argmax masked = Some k.
Proof.
  unfold point_maxq_position. intros H Hk.
  destruct (mapM Command.shift_row dist) as [shifted|] eqn:Hsh;
    cbn [mbind option_bind] in H; [|done].
  destruct (matrix_op Qmult shifted mask) as [m|] eqn:Hm;
    cbn [mbind option_bind] in H; [|done].
  destruct (mapM_lookup_r _ _ _ _ _ H Hk) as (masked & Hmasked & Harg).
  unfold matrix_op in Hm. case_decide as Hlen; [|done].
  destruct (mapM_lookup_r _ _ _ _ _ Hm Hmasked) as ([sh mrow] & Hz & Hop).
  apply lookup_zip_with_Some in Hz as (sh' & mrow' & [= <- <-] & Hs & Hmr).
  destruct (mapM_lookup_r _ _ _ _ _ Hsh Hs) as (row & Hrow & Hshift).
  exists row, mrow, sh, masked. done.
Qed.

Lemma vocab_mask_entry (x : Q) :
  float_of_bool (negb (Qeq_bool x 0)) == 1 <-> ~ x == 0.
Proof.
  destruct (Qeq_bool x 0) eqn:E; simpl.
  - apply Qeq_bool_iff in E. split; [lra|done].
  - split; [|reflexivity]. intros _ Hz. apply Qeq_bool_iff in Hz. congruence.
Qed.

End AnswerFacts.

Section AnswerChoice.
Import Answer.

(** X9: when the attention sum of a game is not zero everywhere,
    [answer_question_act_greedy] answers with a word of the observation of
    the game, and with one whose summed attention is not 0: it never
    answers with a word that the game has not observed. *)
Theorem X9_answer_is_observed_word (vocab_size : nat) (observation : list (list nat))
    (pred dist : list (list Q)) (answers : list nat) (b k : nat) (row : list Q) :
  vocab_distribution vocab_size observation pred = Some dist ->
  answer_question_act_greedy vocab_size observation pred = Some answers ->
  answers !! b = Some k ->
  dist !! b = Some row ->
  (exists (j : nat) (v : Q), row !! j = Some v /\ ~ v == 0) ->
  exists index v,
    observation !! b = Some index /\ k ∈ index
    /\ row !! k = Some v /\ ~ v == 0.
Proof.
  intros Hd H Hk Hrow (j & vj & Hj & Hnz).
  unfold answer_question_act_greedy in H. rewrite Hd in H.
  cbn [mbind option_bind] in H.
  destruct (point_maxq_position_row _ _ _ _ _ H Hk)
    as (row' & mrow & sh & masked & Hrow' & Hmrow & Hsh & Hop & Harg).
  rewrite Hrow in Hrow'. injection Hrow' as <-.
  unfold vocab_mask in Hmrow. rewrite list_lookup_fmap, Hrow in Hmrow.
  injection Hmrow as <-.
  assert (Hbin : Forall Spec.binary
                   (map (fun x => float_of_bool (negb (Qeq_bool x 0))) row)).
  { apply Forall_fmap, Forall_true. intros x. apply float_of_bool_binary. }
  assert (Hpos : Forall (fun x => 0 < x) sh).
  { destruct (shift_row_spec row) as (sh' & Hsh' & _ & Hall).
    - intros ->. done.
    - rewrite Hsh in Hsh'. by injection Hsh' as <-. }
  destruct (masked_argmax_allowed sh _ masked k Hpos Hop Harg Hbin) as (vk & Hvk & Hvk1).
  { exists j. eexists. split; [by rewrite list_lookup_fmap, Hj|].
    intros Hz. apply vocab_mask_entry in Hnz. rewrite Hnz in Hz. discriminate Hz. }
  rewrite list_lookup_fmap in Hvk.
  destruct (row !! k) as [v|] eqn:Hv; [|done]. injection Hvk as <-.
  apply vocab_mask_entry in Hvk1.
  destruct (vocab_distribution_spec _ _ _ _ Hd) as [_ Hrows].
  destruct (Hrows b row Hrow) as (index & src & Hi & _ & Hl & _ & Hzero).
  exists index, v. split; [done|]. split; [|split; [done|done]].
  destruct (decide (k ∈ index)) as [|Hnot]; [done|]. exfalso.
  assert (Hklt : (k < vocab_size)%nat) by (rewrite <- Hl; by eapply lookup_lt_Some).
  rewrite (Hzero k Hnot Hklt) in Hv. injection Hv as <-. by apply Hvk1.
Qed.

Lemma X9_answer_is_observed_word_witness :
  exists dist index v,
    vocab_distribution 5 [[1; 3; 1]%nat] [[1 # 4; 1 # 4; 1 # 2]] = Some dist
    /\ [[1; 3; 1]%nat] !! 0%nat = Some index /\ 1%nat ∈ index
    /\ ~ v == 0.
Proof.
  eexists.
  destruct (X9_answer_is_observed_word 5 [[1; 3; 1]%nat] [[1 # 4; 1 # 4; 1 # 2]]
              _ [1%nat] 0 1 _ eq_refl eq_refl eq_refl eq_refl)
    as (index & v & Hi & Hk & _ & Hv).
  - exists 1%nat. eexists. split; [reflexivity|]. discriminate.
  - exists index, v. split; [reflexivity|]. split; [exact Hi|]. split; [exact Hk|exact Hv].
Defined.

(** X10: when the attention sum of a game is zero for every word of the
    vocabulary, [answer_question_act_greedy] answers with word id 0. *)
Theorem X10_answer_without_attention (vocab_size : nat) (observation : list (list nat))
    (pred dist : list (list Q)) (answers : list nat) (b k : nat) (row : list Q) :
  vocab_distribution vocab_size observation pred = Some dist ->
  answer_question_act_greedy vocab_size observation pred = Some answers ->
  answers !! b = Some k ->
  dist !! b = Some row ->
  Forall (fun x => x == 0) row ->
  k = 0%nat.
Proof.
  intros Hd H Hk Hrow Hzero.
  unfold answer_question_act_greedy in H. rewrite Hd in H.
  cbn [mbind option_bind] in H.
  destruct (point_maxq_position_row _ _ _ _ _ H Hk)
    as (row' & mrow & sh & masked & Hrow' & Hmrow & Hsh & Hop & Harg).
  rewrite Hrow in Hrow'. injection Hrow' as <-.
  unfold vocab_mask in Hmrow. rewrite list_lookup_fmap, Hrow in Hmrow.
  injection Hmrow as <-.
  eapply all_masked_argmax; [exact Hop|exact Harg|].
  apply Forall_fmap. eapply Forall_impl; [exact Hzero|].
  intros x Hx. simpl. apply Qeq_bool_iff in Hx. rewrite Hx. reflexivity.
Qed.

Lemma X10_answer_without_attention_witness :
  exists k : nat,
    answer_question_act_greedy 3 [[2; 1]%nat] [[0; 0]] = Some [k] /\ k = 0%nat.
Proof.
  eexists. split; [reflexivity|].
  apply (X10_answer_without_attention 3 [[2; 1]%nat] [[0; 0]] _ _ 0 _ _
           eq_refl eq_refl eq_refl eq_refl).
  repeat constructor.
Defined.

End AnswerChoice.

(** ** The end of an episode *)

Section ScheduleFacts.
Import Schedule.

(** Counting in steps of [b], at most [f] wide: the remainder does not grow
    exactly when a multiple of [f] is passed. *)
Lemma passes_multiple (e b f : Z) :
  (0 < b <= f)%Z ->
  ((e + b) mod f <= e mod f)%Z <-> exists k : Z, (e < k * f <= e + b)%Z.
Proof.
  intros Hb. assert (Hf : (0 < f)%Z) by lia.
  pose proof (Z.div_mod e f ltac:(lia)) as He.
  pose proof (Z.mod_pos_bound e f Hf) as Hr.
  pose proof (Z.div_mod (e + b) f ltac:(lia)) as He'.
  pose proof (Z.mod_pos_bound (e + b) f Hf) as Hr'.
  set (q := (e / f)%Z) in *. set (r := (e mod f)%Z) in *.
  set (q' := ((e + b) / f)%Z) in *. set (r' := ((e + b) mod f)%Z) in *.
  split.
  - intros Hle. exists q'. assert (q < q')%Z by nia. nia.
  - intros (k & Hk1 & Hk2).
    assert (q < k)%Z by nia. assert (k <= q')%Z by nia. nia.
Qed.

Lemma inject_Z_pos (n : Z) : (0 < n)%Z -> 0 < inject_Z n.
Proof. intros H. change 0 with (inject_Z 0). by rewrite <- Zlt_Qlt. Qed.

(** What a call that returns has done. *)
Lemma finish_of_episode_Some (cfg : Settings) (st st' : State) (episode_no batch_size : Z) :
  finish_of_episode cfg st episode_no batch_size = Some st' ->
  let f := target_net_update_frequency cfg in
  let start := learn_start_from_this_episode cfg in
  let n := epsilon_anneal_episodes cfg in
  let m := revisit_counting_lambda_anneal_episodes cfg in
  f <> 0%Z
  /\ target_net_updates st'
     = (if (((episode_no + batch_size) mod f <=? episode_no mod f)%Z && negb (a2c cfg))%bool
        then S (target_net_updates st) else target_net_updates st)
  /\ epsilon st'
     = (if ((start <=? episode_no)%Z && (episode_no <? n + start)%Z)%bool
        then Qmax (epsilon st
                   - (epsilon_anneal_from cfg - epsilon_anneal_to cfg) / inject_Z n) 0
        else epsilon st)
  /\ revisit_counting_lambda st'
     = (if ((start <=? episode_no)%Z && (episode_no <? m + start)%Z)%bool
        then Qmax (epsilon st') 0
        else revisit_counting_lambda st).
Proof.
  unfold finish_of_episode, py_mod, true_div. intros H. cbv zeta.
  destruct (Z.eqb_spec (target_net_update_frequency cfg) 0) as [Hf|Hf]; [done|].
  cbn [mbind option_bind] in H. split; [done|].
  set (st1 := if (_ && _)%bool then update_target_net st else st) in H.
  assert (H1 : target_net_updates st1
               = (if (((episode_no + batch_size) mod target_net_update_frequency cfg
                       <=? episode_no mod target_net_update_frequency cfg)%Z
                      && negb (a2c cfg))%bool
                  then S (target_net_updates st) else target_net_updates st)
               /\ epsilon st1 = epsilon st
               /\ revisit_counting_lambda st1 = revisit_counting_lambda st).
  { unfold st1. destruct (_ && _)%bool; done. }
  destruct H1 as (Hu & He & Hl). clearbody st1.
  destruct (Z.ltb_spec episode_no (learn_start_from_this_episode cfg)) as [Hs|Hs].
  { injection H as <-.
    rewrite (proj2 (Z.leb_gt (learn_start_from_this_episode cfg) episode_no)) by lia.
    cbn [andb]. done. }
  rewrite (proj2 (Z.leb_le (learn_start_from_this_episode cfg) episode_no)) by lia.
  cbn [andb].
  destruct (Z.ltb_spec episode_no
              (epsilon_anneal_episodes cfg + learn_start_from_this_episode cfg)).
  - destruct (Z.eqb_spec (epsilon_anneal_episodes cfg) 0); [lia|].
    cbn [mbind option_bind] in H.
    destruct (Z.ltb_spec episode_no
                (revisit_counting_lambda_anneal_episodes cfg
                 + learn_start_from_this_episode cfg)).
    + destruct (Z.eqb_spec (revisit_counting_lambda_anneal_episodes cfg) 0); [lia|].
      cbn [mbind option_bind] in H. injection H as <-. cbn. rewrite He. done.
    + injection H as <-. cbn. rewrite He. done.
  - cbn [mbind option_bind] in H.
    destruct (Z.ltb_spec episode_no
                (revisit_counting_lambda_anneal_episodes cfg
                 + learn_start_from_this_episode cfg)).
    + destruct (Z.eqb_spec (revisit_counting_lambda_anneal_episodes cfg) 0); [lia|].
      cbn [mbind option_bind] in H. injection H as <-. cbn. done.
    + injection H as <-. done.
Qed.

Lemma finish_of_episode_returns (cfg : Settings) (st : State) (episode_no batch_size : Z) :
  target_net_update_frequency cfg <> 0%Z ->
  exists st', finish_of_episode cfg st episode_no batch_size = Some st'.
Proof.
  intros Hf. destruct (finish_of_episode cfg st episode_no batch_size) as [st'|] eqn:E;
    [eauto|].
  unfold finish_of_episode, py_mod, true_div in E.
  destruct (Z.eqb_spec (target_net_update_frequency cfg) 0); [done|].
  cbn [mbind option_bind] in E.
  destruct (Z.ltb_spec episode_no (learn_start_from_this_episode cfg)); [done|].
  destruct (Z.ltb_spec episode_no
              (epsilon_anneal_episodes cfg + learn_start_from_this_episode cfg));
    [destruct (Z.eqb_spec (epsilon_anneal_episodes cfg) 0); [lia|]|];
    cbn [mbind option_bind] in E;
    (destruct (Z.ltb_spec episode_no
                (revisit_counting_lambda_anneal_episodes cfg
                 + learn_start_from_this_episode cfg)); [|done]);
    destruct (Z.eqb_spec (revisit_counting_lambda_anneal_episodes cfg) 0); [lia|done|lia|done].
Qed.

(** X11: [finish_of_episode] raises exactly when
    [target_net_update_frequency] is 0: the two divisions by the numbers of
    anneal episodes are only reached when these numbers are positive. *)
Theorem X11_finish_of_episode_raises (cfg : Settings) (st : State)
    (episode_no batch_size : Z) :
  finish_of_episode cfg st episode_no batch_size = None
  <-> target_net_update_frequency cfg = 0%Z.
Proof.
  split.
  - intros Hnone.
    destruct (Z.eq_dec (target_net_update_frequency cfg) 0%Z) as [|Hf]; [done|].
    destruct (finish_of_episode_returns cfg st episode_no batch_size Hf) as [st' H].
    congruence.
  - intros Hf. unfold finish_of_episode, py_mod. rewrite Hf. done.
Qed.

(** X12: with a batch that is not empty and not larger than
    [target_net_update_frequency], [finish_of_episode] updates the target
    network exactly when the agent is not an A2C agent and the episode
    counter passes a multiple of the frequency during the episode. *)
Theorem X12_finish_of_episode_target_net (cfg : Settings) (st st' : State)
    (episode_no batch_size : Z) :
  (0 < batch_size <= target_net_update_frequency cfg)%Z ->
  finish_of_episode cfg st episode_no batch_size = Some st' ->
  let passed :=
    exists k : Z,
      (episode_no < k * target_net_update_frequency cfg <= episode_no + batch_size)%Z in
  (a2c cfg = false /\ passed -> target_net_updates st' = S (target_net_updates st))
  /\ (a2c cfg = true \/ ~ passed -> target_net_updates st' = target_net_updates st).
Proof.
  intros Hb H. destruct (finish_of_episode_Some _ _ _ _ _ H) as (_ & Hu & _).
  cbv zeta. rewrite Hu. pose proof (passes_multiple episode_no _ _ Hb) as Hp.
  destruct (Z.leb_spec ((episode_no + batch_size) mod target_net_update_frequency cfg)
              (episode_no mod target_net_update_frequency cfg)) as [Hle|Hgt].
  - destruct (a2c cfg); cbn [andb negb].
    + split; [intros [? _]; done|done].
    + split; [done|]. intros [?|Hn]; [done|]. exfalso. apply Hn, Hp, Hle.
  - cbn [andb]. split; [|done]. intros [_ Hk]. apply Hp in Hk. lia.
Qed.

End ScheduleFacts.

Section AnnealFacts.
Import Schedule.

Lemma X12_finish_of_episode_target_net_witness :
  exists st',
    finish_of_episode
      {| target_net_update_frequency := 10; learn_start_from_this_episode := 0;
         epsilon_anneal_episodes := 100; epsilon_anneal_from := 1;
         epsilon_anneal_to := 1 # 10;
         revisit_counting_lambda_anneal_episodes := 100;
         revisit_counting_lambda_anneal_from := 1 # 10;
         revisit_counting_lambda_anneal_to := 0; a2c := false |}
      {| epsilon := 1; revisit_counting_lambda := 1 # 10; target_net_updates := 0 |}
      8 4 = Some st'
    /\ target_net_updates st' = 1%nat.
Proof.
  eexists. split; [reflexivity|].
  match goal with
  | |- target_net_updates ?s = _ =>
      destruct (X12_finish_of_episode_target_net
                  {| target_net_update_frequency := 10;
                     learn_start_from_this_episode := 0;
                     epsilon_anneal_episodes := 100; epsilon_anneal_from := 1;
                     epsilon_anneal_to := 1 # 10;
                     revisit_counting_lambda_anneal_episodes := 100;
                     revisit_counting_lambda_anneal_from := 1 # 10;
                     revisit_counting_lambda_anneal_to := 0; a2c := false |}
                  {| epsilon := 1; revisit_counting_lambda := 1 # 10;
                     target_net_updates := 0 |} s 8 4) as [Hyes _]
  end.
  - simpl. lia.
  - reflexivity.
  - apply Hyes. split; [reflexivity|]. exists 1%Z. simpl. lia.
Defined.

(** X13: when the anneal target of epsilon is not above its start,
    [finish_of_episode] never raises epsilon and never makes it negative. *)
Theorem X13_finish_of_episode_epsilon (cfg : Settings) (st st' : State)
    (episode_no batch_size : Z) :
  epsilon_anneal_to cfg <= epsilon_anneal_from cfg ->
  0 <= epsilon st ->
  finish_of_episode cfg st episode_no batch_size = Some st' ->
  0 <= epsilon st' /\ epsilon st' <= epsilon st.
Proof.
  intros Hft He H. destruct (finish_of_episode_Some _ _ _ _ _ H) as (_ & _ & -> & _).
  destruct (Z.leb_spec (learn_start_from_this_episode cfg) episode_no); cbn [andb];
    [|split; [done|apply Qle_refl]].
  destruct (Z.ltb_spec episode_no
              (epsilon_anneal_episodes cfg + learn_start_from_this_episode cfg));
    [|split; [done|apply Qle_refl]].
  assert (Hn : 0 < inject_Z (epsilon_anneal_episodes cfg)) by (apply inject_Z_pos; lia).
  assert (Hstep : 0 <= (epsilon_anneal_from cfg - epsilon_anneal_to cfg)
                       / inject_Z (epsilon_anneal_episodes cfg)).
  { apply Qle_shift_div_l; [done|]. lra. }
  split; [apply Q.le_max_r|]. apply Q.max_lub; lra.
Qed.

Lemma X13_finish_of_episode_epsilon_witness :
  exists st',
    finish_of_episode
      {| target_net_update_frequency := 10; learn_start_from_this_episode := 0;
         epsilon_anneal_episodes := 100; epsilon_anneal_from := 1;
         epsilon_anneal_to := 1 # 10;
         revisit_counting_lambda_anneal_episodes := 100;
         revisit_counting_lambda_anneal_from := 1 # 10;
         revisit_counting_lambda_anneal_to := 0; a2c := false |}
      {| epsilon := 1; revisit_counting_lambda := 1 # 10; target_net_updates := 0 |}
      8 4 = Some st'
    /\ 0 <= epsilon st' /\ epsilon st' <= 1.
Proof.
  eexists. split; [reflexivity|].
  apply (X13_finish_of_episode_epsilon
           {| target_net_update_frequency := 10; learn_start_from_this_episode := 0;
              epsilon_anneal_episodes := 100; epsilon_anneal_from := 1;
              epsilon_anneal_to := 1 # 10;
              revisit_counting_lambda_anneal_episodes := 100;
              revisit_counting_lambda_anneal_from := 1 # 10;
              revisit_counting_lambda_anneal_to := 0; a2c := false |}
           {| epsilon := 1; revisit_counting_lambda := 1 # 10;
              target_net_updates := 0 |} _ 8 4).
  - simpl. lra.
  - simpl. lra.
  - reflexivity.
Defined.

(** X14: while the counting weight is annealed (from the learning start,
    for [revisit_counting_lambda_anneal_episodes] episodes),
    [finish_of_episode] sets [revisit_counting_lambda] to the epsilon it
    has just computed, cut at 0 from below, whatever the anneal settings of
    the counting weight and its value before are. *)
Theorem X14_finish_of_episode_counting_lambda (cfg : Settings) (st st' : State)
    (episode_no batch_size : Z) :
  (learn_start_from_this_episode cfg <= episode_no)%Z ->
  (episode_no < revisit_counting_lambda_anneal_episodes cfg
                + learn_start_from_this_episode cfg)%Z ->
  finish_of_episode cfg st episode_no batch_size = Some st' ->
  revisit_counting_lambda st' == Qmax (epsilon st') 0.
Proof.
  intros H1 H2 H. destruct (finish_of_episode_Some _ _ _ _ _ H) as (_ & _ & _ & ->).
  rewrite (proj2 (Z.leb_le _ _) H1), (proj2 (Z.ltb_lt _ _) H2). reflexivity.
Qed.

Lemma X14_finish_of_episode_counting_lambda_witness :
  exists st',
    finish_of_episode
      {| target_net_update_frequency := 10; learn_start_from_this_episode := 0;
         epsilon_anneal_episodes := 100; epsilon_anneal_from := 1;
         epsilon_anneal_to := 1 # 10;
         revisit_counting_lambda_anneal_episodes := 100;
         revisit_counting_lambda_anneal_from := 1 # 10;
         revisit_counting_lambda_anneal_to := 0; a2c := false |}
      {| epsilon := 1; revisit_counting_lambda := 1 # 10; target_net_updates := 0 |}
      8 4 = Some st'
    /\ revisit_counting_lambda st' == Qmax (epsilon st') 0.
Proof.
  eexists. split; [reflexivity|].
  apply (X14_finish_of_episode_counting_lambda
           {| target_net_update_frequency := 10; learn_start_from_this_episode := 0;
              epsilon_anneal_episodes := 100; epsilon_anneal_from := 1;
              epsilon_anneal_to := 1 # 10;
              revisit_counting_lambda_anneal_episodes := 100;
              revisit_counting_lambda_anneal_from := 1 # 10;
              revisit_counting_lambda_anneal_to := 0; a2c := false |}
           {| epsilon := 1; revisit_counting_lambda := 1 # 10;
              target_net_updates := 0 |} _ 8 4).
  - simpl. lia.
  - simpl. lia.
  - reflexivity.
Defined.

End AnnealFacts.

Section EpisodesFacts.
Import Schedule.

(** One episode moves the quotient of the episode counter by the update
    frequency by at most one, and exactly when the remainder does not
    grow. *)
Lemma quotient_step (e b f : Z) :
  (0 < b <= f)%Z ->
  ((e + b) / f = e / f + (if ((e + b) mod f <=? e mod f)%Z then 1 else 0))%Z.
Proof.
  intros Hb. assert (Hf : (0 < f)%Z) by lia.
  pose proof (Z.div_mod e f ltac:(lia)) as He.
  pose proof (Z.mod_pos_bound e f Hf) as Hr.
  pose proof (Z.div_mod (e + b) f ltac:(lia)) as He'.
  pose proof (Z.mod_pos_bound (e + b) f Hf) as Hr'.
  set (q := (e / f)%Z) in *. set (r := (e mod f)%Z) in *.
  set (q' := ((e + b) / f)%Z) in *. set (r' := ((e + b) mod f)%Z) in *.
  destruct (Z.leb_spec r' r); nia.
Qed.

(** X15: over [n] consecutive episodes of [train], each ended by
    [finish_of_episode] and followed by [episode_no += batch_size], with a
    batch that is not empty and not larger than
    [target_net_update_frequency], an agent that is not an A2C agent
    updates its target network once for every multiple of the frequency
    that the episode counter passes: [(episode_no + n * batch_size) //
    frequency - episode_no // frequency] times.  An A2C agent never
    updates it. *)
Theorem X15_finish_episodes_target_net (cfg : Settings) (n : nat) :
  forall (st : State) (episode_no batch_size : Z),
    (0 < batch_size <= target_net_update_frequency cfg)%Z ->
    exists st',
      finish_episodes cfg st episode_no batch_size n = Some st'
      /\ Z.of_nat (target_net_updates st')
         = (Z.of_nat (target_net_updates st)
            + (if a2c cfg then 0
               else (episode_no + Z.of_nat n * batch_size)
                      / target_net_update_frequency cfg
                    - episode_no / target_net_update_frequency cfg))%Z.
Proof.
  induction n as [|n IH]; intros st e b Hb.
  - exists st. split; [done|]. destruct (a2c cfg); [lia|].
    replace (e + Z.of_nat 0 * b)%Z with e by lia. lia.
  - cbn [finish_episodes].
    destruct (finish_of_episode_returns cfg st e b ltac:(lia)) as [st1 H1].
    rewrite H1. cbn [mbind option_bind].
    destruct (finish_of_episode_Some _ _ _ _ _ H1) as (_ & Hu & _).
    destruct (IH st1 (e + b)%Z b Hb) as (st' & Hrun & Hcount).
    exists st'. split; [done|]. rewrite Hcount, Hu.
    pose proof (quotient_step e b _ Hb) as Hq.
    replace (e + Z.of_nat (S n) * b)%Z with (e + b + Z.of_nat n * b)%Z by lia.
    destruct (a2c cfg); cbn [andb negb].
    + rewrite andb_false_r. lia.
    + rewrite andb_true_r.
      destruct ((e + b) mod target_net_update_frequency cfg
                <=? e mod target_net_update_frequency cfg)%Z; lia.
Qed.

Lemma X15_finish_episodes_target_net_witness :
  exists st',
    finish_episodes
      {| target_net_update_frequency := 10; learn_start_from_this_episode := 0;
         epsilon_anneal_episodes := 8; epsilon_anneal_from := 1;
         epsilon_anneal_to := 0;
         revisit_counting_lambda_anneal_episodes := 8;
         revisit_counting_lambda_anneal_from := 1 # 10;
         revisit_counting_lambda_anneal_to := 0; a2c := false |}
      {| epsilon := 1; revisit_counting_lambda := 1 # 10; target_net_updates := 0 |}
      7 4 6 = Some st'
    /\ Z.of_nat (target_net_updates st') = (0 + ((7 + 6 * 4) / 10 - 7 / 10))%Z.
Proof.
  apply (X15_finish_episodes_target_net
           {| target_net_update_frequency := 10; learn_start_from_this_episode := 0;
              epsilon_anneal_episodes := 8; epsilon_anneal_from := 1;
              epsilon_anneal_to := 0;
              revisit_counting_lambda_anneal_episodes := 8;
              revisit_counting_lambda_anneal_from := 1 # 10;
              revisit_counting_lambda_anneal_to := 0; a2c := false |} 6
           {| epsilon := 1; revisit_counting_lambda := 1 # 10;
              target_net_updates := 0 |} 7 4).
  simpl. lia.
Defined.

(** X16: from the learning start on, with a batch that is not empty and not
    larger than [save_frequency], the training loop goes on to evaluation,
    saving and the accuracy log after an episode exactly when the episode
    counter has passed a multiple of [save_frequency] during the episode. *)
Theorem X16_skips_report_passes (learn_start save_frequency episode_no batch_size : Z) :
  (0 < batch_size <= save_frequency)%Z ->
  (learn_start <= episode_no)%Z ->
  episode_no <> 0%Z ->
  skips_report learn_start save_frequency episode_no batch_size = Some false
  <-> exists k : Z, (episode_no - batch_size < k * save_frequency <= episode_no)%Z.
Proof.
  intros Hb Hs H0. unfold skips_report, py_mod.
  rewrite (proj2 (Z.ltb_ge _ _)) by lia.
  rewrite (proj2 (Z.eqb_neq episode_no 0)) by done.
  rewrite (proj2 (Z.eqb_neq save_frequency 0)) by lia.
  cbn [mbind option_bind].
  pose proof (passes_multiple (episode_no - batch_size) _ _ Hb) as Hp.
  replace (episode_no - batch_size + batch_size)%Z with episode_no in Hp by lia.
  rewrite <- Hp.
  destruct (Z.ltb_spec ((episode_no - batch_size) mod save_frequency)
              (episode_no mod save_frequency)); split; intros ?; (done || lia).
Qed.

Lemma X16_skips_report_passes_witness :
  skips_report 0 10 12 4 = Some false
  <-> exists k : Z, (12 - 4 < k * 10 <= 12)%Z.
Proof. apply (X16_skips_report_passes 0 10 12 4); lia. Defined.

End EpisodesFacts.

(** ** The state counter out of range *)

Section CounterBounds.
Import Counter.

Lemma count_loop_raises (observation_strings : list string) (update : bool) :
  forall (dict : counter_dict) (i : nat),
    (i <= length dict)%nat ->
    (length dict < i + length observation_strings)%nat ->
    count_loop dict i observation_strings update = None.
Proof.
  induction observation_strings as [|key rest IH]; intros dict i Hi Hlen;
    cbn [count_loop]; [simpl in Hlen; lia|].
  destruct (dict !! i) as [d|] eqn:Hd; [|done].
  destruct (count_key d key update) as [d' r].
  rewrite IH; [done| |].
  - rewrite length_insert. apply lookup_lt_Some in Hd. lia.
  - rewrite length_insert. simpl in Hlen. lia.
Qed.

(** X17: [get_binarized_count] raises (an index error) exactly when it is
    given more observation strings than the counter has dictionaries, that
    is, a batch larger than the one of the last reset. *)
Theorem X17_get_binarized_count_raises (dict : counter_dict)
    (observation_strings : list string) (update : bool) :
  get_binarized_count dict observation_strings update = None
  <-> (length dict < length observation_strings)%nat.
Proof.
  split.
  - intros Hnone. destruct (Nat.lt_ge_cases (length dict) (length observation_strings))
      as [Hlt|Hge]; [done|].
    destruct (get_binarized_count_spec dict observation_strings update Hge)
      as (dict' & rs & Hrun & _). congruence.
  - intros Hlt. apply count_loop_raises; simpl; lia.
Qed.

End CounterBounds.

(** ** The support, the projection and the loss of the off-policy update *)

(** One step of a computation in the option monad that has returned. *)
Ltac step_bind H x E :=
  match type of H with
  | (?c ≫= _) = Some _ =>
      destruct c as [x|] eqn:E; cbn [mbind option_bind] in H; [|discriminate H]
  end.

Section SupportFacts.
Import DQN.

Lemma index_add_nonneg (index : list Z) :
  forall (source m m' : list Q),
    index_add m index source = Some m' ->
    Forall (fun x => 0 <= x) m ->
    Forall (fun x => 0 <= x) source ->
    Forall (fun x => 0 <= x) m'.
Proof.
  induction index as [|k index IH]; intros [|v source] m m' H Hm Hs;
    cbn [index_add] in H; try done.
  - by injection H as <-.
  - destruct ((0 <=? k)%Z && (k <? Z.of_nat (length m))%Z)%bool; [|done].
    destruct (m !! Z.to_nat k) as [x|] eqn:Hx; cbn [mbind option_bind] in H; [|done].
    inversion Hs as [|? ? Hv Hs']; subst.
    apply (IH _ _ _ H); [|done].
    apply Forall_insert; [done|].
    pose proof (Forall_lookup_1 _ _ _ _ Hm Hx) as Hx0. cbv beta in Hx0. lra.
Qed.

(** The two bins of a position enclose it. *)
Lemma bins_between (atoms : nat) (b : Q) :
  (2 <= atoms)%nat ->
  0 <= b ->
  b <= inject_Z (Z.of_nat atoms - 1) ->
  inject_Z (fst (bins atoms b)) <= b /\ b <= inject_Z (snd (bins atoms b)).
Proof.
  intros Ha H0 Hm. destruct (bins_spec atoms b Ha H0 Hm) as (_ & _ & Hu & Heq & Hne).
  cbv zeta in *. pose proof (Qfloor_le b) as Hf. pose proof (Qle_ceiling b) as Hc.
  destruct (Z.eq_dec (Qfloor b) (Qceiling b)) as [E|E].
  - specialize (Heq E). destruct (0 <? Qceiling b)%Z.
    + destruct Heq as [Hl Hu']. rewrite Hu', Hl. split; [|done].
      unfold Z.sub. rewrite inject_Z_plus, inject_Z_opp. change (inject_Z 1) with 1. lra.
    + destruct Heq as [Hl Hu']. rewrite Hu', Hl. split; [done|].
      rewrite inject_Z_plus. change (inject_Z 1) with 1. lra.
  - destruct (Hne E) as [-> ->]. done.
Qed.

Lemma Forall_concat_nonneg (rows : list (list Q)) :
  Forall (Forall (fun x => 0 <= x)) rows -> Forall (fun x => 0 <= x) (concat rows).
Proof. induction 1; simpl; [constructor|]. apply Forall_app. done. Qed.

Lemma matrix_op_mult_nonneg (a b m : list (list Q)) :
  matrix_op Qmult a b = Some m ->
  Forall (Forall (fun x => 0 <= x)) a ->
  Forall (Forall (fun x => 0 <= x)) b ->
  Forall (Forall (fun x => 0 <= x)) m.
Proof.
  unfold matrix_op. case_decide as Hl; [|done]. intros H Ha Hb.
  apply Forall_lookup_2. intros i row Hrow.
  destruct (mapM_lookup_r _ _ _ _ _ H Hrow) as ([x y] & Hz & Hop).
  apply lookup_zip_with_Some in Hz as (x' & y' & [= <- <-] & Hx & Hy).
  unfold tensor_op in Hop. case_decide; [|done]. injection Hop as <-.
  apply Forall_lookup_2. intros j v Hv.
  apply lookup_zip_with_Some in Hv as (p & q & -> & Hp & Hq).
  pose proof (Forall_lookup_1 _ _ _ _ (Forall_lookup_1 _ _ _ _ Ha Hx) Hp) as Hp0.
  pose proof (Forall_lookup_1 _ _ _ _ (Forall_lookup_1 _ _ _ _ Hb Hy) Hq) as Hq0.
  cbv beta in *. by apply Qmult_le_0_compat.
Qed.

Lemma matrix_op_minus_nonneg (a b m : list (list Q)) :
  matrix_op Qminus a b = Some m ->
  Forall2 (Forall2 (fun x y => y <= x)) a b ->
  Forall (Forall (fun x => 0 <= x)) m.
Proof.
  unfold matrix_op. case_decide as Hl; [|done]. intros H Hab.
  apply Forall_lookup_2. intros i row Hrow.
  destruct (mapM_lookup_r _ _ _ _ _ H Hrow) as ([x y] & Hz & Hop).
  apply lookup_zip_with_Some in Hz as (x' & y' & [= <- <-] & Hx & Hy).
  unfold tensor_op in Hop. case_decide; [|done]. injection Hop as <-.
  apply Forall_lookup_2. intros j v Hv.
  apply lookup_zip_with_Some in Hv as (p & q & -> & Hp & Hq).
  pose proof (Forall2_lookup_lr _ _ _ _ _ _ Hab Hx Hy) as Hrows.
  pose proof (Forall2_lookup_lr _ _ _ _ _ _ Hrows Hp Hq) as Hle.
  cbv beta in *. lra.
Qed.

End SupportFacts.

Section ProjectionSign.
Import DQN.

(** X19: the projection keeps a distribution a distribution: with at least
    two atoms and [v_min < v_max], when no entry of the predicted next
    distribution is negative, no entry of the projected target is
    negative. *)
Theorem X19_projection_is_not_negative (cfg : Config) (batch_size : nat)
    (rewards discount : list Q) (next_q_value m : list (list Q)) :
  (2 <= atoms cfg)%nat ->
  v_min cfg < v_max cfg ->
  Forall (Forall (fun p => 0 <= p)) next_q_value ->
  projected_distribution cfg batch_size rewards discount next_q_value = Some m ->
  Forall (Forall (fun x => 0 <= x)) m.
Proof.
  intros Ha Hv Hq H. unfold projected_distribution in H.
  case_decide as Hlen; [|done]. cbn [mbind option_bind] in H.
  set (Tz := zip_with _ rewards discount) in H.
  set (B := map (map (fun t : Q => (t - v_min cfg) / delta_z cfg)) Tz) in H.
  assert (HB : Forall (Forall (fun b => 0 <= b
                                        /\ b <= inject_Z (Z.of_nat (atoms cfg) - 1))) B).
  { unfold B. apply Forall_fmap, Forall_lookup_2. intros i row Hrow. simpl.
    apply Forall_fmap. unfold Tz in Hrow.
    apply lookup_zip_with_Some in Hrow as (r & d & -> & _ & _).
    apply Forall_fmap, Forall_true. intros z. simpl.
    exact (position_range cfg Ha Hv (r + d * z)). }
  step_bind H u_b Hub.
  step_bind H b_l Hbl.
  step_bind H l_index Hli.
  step_bind H l_source Hls.
  step_bind H m1 Hm1.
  step_bind H u_index Hui.
  step_bind H u_source Hus.
  step_bind H m2 Hm2.
  injection H as <-.
  assert (Hub0 : Forall (Forall (fun x => 0 <= x)) u_b).
  { apply (matrix_op_minus_nonneg _ _ _ Hub).
    apply Forall2_fmap_l, Forall2_fmap_l, Forall_Forall2_diag.
    eapply Forall_impl; [exact HB|]. intros row Hrow. simpl.
    apply Forall2_fmap_l, Forall2_fmap_l, Forall_Forall2_diag.
    eapply Forall_impl; [exact Hrow|]. intros b [H0 Hm]. simpl.
    apply (bins_between (atoms cfg) b Ha H0 Hm). }
  assert (Hbl0 : Forall (Forall (fun x => 0 <= x)) b_l).
  { apply (matrix_op_minus_nonneg _ _ _ Hbl).
    apply Forall2_fmap_r, Forall2_fmap_r, Forall_Forall2_diag.
    eapply Forall_impl; [exact HB|]. intros row Hrow. simpl.
    apply Forall2_fmap_r, Forall2_fmap_r, Forall_Forall2_diag.
    eapply Forall_impl; [exact Hrow|]. intros b [H0 Hm]. simpl.
    apply (bins_between (atoms cfg) b Ha H0 Hm). }
  assert (Hm10 : Forall (fun x => 0 <= x) m1).
  { apply (index_add_nonneg _ _ _ _ Hm1).
    - apply Forall_replicate. apply Qle_refl.
    - apply Forall_concat_nonneg. by eapply matrix_op_mult_nonneg. }
  assert (Hm20 : Forall (fun x => 0 <= x) m2).
  { apply (index_add_nonneg _ _ _ _ Hm2); [done|].
    apply Forall_concat_nonneg. by eapply matrix_op_mult_nonneg. }
  unfold rows_of. apply Forall_fmap, Forall_true. intros i. simpl.
  apply Forall_take, Forall_drop. done.
Qed.

Lemma X19_projection_is_not_negative_witness :
  exists m,
    projected_distribution
      {| discount_gamma := 1 # 2; replay_batch_size := 1; multi_step := 1;
         use_distributional := true; atoms := 3; v_min := 0; v_max := 2;
         double_dqn := true; DQN.icm := None; word_vocab := [] |}
      1 [1] [1 # 2] [[1 # 4; 1 # 2; 1 # 4]] = Some m
    /\ Forall (Forall (fun x => 0 <= x)) m.
Proof.
  eexists. split; [reflexivity|].
  apply (X19_projection_is_not_negative
           {| discount_gamma := 1 # 2; replay_batch_size := 1; multi_step := 1;
              use_distributional := true; atoms := 3; v_min := 0; v_max := 2;
              double_dqn := true; DQN.icm := None; word_vocab := [] |}
           1 [1] [1 # 2] [[1 # 4; 1 # 2; 1 # 4]]).
  - simpl. lia.
  - reflexivity.
  - repeat constructor; discriminate.
  - reflexivity.
Defined.

Lemma smooth_l1_nonneg (x y : Q) : 0 <= smooth_l1 x y.
Proof.
  unfold smooth_l1. pose proof (Qabs_nonneg (x - y)) as Ha.
  destruct (Qlt_le_dec (Qabs (x - y)) 1); [nra|lra].
Qed.

Lemma Qsum_nonneg (l : list Q) : Forall (fun x => 0 <= x) l -> 0 <= Qsum l.
Proof. induction 1; simpl; lra. Qed.

Lemma smooth_l1_loss_nonneg (input tgt : list Q) (loss : Q) :
  input <> [] ->
  smooth_l1_loss input tgt = Some loss ->
  0 <= loss.
Proof.
  intros Hne H. unfold smooth_l1_loss, tensor_op in H. case_decide as Hl; [|done].
  cbn [mbind option_bind] in H. injection H as <-.
  assert (Hn : 0 < inject_Z (Z.of_nat (length (zip_with smooth_l1 input tgt)))).
  { rewrite length_zip_with, <- Hl, Nat.min_id. change 0 with (inject_Z 0).
    rewrite <- Zlt_Qlt. destruct input; [done|simpl; lia]. }
  unfold Qmean. apply Qle_shift_div_l; [done|]. rewrite Qmult_0_l.
  apply Qsum_nonneg. apply Forall_lookup_2. intros i v Hv.
  apply lookup_zip_with_Some in Hv as (x & y & -> & _ & _). apply smooth_l1_nonneg.
Qed.

End ProjectionSign.

Section LossSign.
Import Curiosity Command DQN.
Variable get_ranks :
  model -> list string -> list string -> list (list (list Q)) -> ranks.
Variable ln : Q -> Q.

(** X20: in non-distributional mode without the curiosity module, the loss
    that [get_dqn_loss] computes for a sampled batch that is not empty is
    never negative. *)
Theorem X20_dqn_loss_not_negative (cfg : Config) (data : Batch) (loss : Q) :
  use_distributional cfg = false ->
  icm cfg = None ->
  rewards data <> [] ->
  loss_of_batch get_ranks ln cfg data = Some loss ->
  0 <= loss.
Proof.
  intros Hud Hicm Hne H. unfold loss_of_batch in H.
  destruct (q_values get_ranks cfg data) as [[q_value next_q]|];
    cbn [mbind option_bind] in H; [|done].
  rewrite Hud in H. cbn [negb] in H.
  destruct q_value as [q|], next_q as [nq|]; try done.
  step_bind H tgt Htgt. step_bind H dqn_loss Hloss.
  injection H as <-. rewrite Hicm. cbn [with_curiosity].
  apply (smooth_l1_loss_nonneg q tgt); [|done].
  unfold bootstrap_target in Htgt. step_bind Htgt boot Hboot.
  unfold tensor_op in Htgt. case_decide as Hl1; [|done]. injection Htgt as <-.
  unfold smooth_l1_loss, tensor_op in Hloss. case_decide as Hl2; [|done].
  rewrite length_zip_with, <- Hl1, Nat.min_id in Hl2.
  intros ->. destruct (rewards data); [done|simpl in Hl2; lia].
Qed.

End LossSign.

Lemma X20_dqn_loss_not_negative_witness :
  exists loss,
    DQN.loss_of_batch
      (fun m _ _ _ =>
         match m with
         | DQN.online => Command.Values [[[1; 0]]; [[1; 0]]; [[1; 0]]]
         | DQN.target => Command.Values [[[2; 0]]; [[2; 0]]; [[2; 0]]]
         end)
      (fun x => x)
      {| DQN.discount_gamma := 1 # 2; DQN.replay_batch_size := 1;
         DQN.multi_step := 1; DQN.use_distributional := false; DQN.atoms := 2;
         DQN.v_min := 0; DQN.v_max := 1; DQN.double_dqn := true;
         DQN.icm := None; DQN.word_vocab := ["go"%string; "</s>"%string] |}
      {| DQN.obs_list := ["a hall"%string]; DQN.quest_list := ["where"%string];
         DQN.possible_words_list := [[["go"%string]; ["go"%string]; ["go"%string]]];
         DQN.chosen_indices := [[0%nat]; [0%nat]; [0%nat]];
         DQN.rewards := [1];
         DQN.next_obs_list := ["a cellar"%string];
         DQN.next_possible_words_list :=
           [[["go"%string]; ["go"%string]; ["go"%string]]];
         DQN.actual_n_list := [1%nat] |}
    = Some loss
    /\ 0 <= loss.
Proof.
  match goal with
  | |- exists loss, ?run = Some loss /\ _ => destruct run as [loss|] eqn:E
  end.
  - exists loss. split; [reflexivity|].
    match type of E with
    | DQN.loss_of_batch ?g ?l ?cfg ?data = _ =>
        apply (X20_dqn_loss_not_negative g l cfg data loss)
    end.
    + reflexivity.
    + reflexivity.
    + discriminate.
    + exact E.
  - vm_compute in E. discriminate E.
Defined.


(** ** The running masks and the finishing mask of an episode *)

Section RolloutFacts.
Import Train.

(** [act] never turns a flag back on. *)
Lemma act_le (batch : nat) (st st' : AgentState) (chosen : list string) (mask : list Q) :
  Spec.state_ok batch st ->
  act batch st chosen = Some (mask, st') ->
  Forall2 Qle mask (prev_step_is_still_interacting st).
Proof.
  intros (Hp & Hi & Hb) H. unfold act in H.
  destruct (wait_loop _ _ _ _) as [out|] eqn:E; [|done].
  cbn [mbind option_bind] in H. injection H as <- <-.
  destruct (wait_loop_spec (prev_actions_last st) batch 0
              (prev_step_is_still_interacting st)) as (out' & E' & Hl & _);
    [simpl; lia|simpl; lia|done|].
  rewrite E in E'. injection E' as <-.
  apply Forall2_same_length_lookup_2; [done|].
  intros b x y Hx Hy.
  destruct (wait_loop_lookup _ _ _ _ _ E b) as [Hout Hin].
  assert (Hlt : (b < batch)%nat) by (apply lookup_lt_Some in Hy; lia).
  destruct Hin as (a & _ & Hb'); [lia|]. rewrite Hx in Hb'.
  pose proof (Forall_lookup_1 _ _ _ _ Hb Hy) as Hy01.
  destruct (String.eqb a "wait").
  - injection Hb' as ->. destruct Hy01 as [E0|E1]; lra.
  - rewrite Hy in Hb'. injection Hb' as ->. apply Qle_refl.
Qed.

Lemma Forall2_Qle_trans (a b c : list Q) :
  Forall2 Qle a b -> Forall2 Qle b c -> Forall2 Qle a c.
Proof.
  intros Hab. revert c. induction Hab as [|x y a b Hxy _ IH]; intros c Hbc;
    inversion Hbc; subst; constructor; [by eapply Qle_trans|by apply IH].
Qed.

Lemma Forall2_Qle_refl (a : list Q) : Forall2 Qle a a.
Proof. induction a; constructor; [apply Qle_refl|done]. Qed.

Lemma zeros_le (batch : nat) (zero m : list Q) :
  Forall (fun x => x == 0) zero -> length zero = batch -> Spec.mask_ok batch m ->
  Forall2 Qle zero m.
Proof.
  intros Hz Hl [Hlm Hb]. apply Forall2_same_length_lookup_2; [lia|].
  intros i x y Hx Hy. pose proof (Forall_lookup_1 _ _ _ _ Hz Hx) as Hx0.
  destruct (Forall_lookup_1 _ _ _ _ Hb Hy) as [E|E]; cbv beta in *; lra.
Qed.

Section Episode.
Variable shares_memory : bool.
Variable commands_at : nat -> list string.
Variable c_rewards_at : nat -> list Q.
Variable vc_rewards_at : nat -> list Q.
Variable cfg : Settings.
Hypothesis commands_size : forall t, length (commands_at t) = batch_size cfg.

(** The masks that the step loop caches, as they read after the loop, never
    grow from one step to the next.  A mask with a memory of its own is
    below the flags at the start of its step; a mask on the memory of the
    agent's array reads as the final flags. *)
Lemma step_loop_monotone :
  forall (remaining step_no : nat) (st st' : AgentState) (acc acc' : StepCache),
    Spec.state_ok (batch_size cfg) st ->
    step_loop shares_memory commands_at c_rewards_at vc_rewards_at
      cfg st step_no remaining acc = Some (acc', st') ->
    exists new : list (option (list Q)),
      cached acc' = cached acc ++ new
      /\ Spec.state_ok (batch_size cfg) st'
      /\ (shares_memory = false ->
          Forall (fun m => Forall2 Qle m (prev_step_is_still_interacting st))
                 (map (read_mask st') new))
      /\ (shares_memory = true ->
          Forall (fun m => m = prev_step_is_still_interacting st'
                           \/ (Forall (fun x => x == 0) m
                               /\ length m = batch_size cfg))
                 (map (read_mask st') new))
      /\ forall (t : nat) (m m' : list Q),
           map (read_mask st') new !! t = Some m ->
           map (read_mask st') new !! S t = Some m' ->
           Forall2 Qle m' m.
Proof.
  induction remaining as [|remaining IH]; intros step_no st st' acc acc' Hst Hrun;
    cbn [step_loop] in Hrun.
  { injection Hrun as <- <-. exists []. rewrite app_nil_r.
    split; [done|]. split; [done|]. split; [constructor|]. split; [constructor|]. done. }
  destruct (act_spec (batch_size cfg) st (commands_at step_no) Hst (commands_size _))
    as (mask & st1 & Hact & Harr & [Hlm Hbm] & Hst1).
  rewrite Hact in Hrun. cbn [mbind option_bind] in Hrun.
  pose proof (act_le _ _ _ _ _ Hst Hact) as Hle.
  assert (Hzero : Forall (fun x => x == 0) (map (fun _ : Q => 0) mask)).
  { apply Forall_fmap, Forall_true. intros ?. simpl. reflexivity. }
  destruct (Nat.eqb step_no (max_nb_steps_per_episode cfg - 1)) eqn:Hlast.
  - cbn [orb] in Hrun. injection Hrun as <- <-. cbn [cached].
    exists [Some (map (fun _ => 0) mask)]. split; [done|]. split; [done|].
    cbn [map read_mask default from_option id].
    split; [|split].
    + intros _. constructor; [|constructor].
      eapply zeros_le; [done|by rewrite length_map|].
      destruct Hst as (_ & Hl & Hb). split; done.
    + intros _. constructor; [|constructor]. right. split; [done|].
      by rewrite length_map.
    + intros [|t] m m' Hm Hm'; done.
  - cbn [orb] in Hrun.
    destruct ((0 <? step_no)%nat && Qeq_bool (Qsum mask) 0)%bool eqn:Hstop.
    + injection Hrun as <- <-. cbn [cached].
      exists [if negb shares_memory then Some mask else None].
      split; [done|]. split; [done|].
      assert (Hread : read_mask st1 (if negb shares_memory then Some mask else None) = mask).
      { unfold read_mask. destruct shares_memory; simpl; done. }
      cbn [map]. rewrite Hread. split; [|split].
      * intros _. constructor; [done|constructor].
      * intros _. constructor; [|constructor]. left. done.
      * intros [|t] m m' Hm Hm'; done.
    + destruct (IH _ _ _ _ _ Hst1 Hrun) as (new & Hc & Hst' & Hsnap & Hshare & Hsorted).
      cbn [cached] in Hc.
      exists ((if negb shares_memory then Some mask else None) :: new).
      split; [rewrite Hc, <- app_assoc; done|]. split; [done|].
      cbn [map]. split; [|split].
      * intros Hs. specialize (Hsnap Hs). rewrite Hs.
        cbn [negb read_mask default from_option id].
        constructor; [done|]. eapply Forall_impl; [exact Hsnap|].
        intros m Hm. cbv beta in Hm. rewrite Harr in Hm.
        by eapply Forall2_Qle_trans.
      * intros Hs. specialize (Hshare Hs). rewrite Hs.
        cbn [negb read_mask default from_option id]. constructor; [by left|done].
      * intros [|t] m m' Hm Hm'; [|by apply (Hsorted t)].
        cbn in Hm. injection Hm as <-.
        change ((read_mask st' (if negb shares_memory then Some mask else None)
                 :: map (read_mask st') new) !! 1%nat)
          with (map (read_mask st') new !! 0%nat) in Hm'.
        destruct shares_memory eqn:Hs; cbn [negb read_mask default from_option id].
        -- specialize (Hshare eq_refl).
           pose proof (Forall_lookup_1 _ _ _ _ Hshare Hm') as [->|[Hz Hl]].
           ++ apply Forall2_Qle_refl.
           ++ eapply zeros_le; [done|done|].
              destruct Hst' as (_ & Hl' & Hb'). split; done.
        -- specialize (Hsnap eq_refl).
           pose proof (Forall_lookup_1 _ _ _ _ Hsnap Hm') as Hm1. cbv beta in Hm1.
           by rewrite Harr in Hm1.
Qed.

End Episode.

End RolloutFacts.

Section FinishingFacts.
Import Train Loop.

(** X21: in the running masks that the step loop of an episode leaves, a
    game never resumes: its entry at a step is never above its entry at
    the step before, whether the cached masks have a memory of their own
    or the memory of the agent's flag array. *)
Theorem X21_rollout_masks_never_resume (shares_memory : bool)
    (commands_at : nat -> list string) (c_rewards_at vc_rewards_at : nat -> list Q)
    (cfg : Settings) (r : Rollout) :
  (forall t, length (commands_at t) = batch_size cfg) ->
  rollout shares_memory commands_at c_rewards_at vc_rewards_at cfg = Some r ->
  forall (t b : nat) (m m' : Q),
    entry (masks r) t b = Some m ->
    entry (masks r) (S t) b = Some m' ->
    m' <= m.
Proof.
  intros Hcmd Hr t b m m' Hm Hm'. unfold rollout in Hr.
  destruct (step_loop _ _ _ _ _ _ _ _ _) as [[acc st]|] eqn:Hrun;
    cbn [mbind option_bind] in Hr; [|done].
  injection Hr as <-. cbn [masks] in *.
  destruct (step_loop_monotone shares_memory commands_at c_rewards_at vc_rewards_at cfg
              Hcmd _ _ _ _ _ _ (init_ok _) Hrun) as (new & Hc & _ & _ & _ & Hsorted).
  cbn [cached app] in Hc. rewrite Hc in Hm, Hm'.
  unfold entry in Hm, Hm'.
  destruct (map (read_mask st) new !! t) as [row|] eqn:Hrow;
    cbn [mbind option_bind] in Hm; [|done].
  destruct (map (read_mask st) new !! S t) as [row'|] eqn:Hrow';
    cbn [mbind option_bind] in Hm'; [|done].
  pose proof (Hsorted t row row' Hrow Hrow') as Hle.
  destruct (Forall2_lookup_l _ _ _ _ _ Hle Hm') as (y & Hy & Hle').
  rewrite Hm in Hy. injection Hy as <-. done.
Qed.

Lemma X21_rollout_masks_never_resume_witness :
  exists r,
    rollout false (fun _ => ["go east"%string; "wait"%string]) (fun _ => [1; 0])
      (fun _ => [1; 1])
      {| batch_size := 2; max_nb_steps_per_episode := 3;
         revisit_counting_lambda := 1 # 2; valid_command_bonus_lambda := 1 # 4;
         icm := false; use_intrinsic_reward := false |} = Some r
    /\ forall (t b : nat) (m m' : Q),
         entry (masks r) t b = Some m -> entry (masks r) (S t) b = Some m' -> m' <= m.
Proof.
  eexists. split; [reflexivity|].
  apply (X21_rollout_masks_never_resume false
           (fun _ => ["go east"%string; "wait"%string]) (fun _ => [1; 0])
           (fun _ => [1; 1])
           {| batch_size := 2; max_nb_steps_per_episode := 3;
              revisit_counting_lambda := 1 # 2; valid_command_bonus_lambda := 1 # 4;
              icm := false; use_intrinsic_reward := false |}).
  - intros t. reflexivity.
  - reflexivity.
Defined.

(** A column of differences of consecutive entries, closed by a zero, sums
    to its first entry. *)
Lemma telescope (xs : list Q) :
  Qsum (zip_with Qminus xs (tail xs ++ [0])) == hd 0 xs.
Proof.
  induction xs as [|x [|y rest] IH]; simpl in *; [reflexivity|ring|].
  rewrite IH. ring.
Qed.

Lemma game_finishing_mask_spec (steps batch : nat) (masks_np : list (list Q)) :
  has_shape steps batch masks_np ->
  exists fin,
    game_finishing_mask batch masks_np = Some fin
    /\ has_shape steps batch fin
    /\ forall (t b : nat) (m : Q),
         entry masks_np t b = Some m ->
         entry fin t b = Some (m - default 0 (entry masks_np (S t) b)).
Proof.
  intros [Hl Hall]. unfold game_finishing_mask.
  assert (Hst : has_shape (S steps) batch (masks_np ++ [replicate batch 0])).
  { split; [rewrite length_app; simpl; lia|].
    apply Forall_app. split; [done|]. constructor; [apply length_replicate|constructor]. }
  rewrite (stack_shape (S steps) batch) by (done || lia).
  cbn [mbind option_bind]. rewrite length_app. cbn [length].
  replace (length masks_np + 1 - 1)%nat with (length masks_np) by lia.
  rewrite take_app_length.
  assert (Hnext : has_shape steps batch (drop 1 (masks_np ++ [replicate batch 0]))).
  { split; [rewrite length_drop, length_app; simpl; lia|].
    apply Forall_drop. by destruct Hst. }
  destruct (matrix_op_spec Qminus steps batch masks_np _ (conj Hl Hall) Hnext)
    as (fin & Hfin & Hshape & Hentry).
  exists fin. split; [done|]. split; [done|].
  intros t b m Hm. rewrite Hentry, Hm. cbn [mbind option_bind].
  assert (Ht : (t < steps)%nat).
  { unfold entry in Hm. destruct (masks_np !! t) eqn:E; [|done].
    apply lookup_lt_Some in E. lia. }
  assert (Hb : (b < batch)%nat).
  { unfold entry in Hm. destruct (masks_np !! t) as [row|] eqn:E; [|done].
    cbn [mbind option_bind] in Hm. apply lookup_lt_Some in Hm.
    rewrite (Forall_lookup_1 _ _ _ _ Hall E) in Hm. done. }
  unfold entry at 1. rewrite lookup_drop. cbn [Nat.add].
  destruct (decide (S t < steps)%nat) as [Hlt|Hge].
  - rewrite lookup_app_l by lia. unfold entry.
    destruct (lookup_lt_is_Some_2 masks_np (S t)) as [row Hrow]; [lia|].
    rewrite Hrow. cbn [mbind option_bind].
    destruct (lookup_lt_is_Some_2 row b) as [y Hy].
    { rewrite (Forall_lookup_1 _ _ _ _ Hall Hrow). done. }
    rewrite Hy. done.
  - rewrite lookup_app_r by lia. replace (S t - length masks_np)%nat with 0%nat by lia.
    cbn [lookup list_lookup mbind option_bind].
    rewrite lookup_replicate_2 by done. cbn [mbind option_bind].
    unfold entry. rewrite lookup_ge_None_2 by lia. done.
Qed.

End FinishingFacts.

Section FinishingOnce.
Import Loop.

(** X22: for running masks of 0 and 1 in which no game resumes,
    [game_finishing_mask] holds 0 and 1 only, is 1 for a game exactly at
    the step at which the game runs for the last time, and sums, over the
    steps of a game, to the first running flag of the game: a game that
    runs at the first step finishes exactly once. *)
Theorem X22_game_finishing_mask_once (steps batch : nat) (masks_np : list (list Q)) :
  has_shape steps batch masks_np ->
  Forall (Forall Spec.binary) masks_np ->
  (forall (t b : nat) (m m' : Q),
     entry masks_np t b = Some m -> entry masks_np (S t) b = Some m' -> m' <= m) ->
  exists fin,
    game_finishing_mask batch masks_np = Some fin
    /\ has_shape steps batch fin
    /\ Forall (Forall Spec.binary) fin
    /\ (forall (t b : nat) (m : Q),
          entry masks_np t b = Some m ->
          exists v, entry fin t b = Some v
                    /\ (v == 1 <-> m == 1 /\ default 0 (entry masks_np (S t) b) == 0))
    /\ forall b : nat,
         (b < batch)%nat ->
         exists col, column b fin = Some col
                     /\ Qsum col == default 0 (entry masks_np 0 b).
Proof.
  intros Hshape Hbin Hmono.
  destruct (game_finishing_mask_spec steps batch masks_np Hshape)
    as (fin & Hfin & Hfs & Hentry).
  exists fin. split; [done|]. split; [done|].
  assert (Hm : forall t b, (t < steps)%nat -> (b < batch)%nat ->
            exists m, entry masks_np t b = Some m /\ Spec.binary m).
  { intros t b Ht Hb. destruct Hshape as [Hl Hall].
    destruct (lookup_lt_is_Some_2 masks_np t) as [row Hrow]; [lia|].
    destruct (lookup_lt_is_Some_2 row b) as [m Hmb].
    { rewrite (Forall_lookup_1 _ _ _ _ Hall Hrow). done. }
    exists m. unfold entry. rewrite Hrow. split; [done|].
    exact (Forall_lookup_1 _ _ _ _ (Forall_lookup_1 _ _ _ _ Hbin Hrow) Hmb). }
  assert (Hnext : forall t b m, entry masks_np t b = Some m ->
            Spec.binary m /\ Spec.binary (default 0 (entry masks_np (S t) b))
            /\ default 0 (entry masks_np (S t) b) <= m).
  { intros t b m Hmt.
    assert (Ht : (t < steps)%nat).
    { unfold entry in Hmt. destruct (masks_np !! t) eqn:E; [|done].
      apply lookup_lt_Some in E. destruct Hshape. lia. }
    assert (Hb : (b < batch)%nat).
    { unfold entry in Hmt. destruct (masks_np !! t) as [row|] eqn:E; [|done].
      cbn [mbind option_bind] in Hmt. apply lookup_lt_Some in Hmt.
      rewrite (has_shape_row _ _ _ _ _ Hshape E) in Hmt. done. }
    destruct (Hm t b Ht Hb) as (m0 & Hm0 & Hb0).
    rewrite Hmt in Hm0. injection Hm0 as <-. split; [done|].
    destruct (entry masks_np (S t) b) as [m'|] eqn:Hn; cbn [default from_option id].
    - assert (HSt : (S t < steps)%nat).
      { unfold entry in Hn. destruct (masks_np !! S t) eqn:E; [|done].
        apply lookup_lt_Some in E. destruct Hshape. lia. }
      destruct (Hm (S t) b HSt Hb) as (m2 & Hm2 & Hb2).
      rewrite Hn in Hm2. injection Hm2 as <-. split; [done|].
      by apply (Hmono t b).
    - split; [left; reflexivity|]. destruct Hb0 as [E|E]; lra. }
  split; [|split].
  - apply Forall_lookup_2. intros t row Hrow. apply Forall_lookup_2. intros b v Hv.
    assert (Ht : (t < steps)%nat).
    { destruct Hfs as [Hl _]. apply lookup_lt_Some in Hrow. lia. }
    assert (Hb : (b < batch)%nat).
    { rewrite <- (has_shape_row _ _ _ _ _ Hfs Hrow). by eapply lookup_lt_Some. }
    destruct (Hm t b Ht Hb) as (m & Hmt & _).
    assert (Hv' : entry fin t b = Some v) by (unfold entry; by rewrite Hrow).
    rewrite (Hentry t b m Hmt) in Hv'. injection Hv' as <-.
    destruct (Hnext t b m Hmt) as (Hb1 & Hb2 & Hle).
    unfold Spec.binary in *. destruct Hb1 as [E|E], Hb2 as [E'|E'];
      [left|exfalso|right|left]; lra.
  - intros t b m Hmt. eexists. split; [exact (Hentry t b m Hmt)|].
    destruct (Hnext t b m Hmt) as (Hb1 & Hb2 & Hle).
    unfold Spec.binary in *.
    destruct Hb1 as [E|E], Hb2 as [E'|E']; split; intros H; try split; lra.
  - intros b Hb.
    destruct (column_spec steps batch fin b Hfs Hb) as (col & Hcol & Hlc & Hce).
    destruct (column_spec steps batch masks_np b Hshape Hb) as (colm & _ & Hlm & Hme).
    exists col. split; [done|].
    assert (Heq : col = zip_with Qminus colm (tail colm ++ [0])).
    { apply list_eq. intros t. rewrite lookup_zip_with, Hce, Hme.
      destruct (decide (t < steps)%nat) as [Ht|Ht].
      - destruct (Hm t b Ht Hb) as (m & Hmt & _).
        rewrite (Hentry t b m Hmt), Hmt. cbn [mbind option_bind].
        destruct (decide (S t < steps)%nat) as [HSt|HSt].
        + rewrite lookup_app_l by (rewrite length_tl; lia).
          rewrite lookup_tail, Hme.
          destruct (Hm (S t) b HSt Hb) as (m' & -> & _). done.
        + rewrite lookup_app_r by (rewrite length_tl; lia).
          rewrite length_tl. replace (t - (length colm - 1))%nat with 0%nat by lia.
          cbn [lookup list_lookup mbind option_bind].
          rewrite <- Hme, lookup_ge_None_2 by lia. done.
      - rewrite <- Hce, <- Hme.
        rewrite (lookup_ge_None_2 col), (lookup_ge_None_2 colm) by lia. done. }
    rewrite Heq, telescope. rewrite <- Hme. by destruct colm.
Qed.

Lemma X22_game_finishing_mask_once_witness :
  exists fin,
    game_finishing_mask 2 [[1; 1]; [1; 0]; [0; 0]] = Some fin
    /\ has_shape 3 2 fin
    /\ Forall (Forall Spec.binary) fin
    /\ exists col, column 0 fin = Some col /\ Qsum col == 1.
Proof.
  destruct (X22_game_finishing_mask_once 3 2 [[1; 1]; [1; 0]; [0; 0]])
    as (fin & Hrun & Hs & Hb & _ & Hsum).
  - split; [reflexivity|]. repeat constructor.
  - repeat (constructor; [repeat (constructor; [(left; reflexivity) || (right; reflexivity)|]); constructor|]).
    constructor.
  - intros t b m m' Hm Hm'.
    destruct t as [|[|[|t]]]; destruct b as [|[|b]]; cbn in Hm, Hm';
      try discriminate; injection Hm as <-; injection Hm' as <-; lra.
  - exists fin. split; [exact Hrun|]. split; [exact Hs|]. split; [exact Hb|].
    destruct (Hsum 0%nat) as (col & Hcol & Hq); [lia|].
    exists col. split; [exact Hcol|]. exact Hq.
Defined.

End FinishingOnce.

(** ** Reading the training logs *)

Section CheckMaxFacts.
Import CheckMax.

(** The loop keeps the first line of the largest score above the starting
    maximum, if there is one. *)
Lemma check_loop_spec (qa_weight : Q) (reader : list LogEntry) :
  forall (max : Q) (max_obj : option LogEntry),
    (check_loop qa_weight max max_obj reader = (max, max_obj)
     /\ Forall (fun obj => val qa_weight obj <= max) reader)
    \/ exists (i : nat) (obj : LogEntry),
         reader !! i = Some obj
         /\ check_loop qa_weight max max_obj reader = (val qa_weight obj, Some obj)
         /\ max < val qa_weight obj
         /\ Forall (fun o => val qa_weight o <= val qa_weight obj) reader
         /\ forall (j : nat) (o : LogEntry),
              (j < i)%nat -> reader !! j = Some o ->
              val qa_weight o < val qa_weight obj.
Proof.
  induction reader as [|obj rest IH]; intros max max_obj; cbn [check_loop].
  - left. done.
  - destruct (Qle_bool (val qa_weight obj) max) eqn:Hle; cbn [negb].
    + apply Qle_bool_iff in Hle.
      destruct (IH max max_obj) as [[Hout Hall]|(i & o & Hi & Hout & Hlt & Hall & Hfirst)].
      * left. split; [done|]. by constructor.
      * right. exists (S i), o. split; [done|]. split; [done|]. split; [done|].
        split; [constructor; [lra|done]|].
        intros [|j] o' Hj Ho'; simpl in Ho'.
        -- injection Ho' as <-. lra.
        -- apply (Hfirst j); [lia|done].
    + assert (Hlt : max < val qa_weight obj).
      { apply Qnot_le_lt. intros Hc. apply Qle_bool_iff in Hc. congruence. }
      right.
      destruct (IH (val qa_weight obj) (Some obj))
        as [[Hout Hall]|(i & o & Hi & Hout & Hlt' & Hall & Hfirst)].
      * exists 0%nat, obj. split; [done|]. split; [done|]. split; [done|].
        split; [constructor; [apply Qle_refl|done]|]. intros j o Hj. lia.
      * exists (S i), o. split; [done|]. split; [done|]. split; [lra|].
        split; [constructor; [lra|done]|].
        intros [|j] o' Hj Ho'; simpl in Ho'.
        -- injection Ho' as <-. done.
        -- apply (Hfirst j); [lia|done].
Qed.

(** X23: [check_max] raises exactly when no line of the log has a positive
    weighted score, in particular on an empty log: [max_obj] is then still
    [None] when its accuracies are printed. *)
Theorem X23_check_max_raises (reader : list LogEntry) (qa_weight : Q) :
  check_max reader qa_weight = None
  <-> Forall (fun obj => val qa_weight obj <= 0) reader.
Proof.
  unfold check_max.
  destruct (check_loop_spec qa_weight reader 0 None)
    as [[Hout Hall]|(i & o & Hi & Hout & Hlt & Hall & Hfirst)]; rewrite Hout.
  - split; done.
  - cbn. split; [done|]. intros Hle.
    pose proof (Forall_lookup_1 _ _ _ _ Hle Hi) as Ho. cbv beta in Ho. lra.
Qed.

(** X24: when [check_max] prints, it prints the accuracies of a line of the
    log whose weighted score is positive and is the largest of the log, and
    of the first such line: every earlier line has a smaller score. *)
Theorem X24_check_max_first_best (reader : list LogEntry) (qa_weight acc suff : Q) :
  check_max reader qa_weight = Some (acc, suff) ->
  exists (i : nat) (obj : LogEntry),
    reader !! i = Some obj
    /\ acc = qa obj /\ suff = sufficient_info obj
    /\ 0 < val qa_weight obj
    /\ Forall (fun o => val qa_weight o <= val qa_weight obj) reader
    /\ forall (j : nat) (o : LogEntry),
         (j < i)%nat -> reader !! j = Some o ->
         val qa_weight o < val qa_weight obj.
Proof.
  unfold check_max.
  destruct (check_loop_spec qa_weight reader 0 None)
    as [[Hout Hall]|(i & o & Hi & Hout & Hlt & Hall & Hfirst)]; rewrite Hout;
    cbn; [done|].
  intros [= <- <-]. exists i, o. done.
Qed.

Lemma X24_check_max_first_best_witness :
  exists (i : nat) (obj : LogEntry),
    [ {| qa := 1 # 2; sufficient_info := 0 |};
      {| qa := 1; sufficient_info := 1 # 2 |};
      {| qa := 1 # 2; sufficient_info := 1 |} ] !! i = Some obj
    /\ 1 = qa obj /\ 1 # 2 = sufficient_info obj.
Proof.
  destruct (X24_check_max_first_best
              [ {| qa := 1 # 2; sufficient_info := 0 |};
                {| qa := 1; sufficient_info := 1 # 2 |};
                {| qa := 1 # 2; sufficient_info := 1 |} ] (1 # 2) 1 (1 # 2))
    as (i & obj & Hi & Ha & Hs & _).
  - reflexivity.
  - exists i, obj. split; [exact Hi|]. split; [exact Ha|exact Hs].
Defined.

Lemma str_index_underscore (s : string) :
  forall i : nat,
    str_index "_" s = Some i ->
    s = str_take i s +:+ "_" +:+ str_drop (i + 1) s
    /\ str_index "_" (str_take i s) = None.
Proof.
  induction s as [|c s IH]; intros i; cbn [str_index starts_with]; [done|].
  rewrite andb_true_r.
  destruct (Ascii.eqb _ c) eqn:E.
  - apply Ascii.eqb_eq in E as <-. intros [= <-]. cbn. done.
  - destruct (str_index "_" s) as [j|]; [|done]. cbn. intros [= <-].
    destruct (IH j eq_refl) as [Hs Hnone]. cbn [str_take str_drop Nat.add].
    split.
    + rewrite append_cons. congruence.
    + cbn [str_index starts_with]. rewrite andb_true_r, E. by rewrite Hnone.
Qed.

(** X25: when [extract_details] prints, the file name is the model name,
    "_", the question type, "_" and a rest with a further "_", where the
    model name and the question type hold no "_"; and the map kind it
    prints is always "Random", never "Fixed", because [bool] of the one
    character it reads is true. *)
Theorem X25_extract_details_parts (filename model question label num_games : string) :
  extract_details filename = Some (model, question, label, num_games) ->
  label = "Random"%string
  /\ str_index "_" model = None
  /\ str_index "_" question = None
  /\ exists rest : string,
       filename = model +:+ "_" +:+ question +:+ "_" +:+ rest
       /\ is_Some (str_index "_" rest).
Proof.
  unfold extract_details. intros H.
  destruct (str_index "_" filename) as [i|] eqn:Hi; cbn [mbind option_bind] in H; [|done].
  destruct (str_index "_" (str_drop (i + 1) filename)) as [j|] eqn:Hj;
    cbn [mbind option_bind] in H; [|done].
  destruct (str_index "_" (str_drop (j + 1) (str_drop (i + 1) filename))) as [k|] eqn:Hk;
    cbn [mbind option_bind] in H; [|done].
  destruct (str_get _ _) as [c|]; cbn [mbind option_bind] in H; [|done].
  cbn [String.eqb negb] in H. injection H as <- <- <- <-.
  destruct (str_index_underscore _ _ Hi) as [Hf Hm].
  destruct (str_index_underscore _ _ Hj) as [Hf' Hq].
  split; [done|]. split; [done|]. split; [done|].
  exists (str_drop (j + 1) (str_drop (i + 1) filename)). split; [|by rewrite Hk].
  rewrite <- Hf'. exact Hf.
Qed.

Lemma X25_extract_details_parts_witness :
  extract_details "a2c_existence_0_fixed_size500.json"
  = Some ("a2c", "existence", "Random", "500")%string
  /\ exists rest : string,
       "a2c_existence_0_fixed_size500.json"%string
       = ("a2c" +:+ "_" +:+ "existence" +:+ "_" +:+ rest)%string.
Proof.
  split; [reflexivity|].
  destruct (X25_extract_details_parts "a2c_existence_0_fixed_size500.json"
              "a2c" "existence" "Random" "500" eq_refl)
    as (_ & _ & _ & rest & Hrest & _).
  exists rest. exact Hrest.
Defined.

End CheckMaxFacts.

(** ** The offline data set *)

Section DatasetFacts.
Import Dataset.

(** X26: for a positive [sentence_length], [pad_input] returns a sentence
    of exactly [sentence_length] codes: a sentence that is not longer is
    filled up with zeros at its end, and a longer sentence keeps its first
    [sentence_length - 1] codes and its last code. *)
Theorem X26_pad_input_length (sentence_length : Z) (sentence : list Z) :
  (0 < sentence_length)%Z ->
  let n := Z.to_nat sentence_length in
  length (pad_input sentence_length sentence) = n
  /\ pad_input sentence_length sentence
     = if (length sentence <=? n)%nat
       then sentence ++ replicate (n - length sentence) 0%Z
       else take (n - 1) sentence ++ drop (length sentence - 1) sentence.
Proof.
  intros Hpos n. unfold pad_input.
  assert (Hcontent : (if (0 <? Z.of_nat (length sentence) - sentence_length)%Z
     then del_slice (- (Z.of_nat (length sentence) - sentence_length + 1)) (-1) sentence
     else if (Z.of_nat (length sentence) - sentence_length <? 0)%Z
          then sentence ++ replicate
                 (Z.to_nat (Z.abs (Z.of_nat (length sentence) - sentence_length))) 0%Z
          else sentence)
     = if (length sentence <=? n)%nat
       then sentence ++ replicate (n - length sentence) 0%Z
       else take (n - 1) sentence ++ drop (length sentence - 1) sentence).
  { destruct (Z.ltb_spec 0 (Z.of_nat (length sentence) - sentence_length)) as [Hd|Hd].
    - rewrite (proj2 (Nat.leb_gt _ _)) by lia.
      unfold del_slice, slice_bound.
      rewrite (proj2 (Z.ltb_lt _ 0)) by lia.
      rewrite (proj2 (Z.ltb_lt (-1) 0)) by lia.
      replace (Z.to_nat (Z.max 0 (Z.of_nat (length sentence)
                 + - (Z.of_nat (length sentence) - sentence_length + 1))))
        with (n - 1)%nat by lia.
      replace (Z.to_nat (Z.max 0 (Z.of_nat (length sentence) + -1)))
        with (length sentence - 1)%nat by lia.
      rewrite (proj2 (Nat.ltb_lt _ _)) by lia. done.
    - rewrite (proj2 (Nat.leb_le _ _)) by lia.
      destruct (Z.ltb_spec (Z.of_nat (length sentence) - sentence_length) 0) as [Hd'|Hd'].
      + f_equal. f_equal. lia.
      + replace (n - length sentence)%nat with 0%nat by lia. by rewrite app_nil_r. }
  rewrite Hcontent. split; [|done].
  destruct (Nat.leb_spec (length sentence) n).
  - rewrite length_app, length_replicate. lia.
  - rewrite length_app, length_take, length_drop. lia.
Qed.

Lemma X26_pad_input_length_witness :
  length (pad_input 3 [1; 2; 3; 4; 5; 6]%Z) = 3%nat
  /\ pad_input 3 [1; 2; 3; 4; 5; 6]%Z = [1; 2; 6]%Z.
Proof. apply (X26_pad_input_length 3 [1; 2; 3; 4; 5; 6]%Z). lia. Defined.

(** X27: for a [sentence_length] that is not positive, [pad_input] of a
    sentence that is not empty returns the last code of the sentence alone:
    one code, not [sentence_length] codes. *)
Theorem X27_pad_input_without_room (sentence_length : Z) (sentence : list Z) (w : Z) :
  (sentence_length <= 0)%Z ->
  last sentence = Some w ->
  pad_input sentence_length sentence = [w].
Proof.
  intros Hsl Hlast. unfold pad_input.
  assert (Hlen : (0 < length sentence)%nat).
  { destruct sentence; [done|simpl; lia]. }
  rewrite (proj2 (Z.ltb_lt 0 _)) by lia.
  unfold del_slice, slice_bound.
  rewrite (proj2 (Z.ltb_lt _ 0)) by lia.
  rewrite (proj2 (Z.ltb_lt (-1) 0)) by lia.
  replace (Z.to_nat (Z.max 0 (Z.of_nat (length sentence)
             + - (Z.of_nat (length sentence) - sentence_length + 1))))
    with 0%nat by lia.
  replace (Z.to_nat (Z.max 0 (Z.of_nat (length sentence) + -1)))
    with (length sentence - 1)%nat by lia.
  rewrite last_lookup in Hlast.
  replace (pred (length sentence)) with (length sentence - 1)%nat in Hlast by lia.
  destruct (Nat.ltb_spec 0 (length sentence - 1)) as [Hl|Hl].
  - cbn [take app]. rewrite (drop_S _ _ _ Hlast), drop_ge by lia. done.
  - destruct sentence as [|x [|y rest]]; simpl in *; [done| |lia]. congruence.
Qed.

Lemma X27_pad_input_without_room_witness : pad_input 0 [1; 2; 3; 4]%Z = [4%Z].
Proof.
  apply (X27_pad_input_without_room 0 [1; 2; 3; 4]%Z 4).
  - lia.
  - reflexivity.
Defined.

End DatasetFacts.
